(** * command-history: the undo/redo engine of [src/command-history.ts]

    A shallow embedding of the [CommandHistory] class and of the [ICommand]
    interface it drives, followed by the properties of the engine.

    Conventions of the embedding.

    - The two stacks are JavaScript arrays whose top is the END of the array;
      they are lists in array order, [push] appends and [pop] removes the
      last element.
    - Everything outside the engine (the application state the commands act
      on, and the commands' own mutable fields) is an abstract [World].  A
      command is a reference [Cmd]; its methods are functions of the
      reference and the world.
    - [execute], [undo] and [redo] of a command return promises.  A promise
      settles as [Resolved] or [Rejected]; while it is pending the event loop
      may run other callbacks.  The engine being busy, the only callbacks that
      can change it then are the coalescence timer and a caller's
      [coalescenceBarrier()]: they are the [meanwhile] events of a promise.
    - The synchronous callbacks (the constructor, [coalesce], [isNoop], the
      [description] getter and [cleanup]) are taken to return normally.
    - [levels] is a finite number.  [undo] and [redo] take an integral
      count; [undo_number] and [redo_number] are the same loops on a
      rational [levels], and agree with them at the ceiling of [levels].
    - A call of the engine is followed from its invocation to the settlement
      of its promise; [Failed] is a thrown error or a rejected promise.
    - [calls] is instrumentation: the command operations the engine has
      invoked, in order.  [console] is what [console.info] has printed.
      [timers] and [next_timer] are the host's table of pending timeouts. *)

From Stdlib Require Import QArith Qround.
From Stdlib Require Import String List ZArith Bool Lia Permutation.
Import ListNotations.
Local Open Scope list_scope.
Local Open Scope Z_scope.

Set Implicit Arguments.

(** ** Enumerations *)

Inductive CoalescenceResult : Type :=
  | IMMISCIBLE
  | COALESCED
  | UNDONE.

Inductive CommandResult : Type :=
  | ADD
  | NOOP
  | CLEAR.

(** ** Promises *)

Inductive Settlement (A : Type) : Type :=
  | Resolved (value : A)
  | Rejected (reason : string).

Arguments Resolved {A} value.
Arguments Rejected {A} reason.

(** What the event loop may run against a busy engine while a promise is
    pending. *)
Inductive Interleaved : Type :=
  | TimerFired (id : nat)
  | BarrierCalled.

Record Promise (World A : Type) : Type := mkPromise {
  meanwhile : list Interleaved;
  settled : Settlement A;
  world_after : World
}.

(** ** The ICommand interface *)

Class ICommand (World Cmd : Type) : Type := {
  cmd_execute : Cmd -> World -> Promise World CommandResult;
  cmd_redo : Cmd -> World -> Promise World unit;
  cmd_undo : Cmd -> World -> Promise World unit;
  coalesce : Cmd -> option (Cmd -> World -> CoalescenceResult * World);
  isNoop : Cmd -> World -> bool;
  description : Cmd -> World -> string
}.

(** The outcome of a call of the engine. *)
Inductive Completion : Type :=
  | Done
  | Failed (error : string).

(** ** Arrays used as stacks *)

Definition push {A : Type} (a : list A) (x : A) : list A := a ++ [x].

(** [Array.prototype.pop]: the removed element ([None] for [undefined], on an
    empty array) and the array that remains. *)
Definition pop_array {A : Type} (a : list A) : option A * list A :=
  match rev a with
  | [] => (None, a)
  | x :: r => (Some x, rev r)
  end.

Section Engine.

Context {World Cmd : Type} `{ICommand World Cmd}.

(** ** The engine's fields *)

Record CommandHistory : Type := mkCommandHistory {
  undoCommands : list Cmd;
  redoCommands : list Cmd;
  can_coalesce : bool;
  timeoutId : option nat;
  cleanup : World -> World;
  coalescenceWindow : Z;
  verbose : bool;
  _busy : bool
}.

Record Options : Type := mkOptions {
  opt_cleanup : option (World -> World);
  opt_coalescenceWindow : option Z;
  opt_verbose : option bool
}.

Definition default {A : Type} (o : option A) (d : A) : A :=
  match o with Some v => v | None => d end.

(** [constructor({cleanup = () => {}, coalescenceWindow = 3000, verbose = true})] *)
Definition new_CommandHistory (o : Options) : CommandHistory :=
  {| undoCommands := [];
     redoCommands := [];
     can_coalesce := true;
     timeoutId := None;
     cleanup := default (opt_cleanup o) (fun w => w);
     coalescenceWindow := default (opt_coalescenceWindow o) 3000;
     verbose := default (opt_verbose o) true;
     _busy := false |}.

Inductive Call : Type :=
  | Call_execute (c : Cmd)
  | Call_redo (c : Cmd)
  | Call_undo (c : Cmd)
  | Call_coalesce (lcmd ncmd : Cmd)
  | Call_cleanup.

(** The engine together with its surroundings. *)
Record Machine : Type := mkMachine {
  this : CommandHistory;
  world : World;
  console : list string;
  timers : list nat;
  next_timer : nat;
  calls : list Call
}.

Definition boot (o : Options) (w : World) : Machine :=
  {| this := new_CommandHistory o;
     world := w;
     console := [];
     timers := [];
     next_timer := 1%nat;
     calls := [] |}.

(** *** Field assignments *)

Definition set_this (h : CommandHistory) (m : Machine) : Machine :=
  mkMachine h (world m) (console m) (timers m) (next_timer m) (calls m).

Definition set_world (w : World) (m : Machine) : Machine :=
  mkMachine (this m) w (console m) (timers m) (next_timer m) (calls m).

Definition set_console (l : list string) (m : Machine) : Machine :=
  mkMachine (this m) (world m) l (timers m) (next_timer m) (calls m).

Definition set_timers (t : list nat) (n : nat) (m : Machine) : Machine :=
  mkMachine (this m) (world m) (console m) t n (calls m).

Definition log_call (c : Call) (m : Machine) : Machine :=
  mkMachine (this m) (world m) (console m) (timers m) (next_timer m)
            (calls m ++ [c]).

Definition h_set_undoCommands (v : list Cmd) (h : CommandHistory) :=
  mkCommandHistory v (redoCommands h) (can_coalesce h) (timeoutId h)
                   (cleanup h) (coalescenceWindow h) (verbose h) (_busy h).

Definition h_set_redoCommands (v : list Cmd) (h : CommandHistory) :=
  mkCommandHistory (undoCommands h) v (can_coalesce h) (timeoutId h)
                   (cleanup h) (coalescenceWindow h) (verbose h) (_busy h).

Definition h_set_can_coalesce (v : bool) (h : CommandHistory) :=
  mkCommandHistory (undoCommands h) (redoCommands h) v (timeoutId h)
                   (cleanup h) (coalescenceWindow h) (verbose h) (_busy h).

Definition h_set_timeoutId (v : option nat) (h : CommandHistory) :=
  mkCommandHistory (undoCommands h) (redoCommands h) (can_coalesce h) v
                   (cleanup h) (coalescenceWindow h) (verbose h) (_busy h).

Definition h_set_busy (v : bool) (h : CommandHistory) :=
  mkCommandHistory (undoCommands h) (redoCommands h) (can_coalesce h)
                   (timeoutId h) (cleanup h) (coalescenceWindow h)
                   (verbose h) v.

Definition set_undoCommands (v : list Cmd) (m : Machine) : Machine :=
  set_this (h_set_undoCommands v (this m)) m.

Definition set_redoCommands (v : list Cmd) (m : Machine) : Machine :=
  set_this (h_set_redoCommands v (this m)) m.

Definition set_can_coalesce (v : bool) (m : Machine) : Machine :=
  set_this (h_set_can_coalesce v (this m)) m.

Definition set_timeoutId (v : option nat) (m : Machine) : Machine :=
  set_this (h_set_timeoutId v (this m)) m.

Definition set_busy (v : bool) (m : Machine) : Machine :=
  set_this (h_set_busy v (this m)) m.

Definition push_undo (c : Cmd) (m : Machine) : Machine :=
  set_undoCommands (push (undoCommands (this m)) c) m.

Definition push_redo (c : Cmd) (m : Machine) : Machine :=
  set_redoCommands (push (redoCommands (this m)) c) m.

(** [this.verbose && console.info(msg)] *)
Definition info (msg : string) (m : Machine) : Machine :=
  if verbose (this m) then set_console (console m ++ [msg]) m else m.

(** ** The host's timers *)

Fixpoint remove_timer (id : nat) (t : list nat) : list nat :=
  match t with
  | [] => []
  | x :: r => if Nat.eqb x id then remove_timer id r else x :: remove_timer id r
  end.

Definition clearTimeout (id : nat) (m : Machine) : Machine :=
  set_timers (remove_timer id (timers m)) (next_timer m) m.

(** [this.timeoutId = setTimeout(callback, this.coalescenceWindow)] *)
Definition setTimeout (m : Machine) : Machine :=
  set_timeoutId (Some (next_timer m))
    (set_timers (timers m ++ [next_timer m]) (S (next_timer m)) m).

(** The callback handed to [setTimeout]. *)
Definition timer_callback (m : Machine) : Machine :=
  set_timeoutId None (set_can_coalesce false m).

(** A pending timeout expires: the host removes it and runs its callback. *)
Definition timer_expires (id : nat) (m : Machine) : Machine :=
  if existsb (Nat.eqb id) (timers m)
  then timer_callback (clearTimeout id m)
  else m.

(** ** Getters *)

Definition busy (m : Machine) : bool := _busy (this m).

Definition undoCount (m : Machine) : nat :=
  length (filter (fun c => negb (isNoop c (world m))) (undoCommands (this m))).

Definition redoCount (m : Machine) : nat :=
  length (redoCommands (this m)).

(** The backwards scan of [undoDescription], on the array read from its end. *)
Fixpoint first_description (w : World) (top_first : list Cmd) : string :=
  match top_first with
  | [] => "None"
  | cmd :: below =>
      if negb (isNoop cmd w) then description cmd w
      else first_description w below
  end.

Definition undoDescription (m : Machine) : string :=
  first_description (world m) (rev (undoCommands (this m))).

Definition redoDescription (m : Machine) : string :=
  match rev (redoCommands (this m)) with
  | [] => "None"
  | cmd :: _ => description cmd (world m)
  end.

(** ** Operations *)

Definition coalescenceBarrier (m : Machine) : Machine :=
  set_can_coalesce false m.

Definition interleave (m : Machine) (e : Interleaved) : Machine :=
  match e with
  | TimerFired id => timer_expires id m
  | BarrierCalled => coalescenceBarrier m
  end.

(** [await p]: the engine is suspended until [p] settles. *)
Definition await {A : Type} (p : Promise World A) (m : Machine) : Machine :=
  set_world (world_after p) (fold_left interleave (meanwhile p) m).

Definition run_cleanup (m : Machine) : Machine :=
  log_call Call_cleanup (set_world (cleanup (this m) (world m)) m).

(** The [while] loop of [undo].  Every iteration pops [this.undoCommands],
    so the loop is a recursion on that array read from its end:
    [top_first] is [rev this.undoCommands].  [levels] is an integer here;
    [undo_loop_number] below is the loop on any number. *)
Fixpoint undo_loop (top_first : list Cmd) (levels : Z) (m : Machine)
  : Completion * Machine :=
  match top_first with
  | [] => (Done, m)
  | command :: below =>
      if levels >? 0 then
        let m := set_undoCommands (rev below) m in
        if isNoop command (world m) then undo_loop below levels m
        else
          let p := cmd_undo command (world m) in
          let m := await p (log_call (Call_undo command) m) in
          match settled p with
          | Rejected e => (Failed e, m)
          | Resolved _ =>
              let m := info ("Undid " ++ description command (world m)
                             ++ ".")%string m in
              let m := push_redo command m in
              undo_loop below (levels - 1) m
          end
      else (Done, m)
  end.

Definition undo (levels : Z) (m : Machine) : Completion * Machine :=
  if _busy (this m) then (Failed "Cannot undo during another operation.", m)
  else
    let m := set_busy true m in
    match undo_loop (rev (undoCommands (this m))) levels m with
    | (Failed e, m) => (Failed e, m)
    | (Done, m) =>
        let m := set_can_coalesce false m in
        let m := run_cleanup m in
        (Done, set_busy false m)
    end.

(** The end of [undo] and of [redo], by the way the loop ended: a rejection
    leaves the function at once; otherwise the coalescence barrier, the
    cleanup hook and the release of the busy flag follow. *)
Definition after_loop (r : Completion * Machine) : Completion * Machine :=
  match r with
  | (Failed e, m) => (Failed e, m)
  | (Done, m) =>
      let m := set_can_coalesce false m in
      let m := run_cleanup m in
      (Done, set_busy false m)
  end.

(** The [while] loop of [redo], on [rev this.redoCommands], for an integral
    [levels]; [redo_loop_number] below is the loop on any number. *)
Fixpoint redo_loop (top_first : list Cmd) (levels : Z) (m : Machine)
  : Completion * Machine :=
  match top_first with
  | [] => (Done, m)
  | command :: below =>
      if levels >? 0 then
        let m := set_redoCommands (rev below) m in
        let p := cmd_redo command (world m) in
        let m := await p (log_call (Call_redo command) m) in
        match settled p with
        | Rejected e => (Failed e, m)
        | Resolved _ =>
            let m := info ("Redid " ++ description command (world m)
                           ++ ".")%string m in
            let m := push_undo command m in
            redo_loop below (levels - 1) m
        end
      else (Done, m)
  end.

Definition redo (levels : Z) (m : Machine) : Completion * Machine :=
  if _busy (this m) then (Failed "Cannot redo during another operation.", m)
  else
    let m := set_busy true m in
    match redo_loop (rev (redoCommands (this m))) levels m with
    | (Failed e, m) => (Failed e, m)
    | (Done, m) =>
        let m := set_can_coalesce false m in
        let m := run_cleanup m in
        (Done, set_busy false m)
    end.

Definition pop (m : Machine) : Completion * Machine :=
  if _busy (this m)
  then (Failed "Cannot alter command history state during an operation.", m)
  else (Done, set_undoCommands (snd (pop_array (undoCommands (this m)))) m).

Definition clear (m : Machine) : Completion * Machine :=
  if _busy (this m)
  then (Failed "Cannot alter command history state during an operation.", m)
  else (Done, set_redoCommands [] (set_undoCommands [] m)).

(** How the coalescence block of [execute] ends: control goes on to
    [ncmd.execute()], or the function returns. *)
Inductive Flow : Type :=
  | Proceed
  | Return.

(** [if (this.can_coalesce) { ... }] in [execute]. *)
Definition coalescence_block (ncmd : Cmd) (m : Machine) : Flow * Machine :=
  if can_coalesce (this m) then
    match pop_array (undoCommands (this m)) with
    | (None, _) => (Proceed, m)
    | (Some lcmd, rest) =>
        let m := set_undoCommands rest m in
        match coalesce lcmd with
        | Some merge =>
            let (r, w) := merge ncmd (world m) in
            let m := set_world w (log_call (Call_coalesce lcmd ncmd) m) in
            match r with
            | IMMISCIBLE => (Proceed, push_undo lcmd m)
            | COALESCED =>
                let m := push_undo lcmd m in
                (Return,
                 info ("Coalesced " ++ description ncmd (world m) ++ ".")%string m)
            | UNDONE =>
                (Return,
                 info ("Dropped " ++ description ncmd (world m)
                       ++ " due to manual undo.")%string m)
            end
        | None => (Proceed, push_undo lcmd m)
        end
    end
  else (Proceed, m).

(** [switch (await ncmd.execute()) { ... }], past the [await]. *)
Definition apply_result (ncmd : Cmd) (r : CommandResult) (m : Machine)
  : Machine :=
  match r with
  | ADD =>
      let m := info ("Added " ++ description ncmd (world m)
                     ++ " to undo stack.")%string m in
      let m := push_undo ncmd m in
      let m := set_redoCommands [] m in
      set_can_coalesce true m
  | CLEAR =>
      let m := info ("Executed " ++ description ncmd (world m)
                     ++ " and cleared stack.")%string m in
      let m := set_undoCommands [] m in
      let m := set_redoCommands [] m in
      set_can_coalesce false m
  | NOOP => info (description ncmd (world m) ++ " was a no-op.")%string m
  end.

(** The end of [execute]: the timer is cleared and set again. *)
Definition rearm (m : Machine) : Machine :=
  let m := match timeoutId (this m) with
           | Some id => clearTimeout id m
           | None => m
           end in
  if coalescenceWindow (this m) >? 0 then setTimeout m
  else set_can_coalesce false m.

(** [execute(ctor, ...args)]: [ctor] stands for [new ctor(...args)]. *)
Definition execute (ctor : World -> Cmd * World) (m : Machine)
  : Completion * Machine :=
  if _busy (this m)
  then (Failed "Cannot execute command during another operation.", m)
  else
    let m := set_busy true m in
    let (ncmd, w) := ctor (world m) in
    let m := set_world w m in
    match coalescence_block ncmd m with
    | (Return, m) => (Done, m)
    | (Proceed, m) =>
        let p := cmd_execute ncmd (world m) in
        let m := await p (log_call (Call_execute ncmd) m) in
        match settled p with
        | Rejected e => (Failed e, m)
        | Resolved r =>
            let m := apply_result ncmd r m in
            let m := set_busy false m in
            (Done, rearm m)
        end
    end.

(** ** Histories of calls *)

Inductive Op : Type :=
  | OpExecute (ctor : World -> Cmd * World)
  | OpUndo (levels : Z)
  | OpRedo (levels : Z)
  | OpPop
  | OpClear
  | OpCoalescenceBarrier
  | OpTimerExpires (id : nat).

Definition run (op : Op) (m : Machine) : Completion * Machine :=
  match op with
  | OpExecute ctor => execute ctor m
  | OpUndo levels => undo levels m
  | OpRedo levels => redo levels m
  | OpPop => pop m
  | OpClear => clear m
  | OpCoalescenceBarrier => (Done, coalescenceBarrier m)
  | OpTimerExpires id => (Done, timer_expires id m)
  end.

(** The calls that check the busy flag. *)
Definition exclusive (op : Op) : bool :=
  match op with
  | OpExecute _ | OpUndo _ | OpRedo _ | OpPop | OpClear => true
  | OpCoalescenceBarrier | OpTimerExpires _ => false
  end.

(** The errors thrown on a busy engine. *)
Definition concurrency_violations : list string :=
  [ "Cannot undo during another operation.";
    "Cannot redo during another operation.";
    "Cannot alter command history state during an operation.";
    "Cannot execute command during another operation." ]%string.

Definition run_all (ops : list Op) (m : Machine) : Machine :=
  fold_left (fun m op => snd (run op m)) ops m.

Inductive reachable (o : Options) (w : World) : Machine -> Prop :=
  | reachable_boot : reachable o w (boot o w)
  | reachable_run : forall op m,
      reachable o w m -> reachable o w (snd (run op m)).

(** The first-time-apply that [execute ctor m] awaits, with the command it
    constructed, when it gets that far: [None] on a busy engine and when the
    coalescence block returns. *)
Definition first_apply (ctor : World -> Cmd * World) (m : Machine)
  : option (Cmd * Promise World CommandResult) :=
  if _busy (this m) then None
  else
    let (ncmd, w) := ctor (world m) in
    match coalescence_block ncmd (set_world w (set_busy true m)) with
    | (Proceed, m') => Some (ncmd, cmd_execute ncmd (world m'))
    | (Return, _) => None
    end.

(** [m'] differs from [m] at most by a lowered coalescence flag, a cleared
    [timeoutId] and expired timers: the trace of the event loop on a busy
    engine. *)
Definition disturbed (m m' : Machine) : Prop :=
  undoCommands (this m') = undoCommands (this m) /\
  redoCommands (this m') = redoCommands (this m) /\
  _busy (this m') = _busy (this m) /\
  cleanup (this m') = cleanup (this m) /\
  coalescenceWindow (this m') = coalescenceWindow (this m) /\
  verbose (this m') = verbose (this m) /\
  world m' = world m /\
  console m' = console m /\
  calls m' = calls m /\
  (can_coalesce (this m') = true -> can_coalesce (this m) = true).

(** What the engine's calls never change of a machine: [cleanup],
    [coalescenceWindow] and [verbose] are set by the constructor alone. *)
Definition same_options (m m' : Machine) : Prop :=
  cleanup (this m') = cleanup (this m) /\
  coalescenceWindow (this m') = coalescenceWindow (this m) /\
  verbose (this m') = verbose (this m).

(** What a loop of [undo] or [redo] keeps: the busy flag, the options, and
    a coalescence flag that is never raised. *)
Definition kept (m m' : Machine) : Prop :=
  _busy (this m') = _busy (this m) /\
  same_options m m' /\
  (can_coalesce (this m') = true -> can_coalesce (this m) = true).

(** A command whose reverse and reapply always resolve and undo each other
    on the world. *)
Definition exact_inverses (c : Cmd) : Prop :=
  forall w,
    settled (cmd_undo c w) = Resolved tt /\
    settled (cmd_redo c w) = Resolved tt /\
    world_after (cmd_redo c (world_after (cmd_undo c w))) = w /\
    world_after (cmd_undo c (world_after (cmd_redo c w))) = w.

(** A command that is not a no-op, whatever the world. *)
Definition never_noop (c : Cmd) : Prop :=
  forall w, isNoop c w = false.

(** ** [levels] as a number

    [undo] and [redo] above take an integral [levels].  The source takes
    any number; its loops only test [levels > 0] and decrement [levels].
    The same loops on a rational [levels]: *)

(** [levels > 0] *)
Definition is_positive (levels : Q) : bool := negb (Qle_bool levels 0).

Fixpoint undo_loop_number (top_first : list Cmd) (levels : Q) (m : Machine)
  : Completion * Machine :=
  match top_first with
  | [] => (Done, m)
  | command :: below =>
      if is_positive levels then
        let m := set_undoCommands (rev below) m in
        if isNoop command (world m) then undo_loop_number below levels m
        else
          let p := cmd_undo command (world m) in
          let m := await p (log_call (Call_undo command) m) in
          match settled p with
          | Rejected e => (Failed e, m)
          | Resolved _ =>
              let m := info ("Undid " ++ description command (world m)
                             ++ ".")%string m in
              let m := push_redo command m in
              undo_loop_number below (levels - 1)%Q m
          end
      else (Done, m)
  end.

Definition undo_number (levels : Q) (m : Machine) : Completion * Machine :=
  if _busy (this m) then (Failed "Cannot undo during another operation.", m)
  else
    let m := set_busy true m in
    match undo_loop_number (rev (undoCommands (this m))) levels m with
    | (Failed e, m) => (Failed e, m)
    | (Done, m) =>
        let m := set_can_coalesce false m in
        let m := run_cleanup m in
        (Done, set_busy false m)
    end.

Fixpoint redo_loop_number (top_first : list Cmd) (levels : Q) (m : Machine)
  : Completion * Machine :=
  match top_first with
  | [] => (Done, m)
  | command :: below =>
      if is_positive levels then
        let m := set_redoCommands (rev below) m in
        let p := cmd_redo command (world m) in
        let m := await p (log_call (Call_redo command) m) in
        match settled p with
        | Rejected e => (Failed e, m)
        | Resolved _ =>
            let m := info ("Redid " ++ description command (world m)
                           ++ ".")%string m in
            let m := push_undo command m in
            redo_loop_number below (levels - 1)%Q m
        end
      else (Done, m)
  end.

Definition redo_number (levels : Q) (m : Machine) : Completion * Machine :=
  if _busy (this m) then (Failed "Cannot redo during another operation.", m)
  else
    let m := set_busy true m in
    match redo_loop_number (rev (redoCommands (this m))) levels m with
    | (Failed e, m) => (Failed e, m)
    | (Done, m) =>
        let m := set_can_coalesce false m in
        let m := run_cleanup m in
        (Done, set_busy false m)
    end.

(** ** The trace of a call of [undo] or [redo] *)

(** What the loop of [undo] does with the commands it pops, in the order of
    the pops, starting in world [w] with [n] levels left: nothing is popped
    once no level is left; a popped command that is a no-op in the current
    world is not among the [moved] ones and takes no level; any other is the
    next of the [moved] ones, its reverse resolves, it takes one level, and
    the loop goes on in the world its reverse left. *)
Fixpoint popped_by_undo (w : World) (n : nat) (popped moved : list Cmd)
  : Prop :=
  match popped with
  | [] => moved = []
  | c :: popped' =>
      match n with
      | O => False
      | S n' =>
          if isNoop c w then popped_by_undo w n popped' moved
          else
            match moved with
            | [] => False
            | c' :: moved' =>
                c' = c /\
                settled (cmd_undo c w) = Resolved tt /\
                popped_by_undo (world_after (cmd_undo c w)) n' popped' moved'
            end
      end
  end.

(** The world after the reverse operations of [cs], one after the other. *)
Fixpoint reverse_all (w : World) (cs : list Cmd) : World :=
  match cs with
  | [] => w
  | c :: rest => reverse_all (world_after (cmd_undo c w)) rest
  end.

(** The world after the reapply operations of [cs], one after the other. *)
Fixpoint reapply_all (w : World) (cs : list Cmd) : World :=
  match cs with
  | [] => w
  | c :: rest => reapply_all (world_after (cmd_redo c w)) rest
  end.

(** ** Predicates of the further properties *)

(** [execute ctor m] applies the command it constructs without asking any
    incumbent: the first-time-apply is the only command operation of the
    call. *)
Definition applies_directly (ctor : World -> Cmd * World) (m : Machine)
  : Prop :=
  first_apply ctor m
  = Some (fst (ctor (world m)),
          cmd_execute (fst (ctor (world m))) (snd (ctor (world m)))) /\
  calls (snd (execute ctor m))
  = calls m ++ [Call_execute (fst (ctor (world m)))].

(** A property of the machine that each elementary step of the engine
    keeps: the assignments to the fields the calls write, a logged call, a
    printed line, a callback run while a promise is pending, and the
    re-arming of the timer at the end of [execute]. *)
Record stable (P : Machine -> Prop) : Prop := mkStable {
  stable_busy : forall b m, P m -> P (set_busy b m);
  stable_world : forall w m, P m -> P (set_world w m);
  stable_undoCommands : forall v m, P m -> P (set_undoCommands v m);
  stable_redoCommands : forall v m, P m -> P (set_redoCommands v m);
  stable_can_coalesce : forall b m, P m -> P (set_can_coalesce b m);
  stable_call : forall c m, P m -> P (log_call c m);
  stable_info : forall msg m, P m -> P (info msg m);
  stable_interleave : forall e m, P m -> P (interleave m e);
  stable_rearm : forall m, P m -> P (rearm m)
}.

(** The timeout that [this.timeoutId] names. *)
Definition scheduled (m : Machine) : list nat :=
  match timeoutId (this m) with
  | Some id => [id]
  | None => []
  end.

(** The host's pending timeouts are the one the engine remembers, and an
    engine with a window of zero or less remembers none. *)
Definition timer_tracked (m : Machine) : Prop :=
  timers m = scheduled m /\
  (coalescenceWindow (this m) <= 0 -> timeoutId (this m) = None).

(** With [verbose] off nothing is printed. *)
Definition quiet (printed : list string) (m : Machine) : Prop :=
  verbose (this m) = false /\ console m = printed.

(** The three options are those given to the constructor, for ever. *)
Definition configured (o : Options) (m : Machine) : Prop :=
  cleanup (this m) = default (opt_cleanup o) (fun w => w) /\
  coalescenceWindow (this m) = default (opt_coalescenceWindow o) 3000 /\
  verbose (this m) = default (opt_verbose o) true.

(** No [coalesce] has been invoked so far. *)
Definition never_merged (m : Machine) : Prop :=
  forall lcmd ncmd, ~ In (Call_coalesce lcmd ncmd) (calls m).

(** No [coalesce] so far, and none to come from the next [execute]: an idle
    engine whose flag is set has an empty undo stack. *)
Definition merging_disabled (m : Machine) : Prop :=
  never_merged m /\
  (_busy (this m) = false -> can_coalesce (this m) = true ->
   undoCommands (this m) = []).

(** The command that a call constructs: [new ctor(...args)] in [execute],
    past the busy check. *)
Definition constructed (op : Op) (m : Machine) : list Cmd :=
  match op with
  | OpExecute ctor =>
      if _busy (this m) then [] else [fst (ctor (world m))]
  | _ => []
  end.

(** The stacks [v'], [r'] hold, up to order, a part of [l]. *)
Definition drawn_from (l v' r' : list Cmd) : Prop :=
  exists dropped, Permutation (v' ++ r' ++ dropped) l.

End Engine.

(** Unfolds the field assignments. *)
Ltac fields :=
  unfold push_undo, push_redo, set_undoCommands, set_redoCommands,
    set_can_coalesce, set_timeoutId, set_busy, set_this, set_world,
    set_console, set_timers, log_call, h_set_undoCommands,
    h_set_redoCommands, h_set_can_coalesce, h_set_timeoutId, h_set_busy,
    coalescenceBarrier, timer_callback, clearTimeout, setTimeout, run_cleanup
    in *;
  simpl in *.

(** ** A concrete world: scripted commands over an integer document

    Used to run the engine on explicit inputs.  The document is an integer;
    a scripted command adds [delta] to it, and its script fixes what each of
    its operations answers. *)

Module Scripted.

Record Script : Type := mkScript {
  label : string;
  delta : Z;
  on_execute : Settlement CommandResult;
  on_undo : Settlement unit;
  on_redo : Settlement unit;
  on_coalesce : option CoalescenceResult;
  noop : bool;
  while_pending : list Interleaved
}.

Definition settle {A : Type} (during : list Interleaved) (s : Settlement A)
  (w w' : Z) : Promise Z A :=
  match s with
  | Resolved _ => mkPromise during s w'
  | Rejected _ => mkPromise during s w
  end.

#[export] Instance Script_ICommand : ICommand Z Script := {|
  cmd_execute := fun c w => settle (while_pending c) (on_execute c) w (w + delta c);
  cmd_redo := fun c w => settle [] (on_redo c) w (w + delta c);
  cmd_undo := fun c w => settle [] (on_undo c) w (w - delta c);
  coalesce := fun c =>
    match on_coalesce c with
    | Some r => Some (fun (_ : Script) (w : Z) => (r, w))
    | None => None
    end;
  isNoop := fun c _ => noop c;
  description := fun c _ => label c
|}.

(** An ordinary command: applies, reverses and reapplies, never merges. *)
Definition plain (name : string) (d : Z) : Script :=
  mkScript name d (Resolved ADD) (Resolved tt) (Resolved tt) None false [].

(** A command that reports itself a no-op although it was added. *)
Definition hollow (name : string) : Script :=
  mkScript name 0 (Resolved ADD) (Resolved tt) (Resolved tt) None true [].

(** A command that absorbs whatever follows it with the given answer. *)
Definition merging (name : string) (d : Z) (r : CoalescenceResult) : Script :=
  mkScript name d (Resolved ADD) (Resolved tt) (Resolved tt) (Some r) false [].

(** A command whose reverse operation rejects. *)
Definition stubborn (name : string) (d : Z) : Script :=
  mkScript name d (Resolved ADD) (Rejected "cannot reverse") (Resolved tt)
           None false [].

(** A command whose first application does nothing. *)
Definition idle (name : string) (during : list Interleaved) : Script :=
  mkScript name 0 (Resolved NOOP) (Resolved tt) (Resolved tt) None true during.

(** A command whose first application rejects. *)
Definition broken (name : string) : Script :=
  mkScript name 0 (Rejected "cannot apply") (Resolved tt) (Resolved tt)
           None false [].

(** A command that cannot be undone past: its first application answers
    [CLEAR]. *)
Definition wiping (name : string) : Script :=
  mkScript name 0 (Resolved CLEAR) (Resolved tt) (Resolved tt) None false [].

(** [new ctor(...args)] for a scripted command: construction leaves the
    document alone. *)
Definition make (c : Script) : Z -> Script * Z := fun w => (c, w).

Definition defaults : Options (World := Z) := mkOptions None None None.

Definition window (ms : Z) : Options (World := Z) :=
  mkOptions None (Some ms) None.

Definition fresh (o : Options) : Machine := boot (Cmd := Script) o 0.

(** The commands of the examples. *)
Definition ins_a : Script := plain "A" 1.
Definition ins_b : Script := plain "B" 2.
Definition ins_c : Script := plain "C" 3.
Definition blank : Script := hollow "N".
Definition typing : Script := merging "T" 1 COALESCED.
Definition retype : Script := merging "X" 1 UNDONE.
Definition locked : Script := stubborn "L" 1.
Definition nothing : Script := idle "I" [].
Definition nothing_late : Script := idle "J" [TimerFired 1].
Definition wipe : Script := wiping "W".

(** The states of the examples, each reached from a fresh engine. *)
Definition after_a : Machine :=
  run_all [OpExecute (make ins_a)] (fresh defaults).

Definition after_a_b : Machine :=
  run_all [OpExecute (make ins_a); OpExecute (make ins_b)] (fresh defaults).

Definition after_a_b_undo : Machine :=
  run_all [OpExecute (make ins_a); OpExecute (make ins_b); OpUndo 1]
          (fresh defaults).

Definition after_a_blank : Machine :=
  run_all [OpExecute (make ins_a); OpExecute (make blank)] (fresh defaults).

Definition after_typing : Machine :=
  run_all [OpExecute (make typing)] (fresh defaults).

Definition after_retype : Machine :=
  run_all [OpExecute (make retype)] (fresh defaults).

Definition after_locked_b : Machine :=
  run_all [OpExecute (make locked); OpExecute (make ins_b)] (fresh defaults).

Definition after_a_undo : Machine :=
  run_all [OpExecute (make ins_a); OpUndo 1] (fresh defaults).

(** An idle engine with a no-op on top of its redo stack. *)
Definition blank_undone : Machine :=
  set_redoCommands [ins_a; blank] (fresh defaults).

(** The engine after [typing] absorbed a second command. *)
Definition after_typing_b : Machine :=
  run_all [OpExecute (make typing); OpExecute (make ins_b)] (fresh defaults).

(** The engine after [undo(2)] was rejected by [locked]. *)
Definition after_rejected_undo : Machine :=
  run_all [OpExecute (make locked); OpExecute (make ins_b); OpUndo 2]
          (fresh defaults).

(** Further commands and states. *)

(** A command that declines to absorb what follows it. *)
Definition aloof : Script := merging "M" 1 IMMISCIBLE.
Definition faulty : Script := broken "F".

(** [new CommandHistory({ verbose: false })] *)
Definition silent : Options (World := Z) := mkOptions None None (Some false).

Definition after_a_b_undone : Machine :=
  run_all [OpExecute (make ins_a); OpExecute (make ins_b); OpUndo 2]
          (fresh defaults).

Definition after_aloof : Machine :=
  run_all [OpExecute (make aloof)] (fresh defaults).

(** [typing] followed by a second command, without a coalescence window. *)
Definition unwindowed_typing_b : Machine :=
  run_all [OpExecute (make typing); OpExecute (make ins_b)] (fresh (window 0)).

Definition silent_a_b_undo : Machine :=
  run_all [OpExecute (make ins_a); OpExecute (make ins_b); OpUndo 1]
          (fresh silent).

End Scripted.

(** * Properties *)

Section Properties.

Context {World Cmd : Type} `{ICommand World Cmd}.

Local Abbreviation Machine := (@Machine World Cmd).

(** ** Arrays *)

Lemma pop_array_push (A : Type) (a : list A) (x : A) :
  pop_array (push a x) = (Some x, a).
Proof.
  unfold pop_array, push. rewrite rev_app_distr. simpl.
  now rewrite rev_involutive.
Qed.

Lemma pop_array_some (A : Type) (a r : list A) (x : A) :
  pop_array a = (Some x, r) -> a = push r x.
Proof.
  unfold pop_array, push. destruct (rev a) as [|y t] eqn:E; intros Hp.
  - discriminate.
  - inversion Hp; subst. rewrite <- (rev_involutive a), E. reflexivity.
Qed.

(** ** What stays put *)

Lemma machine_eta (m : Machine) :
  mkMachine
    (mkCommandHistory (undoCommands (this m)) (redoCommands (this m))
       (can_coalesce (this m)) (timeoutId (this m)) (cleanup (this m))
       (coalescenceWindow (this m)) (verbose (this m)) (_busy (this m)))
    (world m) (console m) (timers m) (next_timer m) (calls m) = m.
Proof. destruct m as [[] ? ? ? ? ?]; reflexivity. Qed.

Lemma disturbed_refl (m : Machine) : disturbed m m.
Proof. unfold disturbed; intuition. Qed.

Lemma disturbed_trans (m1 m2 m3 : Machine) :
  disturbed m1 m2 -> disturbed m2 m3 -> disturbed m1 m3.
Proof. unfold disturbed; intuition congruence. Qed.

Lemma interleave_disturbed (m : Machine) (e : Interleaved) :
  disturbed m (interleave m e).
Proof.
  destruct e as [id|]; simpl.
  - unfold timer_expires. destruct (existsb _ _).
    + unfold disturbed; fields; intuition discriminate.
    + apply disturbed_refl.
  - unfold disturbed; fields; intuition discriminate.
Qed.

Lemma events_disturbed (es : list Interleaved) (m : Machine) :
  disturbed m (fold_left interleave es m).
Proof.
  revert m; induction es as [|e es IH]; intros m; simpl.
  - apply disturbed_refl.
  - eapply disturbed_trans; [apply interleave_disturbed | apply IH].
Qed.

(** The engine's own fields across an [await]. *)
Lemma await_fields (A : Type) (p : Promise World A) (m : Machine) :
  undoCommands (this (await p m)) = undoCommands (this m) /\
  redoCommands (this (await p m)) = redoCommands (this m) /\
  _busy (this (await p m)) = _busy (this m) /\
  cleanup (this (await p m)) = cleanup (this m) /\
  coalescenceWindow (this (await p m)) = coalescenceWindow (this m) /\
  verbose (this (await p m)) = verbose (this m) /\
  world (await p m) = world_after p /\
  console (await p m) = console m /\
  calls (await p m) = calls m /\
  (can_coalesce (this (await p m)) = true -> can_coalesce (this m) = true).
Proof.
  unfold await. pose proof (events_disturbed (meanwhile p) m) as D.
  unfold disturbed in D. fields. intuition.
Qed.

Lemma await_quiet (A : Type) (p : Promise World A) (m : Machine) :
  meanwhile p = [] -> await p m = set_world (world_after p) m.
Proof. unfold await; intros ->; reflexivity. Qed.

Lemma info_fields (msg : string) (m : Machine) :
  this (info msg m) = this m /\ world (info msg m) = world m /\
  calls (info msg m) = calls m /\ timers (info msg m) = timers m /\
  next_timer (info msg m) = next_timer m.
Proof. unfold info; destruct (verbose (this m)); fields; intuition. Qed.

Lemma info_this (msg : string) (m : Machine) : this (info msg m) = this m.
Proof. apply info_fields. Qed.

(** ** The loops *)

Lemma kept_refl (m : Machine) : kept m m.
Proof. unfold kept, same_options; intuition. Qed.

Lemma kept_trans (m1 m2 m3 : Machine) : kept m1 m2 -> kept m2 m3 -> kept m1 m3.
Proof. unfold kept, same_options; intuition congruence. Qed.

Lemma await_kept (A : Type) (p : Promise World A) (m : Machine) :
  kept m (await p m).
Proof.
  pose proof (await_fields p m) as F. unfold kept, same_options. intuition.
Qed.

Lemma info_kept (msg : string) (m : Machine) : kept m (info msg m).
Proof. unfold kept, same_options. rewrite info_this. intuition. Qed.

Lemma undo_iteration_kept (A : Type) (p : Promise World A) (c : Call)
  (v : list Cmd) (m : Machine) :
  kept m (await p (log_call c (set_undoCommands v m))).
Proof.
  eapply kept_trans; [|apply await_kept].
  unfold kept, same_options; fields; intuition.
Qed.

Lemma redo_iteration_kept (A : Type) (p : Promise World A) (c : Call)
  (v : list Cmd) (m : Machine) :
  kept m (await p (log_call c (set_redoCommands v m))).
Proof.
  eapply kept_trans; [|apply await_kept].
  unfold kept, same_options; fields; intuition.
Qed.

Lemma push_redo_kept (c : Cmd) (m : Machine) : kept m (push_redo c m).
Proof. unfold kept, same_options; fields; intuition. Qed.

Lemma push_undo_kept (c : Cmd) (m : Machine) : kept m (push_undo c m).
Proof. unfold kept, same_options; fields; intuition. Qed.

Lemma undo_loop_kept (top_first : list Cmd) :
  forall levels m, kept m (snd (undo_loop top_first levels m)).
Proof.
  induction top_first as [|command below IH]; intros levels m; simpl.
  - apply kept_refl.
  - destruct (levels >? 0); [|apply kept_refl].
    destruct (isNoop command (world m)).
    + eapply kept_trans; [|apply IH].
      unfold kept, same_options; fields; intuition.
    + destruct (settled (cmd_undo command (world m))); simpl.
      * eapply kept_trans; [apply undo_iteration_kept|].
        eapply kept_trans; [apply info_kept|].
        eapply kept_trans; [apply push_redo_kept|apply IH].
      * apply undo_iteration_kept.
Qed.

Lemma redo_loop_kept (top_first : list Cmd) :
  forall levels m, kept m (snd (redo_loop top_first levels m)).
Proof.
  induction top_first as [|command below IH]; intros levels m; simpl.
  - apply kept_refl.
  - destruct (levels >? 0); [|apply kept_refl].
    destruct (settled (cmd_redo command (world m))); simpl.
    + eapply kept_trans; [apply redo_iteration_kept|].
      eapply kept_trans; [apply info_kept|].
      eapply kept_trans; [apply push_undo_kept|apply IH].
    + apply redo_iteration_kept.
Qed.

(** A call of [undo] or [redo] that fails leaves the engine busy; one that
    completes leaves it idle and barriered. *)
Lemma undo_outcome (levels : Z) (m : Machine) :
  _busy (this m) = false ->
  match fst (undo levels m) with
  | Done => _busy (this (snd (undo levels m))) = false /\
            can_coalesce (this (snd (undo levels m))) = false
  | Failed _ => _busy (this (snd (undo levels m))) = true /\
                (can_coalesce (this (snd (undo levels m))) = true ->
                 can_coalesce (this m) = true)
  end.
Proof.
  intros Hb. unfold undo. rewrite Hb.
  pose proof (undo_loop_kept (rev (undoCommands (this (set_busy true m))))
                levels (set_busy true m)) as K.
  destruct (undo_loop _ levels (set_busy true m)) as [[|e] m'] eqn:E; simpl in *.
  - split; reflexivity.
  - destruct K as (Kb & _ & Kf). split; [exact Kb | exact Kf].
Qed.

Lemma redo_outcome (levels : Z) (m : Machine) :
  _busy (this m) = false ->
  match fst (redo levels m) with
  | Done => _busy (this (snd (redo levels m))) = false /\
            can_coalesce (this (snd (redo levels m))) = false
  | Failed _ => _busy (this (snd (redo levels m))) = true /\
                (can_coalesce (this (snd (redo levels m))) = true ->
                 can_coalesce (this m) = true)
  end.
Proof.
  intros Hb. unfold redo. rewrite Hb.
  pose proof (redo_loop_kept (rev (redoCommands (this (set_busy true m))))
                levels (set_busy true m)) as K.
  destruct (redo_loop _ levels (set_busy true m)) as [[|e] m'] eqn:E; simpl in *.
  - split; reflexivity.
  - destruct K as (Kb & _ & Kf). split; [exact Kb | exact Kf].
Qed.

(** ** The pieces of [execute] *)

Lemma coalescence_block_fields (ncmd : Cmd) (m : Machine) :
  let r := coalescence_block ncmd m in
  _busy (this (snd r)) = _busy (this m) /\
  redoCommands (this (snd r)) = redoCommands (this m) /\
  can_coalesce (this (snd r)) = can_coalesce (this m) /\
  timeoutId (this (snd r)) = timeoutId (this m) /\
  same_options m (snd r) /\
  timers (snd r) = timers m /\
  (fst r = Proceed -> undoCommands (this (snd r)) = undoCommands (this m)).
Proof.
  unfold coalescence_block, same_options.
  destruct (can_coalesce (this m)) eqn:Hc; [|simpl; intuition].
  destruct (pop_array (undoCommands (this m))) as [[lcmd|] rest] eqn:Hp;
    [|simpl; intuition].
  apply pop_array_some in Hp. unfold push in Hp.
  destruct (coalesce lcmd) as [merge|].
  - destruct (merge ncmd (world (set_undoCommands rest m))) as [[| |] w];
      cbn [fst snd]; rewrite ?info_this;
      (destruct (info_fields
                   ("Coalesced " ++ description ncmd
                      (world (push_undo lcmd
                                (set_world w
                                   (log_call (Call_coalesce lcmd ncmd)
                                      (set_undoCommands rest m))))) ++ ".")
                   (push_undo lcmd
                      (set_world w
                         (log_call (Call_coalesce lcmd ncmd)
                            (set_undoCommands rest m)))))
         as (_ & _ & _ & It & _));
      (destruct (info_fields
                   ("Dropped " ++ description ncmd
                      (world (set_world w
                                (log_call (Call_coalesce lcmd ncmd)
                                   (set_undoCommands rest m))))
                    ++ " due to manual undo.")
                   (set_world w
                      (log_call (Call_coalesce lcmd ncmd)
                         (set_undoCommands rest m))))
         as (_ & _ & _ & It' & _));
      rewrite ?It, ?It'; fields; unfold push; intuition; discriminate.
  - cbn [fst snd]; fields; unfold push; intuition.
Qed.

Lemma rearm_fields (m : Machine) :
  undoCommands (this (rearm m)) = undoCommands (this m) /\
  redoCommands (this (rearm m)) = redoCommands (this m) /\
  _busy (this (rearm m)) = _busy (this m) /\
  same_options m (rearm m) /\
  world (rearm m) = world m /\
  calls (rearm m) = calls m /\
  can_coalesce (this (rearm m))
  = (coalescenceWindow (this m) >? 0) && can_coalesce (this m).
Proof.
  unfold rearm, same_options.
  destruct (timeoutId (this m)) as [id|];
    fields; destruct (coalescenceWindow (this m) >? 0); fields; intuition.
Qed.

Lemma apply_result_fields (ncmd : Cmd) (r : CommandResult) (m : Machine) :
  _busy (this (apply_result ncmd r m)) = _busy (this m) /\
  same_options m (apply_result ncmd r m) /\
  world (apply_result ncmd r m) = world m /\
  calls (apply_result ncmd r m) = calls m /\
  match r with
  | ADD =>
      undoCommands (this (apply_result ncmd r m))
      = undoCommands (this m) ++ [ncmd] /\
      redoCommands (this (apply_result ncmd r m)) = [] /\
      can_coalesce (this (apply_result ncmd r m)) = true
  | CLEAR =>
      undoCommands (this (apply_result ncmd r m)) = [] /\
      redoCommands (this (apply_result ncmd r m)) = [] /\
      can_coalesce (this (apply_result ncmd r m)) = false
  | NOOP =>
      undoCommands (this (apply_result ncmd r m)) = undoCommands (this m) /\
      redoCommands (this (apply_result ncmd r m)) = redoCommands (this m) /\
      can_coalesce (this (apply_result ncmd r m)) = can_coalesce (this m)
  end.
Proof.
  unfold same_options.
  destruct r; unfold apply_result;
    match goal with
    | |- context [info ?msg ?x] =>
        destruct (info_fields msg x) as (It & Iw & Ic & _)
    end;
    fields; rewrite ?It, ?Iw, ?Ic; unfold push; intuition.
Qed.

(** [execute] on an idle engine, once the coalescence block lets it go on. *)
Lemma execute_applied (ctor : World -> Cmd * World) (m : Machine)
  (ncmd : Cmd) (p : Promise World CommandResult) :
  first_apply ctor m = Some (ncmd, p) ->
  exists m2,
    _busy (this m) = false /\
    fst (ctor (world m)) = ncmd /\
    coalescence_block ncmd
      (set_world (snd (ctor (world m))) (set_busy true m)) = (Proceed, m2) /\
    p = cmd_execute ncmd (world m2) /\
    execute ctor m =
      match settled p with
      | Rejected e => (Failed e, await p (log_call (Call_execute ncmd) m2))
      | Resolved r =>
          (Done,
           rearm (set_busy false
                    (apply_result ncmd r
                       (await p (log_call (Call_execute ncmd) m2)))))
      end.
Proof.
  unfold first_apply. intros Hs.
  destruct (_busy (this m)) eqn:Hb; [discriminate|].
  destruct (ctor (world m)) as [c w] eqn:Hctor.
  destruct (coalescence_block c (set_world w (set_busy true m)))
    as [[|] m2] eqn:Hblock; [|discriminate].
  inversion Hs; subst; clear Hs.
  exists m2. simpl.
  split; [reflexivity|]. split; [reflexivity|]. split; [exact Hblock|].
  split; [reflexivity|].
  unfold execute. rewrite Hb. cbv zeta.
  change (world (set_busy true m)) with (world m).
  rewrite Hctor, Hblock.
  destruct (settled (cmd_execute ncmd (world m2))); reflexivity.
Qed.

(** The machine at the moment the first-time-apply has settled. *)
Lemma execute_settled (ctor : World -> Cmd * World) (m : Machine)
  (ncmd : Cmd) (p : Promise World CommandResult) :
  first_apply ctor m = Some (ncmd, p) ->
  exists mr,
    execute ctor m =
      match settled p with
      | Rejected e => (Failed e, mr)
      | Resolved r => (Done, rearm (set_busy false (apply_result ncmd r mr)))
      end /\
    undoCommands (this mr) = undoCommands (this m) /\
    redoCommands (this mr) = redoCommands (this m) /\
    _busy (this mr) = true /\
    same_options m mr /\
    (can_coalesce (this mr) = true -> can_coalesce (this m) = true) /\
    (meanwhile p = [] -> can_coalesce (this mr) = can_coalesce (this m)).
Proof.
  intros Hs.
  destruct (execute_applied ctor m Hs) as (m2 & Hb & Hc & Hblock & Hp & He).
  exists (await p (log_call (Call_execute ncmd) m2)).
  split; [exact He|].
  pose proof (coalescence_block_fields ncmd
                (set_world (snd (ctor (world m))) (set_busy true m))) as B.
  rewrite Hblock in B. cbn [fst snd] in B.
  destruct B as (Bb & Br & Bc & _ & Bo & _ & Bu).
  specialize (Bu eq_refl).
  pose proof (await_fields p (log_call (Call_execute ncmd) m2)) as A.
  destruct A as (Au & Ar & Ab & Acl & Aw & Av & _ & _ & _ & Af).
  assert (Hquiet : meanwhile p = [] ->
            can_coalesce (this (await p (log_call (Call_execute ncmd) m2)))
            = can_coalesce (this m)).
  { intros Hq. rewrite (await_quiet p _ Hq). fields. exact Bc. }
  unfold same_options in *. fields.
  repeat split; try congruence; try (intuition congruence).
Qed.

(** [execute] on an idle engine when the coalescence block returns: the
    call completes, and the engine is left busy. *)
Lemma execute_returned (ctor : World -> Cmd * World) (m : Machine) :
  _busy (this m) = false ->
  first_apply ctor m = None ->
  fst (execute ctor m) = Done /\
  _busy (this (snd (execute ctor m))) = true /\
  redoCommands (this (snd (execute ctor m))) = redoCommands (this m) /\
  can_coalesce (this (snd (execute ctor m))) = can_coalesce (this m).
Proof.
  intros Hb. unfold first_apply, execute. rewrite Hb. cbv zeta.
  change (world (set_busy true m)) with (world m).
  destruct (ctor (world m)) as [ncmd w].
  pose proof (coalescence_block_fields ncmd (set_world w (set_busy true m)))
    as B.
  destruct (coalescence_block ncmd (set_world w (set_busy true m)))
    as [[|] m2]; [discriminate|].
  intros _. cbn [fst snd] in *.
  destruct B as (Bb & Br & Bc & _). fields. intuition.
Qed.

(** ** Calls on a busy engine *)

Lemma busy_run_unchanged (op : Op) (m : Machine) :
  exclusive op = true ->
  _busy (this m) = true ->
  exists error,
    In error concurrency_violations /\ run op m = (Failed error, m).
Proof.
  intros Hx Hb.
  destruct op; try discriminate Hx; simpl;
    unfold execute, undo, redo, pop, clear; rewrite Hb;
    eexists; (split; [|reflexivity]);
    unfold concurrency_violations; simpl; tauto.
Qed.

(** C3.  A call of [execute], [undo], [redo], [pop] or [clear] on a busy
    engine fails with one of the concurrency errors and changes nothing: the
    machine after the call is the machine before it (no command operation is
    invoked, nothing is awaited), so both stacks, both counts and the
    coalescence flag are what they were. *)
Theorem busy_call_fails_unchanged (op : Op) (m : Machine) :
  exclusive op = true ->
  _busy (this m) = true ->
  exists error,
    In error concurrency_violations /\
    run op m = (Failed error, m) /\
    undoCommands (this (snd (run op m))) = undoCommands (this m) /\
    redoCommands (this (snd (run op m))) = redoCommands (this m) /\
    undoCount (snd (run op m)) = undoCount m /\
    redoCount (snd (run op m)) = redoCount m /\
    can_coalesce (this (snd (run op m))) = can_coalesce (this m).
Proof.
  intros Hx Hb.
  destruct (busy_run_unchanged op m Hx Hb) as (error & Hin & Hrun).
  exists error. rewrite Hrun. repeat split; assumption.
Qed.

(** ** [pop] *)

Lemma pop_fields (m : Machine) :
  _busy (this m) = false ->
  fst (pop m) = Done /\
  redoCommands (this (snd (pop m))) = redoCommands (this m) /\
  can_coalesce (this (snd (pop m))) = can_coalesce (this m) /\
  _busy (this (snd (pop m))) = _busy (this m).
Proof.
  intros Hb. unfold pop. rewrite Hb. simpl.
  repeat split; first [reflexivity | exact Hb].
Qed.

(** C10.  On an idle engine [pop()] completes and leaves the redo stack, the
    coalescence flag and the busy flag alone; when the undo stack is empty
    it does not throw and the whole machine is unchanged. *)
Theorem pop_frame (m : Machine) :
  _busy (this m) = false ->
  fst (pop m) = Done /\
  redoCommands (this (snd (pop m))) = redoCommands (this m) /\
  can_coalesce (this (snd (pop m))) = can_coalesce (this m) /\
  _busy (this (snd (pop m))) = _busy (this m) /\
  (undoCommands (this m) = [] -> pop m = (Done, m)).
Proof.
  intros Hb. destruct (pop_fields m Hb) as (Hd & Hr & Hf & Hbusy).
  do 4 (split; [assumption|]).
  unfold pop. rewrite Hb.
  intros Hu. rewrite Hu. simpl. f_equal.
  rewrite <- (machine_eta m) at 2. rewrite Hu. reflexivity.
Qed.

(** ** [execute] *)

(** C7.  [execute] with coalescence eligible, an incumbent [lcmd] on top of
    the undo stack and [lcmd.coalesce(ncmd)] answering [UNDONE]: the call
    completes at once (the only command operation invoked is that
    [coalesce], so [ncmd.execute()] is not, and the timer is not touched),
    the incumbent is not pushed back, and the rest of the undo stack and the
    redo stack are as before.  Neither command is on a stack afterwards:
    the incumbent when the stacked commands are distinct objects, the new
    command when it was on no stack before. *)
Theorem execute_UNDONE_drops_both
  (ctor : World -> Cmd * World) (m : Machine) (rest : list Cmd)
  (lcmd ncmd : Cmd) (w1 w2 : World)
  (merge : Cmd -> World -> CoalescenceResult * World) :
  _busy (this m) = false ->
  can_coalesce (this m) = true ->
  undoCommands (this m) = rest ++ [lcmd] ->
  ctor (world m) = (ncmd, w1) ->
  coalesce lcmd = Some merge ->
  merge ncmd w1 = (UNDONE, w2) ->
  fst (execute ctor m) = Done /\
  undoCommands (this (snd (execute ctor m))) = rest /\
  redoCommands (this (snd (execute ctor m))) = redoCommands (this m) /\
  calls (snd (execute ctor m)) = calls m ++ [Call_coalesce lcmd ncmd] /\
  world (snd (execute ctor m)) = w2 /\
  timers (snd (execute ctor m)) = timers m /\
  timeoutId (this (snd (execute ctor m))) = timeoutId (this m) /\
  (NoDup (undoCommands (this m) ++ redoCommands (this m)) ->
   ~ In lcmd (undoCommands (this (snd (execute ctor m)))
              ++ redoCommands (this (snd (execute ctor m))))) /\
  (~ In ncmd (undoCommands (this m) ++ redoCommands (this m)) ->
   ~ In ncmd (undoCommands (this (snd (execute ctor m)))
              ++ redoCommands (this (snd (execute ctor m))))).
Proof.
  intros Hb Hc Hu Hctor Hco Hm.
  assert (He : execute ctor m =
               (Done,
                info ("Dropped " ++ description ncmd w2
                      ++ " due to manual undo.")
                  (set_world w2
                     (log_call (Call_coalesce lcmd ncmd)
                        (set_undoCommands rest
                           (set_world w1 (set_busy true m))))))).
  { unfold execute. rewrite Hb. cbv zeta.
    change (world (set_busy true m)) with (world m). rewrite Hctor.
    unfold coalescence_block.
    change (can_coalesce (this (set_world w1 (set_busy true m))))
      with (can_coalesce (this m)).
    change (undoCommands (this (set_world w1 (set_busy true m))))
      with (undoCommands (this m)).
    rewrite Hc, Hu. fold (push rest lcmd). rewrite pop_array_push.
    rewrite Hco.
    change (world (set_undoCommands rest (set_world w1 (set_busy true m))))
      with w1.
    rewrite Hm. reflexivity. }
  rewrite He. cbn [fst snd].
  match goal with
  | |- context [info ?msg ?x] =>
      destruct (info_fields msg x) as (It & Iw & Ic & Iti & _)
  end.
  rewrite It, Iw, Ic, Iti. fields.
  do 7 (split; [reflexivity|]).
  rewrite Hu. split.
  - intros Hnd. rewrite <- app_assoc in Hnd. simpl in Hnd.
    apply NoDup_remove_2 in Hnd. exact Hnd.
  - intros Hnew Hin. apply Hnew. apply in_app_or in Hin.
    apply in_or_app. destruct Hin as [Hin|Hin]; [left|right; exact Hin].
    apply in_or_app. left. exact Hin.
Qed.

(** C6.  When [execute] gets to apply the new command: on [ADD] the command
    is pushed on the undo stack and the redo stack is emptied, whatever the
    engine's state (so also after any undos); on [NOOP] both stacks are what
    they were, the redo stack included. *)
Theorem execute_ADD_wipes_redo_NOOP_keeps_it
  (ctor : World -> Cmd * World) (m : Machine)
  (ncmd : Cmd) (p : Promise World CommandResult) :
  first_apply ctor m = Some (ncmd, p) ->
  (settled p = Resolved ADD ->
   fst (execute ctor m) = Done /\
   undoCommands (this (snd (execute ctor m))) = undoCommands (this m) ++ [ncmd] /\
   redoCommands (this (snd (execute ctor m))) = []) /\
  (settled p = Resolved NOOP ->
   fst (execute ctor m) = Done /\
   undoCommands (this (snd (execute ctor m))) = undoCommands (this m) /\
   redoCommands (this (snd (execute ctor m))) = redoCommands (this m)).
Proof.
  intros Hs.
  destruct (execute_settled ctor m Hs) as (mr & He & Hu & Hr & _).
  split; intros Hp; rewrite Hp in He; rewrite He; cbn [fst snd];
    match goal with
    | |- context [rearm ?x] =>
        destruct (rearm_fields x) as (Ru & Rr & _)
    end;
    match goal with
    | |- context [apply_result ?c ?r ?x] =>
        destruct (apply_result_fields c r x) as (_ & _ & _ & _ & Au & Ar & _)
    end;
    rewrite Ru, Rr; fields; repeat split; congruence.
Qed.

(** What [execute] leaves of the busy flag, the redo stack and the
    coalescence flag, by the way it ends. *)
Lemma execute_outcome (ctor : World -> Cmd * World) (m : Machine) :
  _busy (this m) = false ->
  let m' := snd (execute ctor m) in
  match first_apply ctor m with
  | None =>
      fst (execute ctor m) = Done /\
      _busy (this m') = true /\
      redoCommands (this m') = redoCommands (this m) /\
      can_coalesce (this m') = can_coalesce (this m)
  | Some (ncmd, p) =>
      match settled p with
      | Rejected e =>
          fst (execute ctor m) = Failed e /\
          _busy (this m') = true /\
          (can_coalesce (this m') = true -> can_coalesce (this m) = true)
      | Resolved ADD =>
          fst (execute ctor m) = Done /\ _busy (this m') = false /\
          redoCommands (this m') = [] /\
          can_coalesce (this m') = (coalescenceWindow (this m) >? 0)
      | Resolved CLEAR =>
          _busy (this m') = false /\ redoCommands (this m') = [] /\
          can_coalesce (this m') = false
      | Resolved NOOP =>
          fst (execute ctor m) = Done /\
          undoCommands (this m') = undoCommands (this m) /\
          _busy (this m') = false /\
          redoCommands (this m') = redoCommands (this m) /\
          (can_coalesce (this m') = true ->
           can_coalesce (this m) = true /\ 0 < coalescenceWindow (this m)) /\
          (meanwhile p = [] ->
           can_coalesce (this m')
           = (coalescenceWindow (this m) >? 0) && can_coalesce (this m))
      end
  end.
Proof.
  intros Hb m'. subst m'.
  destruct (first_apply ctor m) as [[ncmd p]|] eqn:Hs.
  - destruct (execute_settled ctor m Hs)
      as (mr & He & Hu & Hr & Hbr & (_ & Hw & _) & Hmono & Hquiet).
    rewrite He. destruct (settled p) as [r|e]; cbn [fst snd].
    + match goal with
      | |- context [rearm ?x] =>
          destruct (rearm_fields x) as (Ru & Rr & Rb & _ & _ & _ & Rf)
      end.
      destruct (apply_result_fields ncmd r mr)
        as (_ & (_ & Aw & _) & _ & _ & Ares).
      fields. rewrite Ru, Rr, Rb, Rf, Aw, Hw.
      destruct r; destruct Ares as (Au & Ar & Af); rewrite Af.
      * rewrite andb_true_r.
        split; [reflexivity|]. split; [reflexivity|]. split; congruence.
      * split; [reflexivity|]. split; [congruence|].
        split; [reflexivity|]. split; [congruence|]. split.
        -- intros Ht. apply andb_true_iff in Ht. destruct Ht as (Ht1 & Ht2).
           split; [apply Hmono, Ht2 | apply Z.gtb_lt, Ht1].
        -- intros Hq. rewrite (Hquiet Hq). reflexivity.
      * rewrite andb_false_r.
        split; [reflexivity|]. split; congruence.
    + split; [reflexivity|]. split; [exact Hbr | exact Hmono].
  - destruct (execute_returned ctor m Hb Hs) as (Rd & Rb & Rr & Rf).
    repeat split; assumption.
Qed.

(** C8, amended.  When the first-time-apply of an [execute] resolves to
    [NOOP], the call completes and neither stack is modified; with a
    coalescence window above zero the flag ends as it was when the promise
    settled, so as it was before the call when neither the timer nor a
    barrier ran in between, and never raised; with a window of zero or less
    the flag is false afterwards. *)
Theorem execute_NOOP_frame
  (ctor : World -> Cmd * World) (m : Machine)
  (ncmd : Cmd) (p : Promise World CommandResult) :
  first_apply ctor m = Some (ncmd, p) ->
  settled p = Resolved NOOP ->
  fst (execute ctor m) = Done /\
  undoCommands (this (snd (execute ctor m))) = undoCommands (this m) /\
  redoCommands (this (snd (execute ctor m))) = redoCommands (this m) /\
  (0 < coalescenceWindow (this m) -> meanwhile p = [] ->
   can_coalesce (this (snd (execute ctor m))) = can_coalesce (this m)) /\
  (0 < coalescenceWindow (this m) ->
   can_coalesce (this (snd (execute ctor m))) = true ->
   can_coalesce (this m) = true) /\
  (coalescenceWindow (this m) <= 0 ->
   can_coalesce (this (snd (execute ctor m))) = false).
Proof.
  intros Hs Hp.
  assert (Hb : _busy (this m) = false).
  { unfold first_apply in Hs. destruct (_busy (this m)); congruence. }
  pose proof (execute_outcome ctor m Hb) as O. cbv zeta in O.
  rewrite Hs, Hp in O. destruct O as (Hd & Hu & _ & Hr & Hraise & Hquiet).
  repeat split; try assumption.
  - intros Hw Hq. rewrite (Hquiet Hq).
    apply Z.gtb_lt in Hw. rewrite Hw. reflexivity.
  - intros _ Ht. apply Hraise, Ht.
  - intros Hw. destruct (can_coalesce (this (snd (execute ctor m)))) eqn:E;
      [|reflexivity].
    destruct (Hraise eq_refl) as (_ & Hpos). lia.
Qed.

(** ** The coalescence flag *)

Lemma timer_expires_fields (id : nat) (m : Machine) :
  _busy (this (timer_expires id m)) = _busy (this m) /\
  redoCommands (this (timer_expires id m)) = redoCommands (this m) /\
  (can_coalesce (this (timer_expires id m)) = true ->
   can_coalesce (this m) = true).
Proof.
  pose proof (interleave_disturbed m (TimerFired id)) as D.
  unfold disturbed in D. simpl in D. intuition.
Qed.

(** C2, amended.  A freshly constructed engine starts with the coalescence
    flag true (eligible), whatever its options; and the only call that turns
    the flag from false to true is an [execute] that completes after its
    command's first-time-apply resolved to [ADD]. *)
Theorem flag_starts_true_raised_only_by_ADD :
  (forall (o : Options) (w : World),
      can_coalesce (this (boot (Cmd := Cmd) o w)) = true) /\
  (forall (op : Op) (m : Machine),
      can_coalesce (this m) = false ->
      can_coalesce (this (snd (run op m))) = true ->
      exists ctor ncmd p,
        op = OpExecute ctor /\
        first_apply ctor m = Some (ncmd, p) /\
        settled p = Resolved ADD /\
        fst (run op m) = Done).
Proof.
  split; [reflexivity|].
  intros op m Hf Ht.
  destruct (_busy (this m)) eqn:Hb.
  - exfalso.
    destruct op; simpl in Ht;
      unfold execute, undo, redo, pop, clear in Ht; rewrite ?Hb in Ht;
      simpl in Ht; try congruence.
    apply timer_expires_fields in Ht. congruence.
  - destruct op as [ctor|levels|levels| | | |id]; simpl in *.
    + pose proof (execute_outcome ctor m Hb) as O. cbv zeta in O.
      destruct (first_apply ctor m) as [[ncmd p]|] eqn:Hs.
      * destruct (settled p) as [[| |]|e] eqn:Hp.
        -- exists ctor, ncmd, p. intuition.
        -- exfalso. destruct O as (_ & _ & _ & _ & Hraise & _).
           destruct (Hraise Ht). congruence.
        -- exfalso. destruct O as (_ & _ & Hfalse). congruence.
        -- exfalso. destruct O as (_ & _ & Hmono). specialize (Hmono Ht).
           congruence.
      * exfalso. destruct O as (_ & _ & _ & Hsame). congruence.
    + exfalso. pose proof (undo_outcome levels m Hb) as O.
      destruct (fst (undo levels m)); destruct O as (_ & O);
        [|specialize (O Ht)]; congruence.
    + exfalso. pose proof (redo_outcome levels m Hb) as O.
      destruct (fst (redo levels m)); destruct O as (_ & O);
        [|specialize (O Ht)]; congruence.
    + exfalso. destruct (pop_fields m Hb) as (_ & _ & Hsame & _). congruence.
    + exfalso. unfold clear in Ht. rewrite Hb in Ht. simpl in Ht. congruence.
    + discriminate.
    + exfalso. apply timer_expires_fields in Ht. congruence.
Qed.

(** On an idle engine the property needs no assumption on the calls: in
    every state reached from a fresh engine, whatever the commands do, if
    the engine is not busy and the coalescence flag is true then the redo
    stack is empty (a call that a command rejects leaves the engine busy). *)
Lemma eligible_idle_engine_has_no_redo
  (o : Options) (w : World) (m : Machine) :
  reachable o w m ->
  _busy (this m) = false ->
  can_coalesce (this m) = true ->
  redoCommands (this m) = [].
Proof.
  induction 1 as [|op m Hreach IH]; [reflexivity|].
  destruct (_busy (this m)) eqn:Hb.
  - destruct op; simpl;
      unfold execute, undo, redo, pop, clear; rewrite ?Hb; simpl;
      try congruence.
    destruct (timer_expires_fields id m) as (Hbusy & _). congruence.
  - specialize (IH eq_refl).
    destruct op as [ctor|levels|levels| | | |id]; simpl.
    + pose proof (execute_outcome ctor m Hb) as O. cbv zeta in O.
      destruct (first_apply ctor m) as [[ncmd p]|].
      * destruct (settled p) as [[| |]|e].
        -- intuition.
        -- destruct O as (_ & _ & _ & Hr & Hraise & _). intros _ Ht.
           rewrite Hr. apply IH, Hraise, Ht.
        -- intuition.
        -- destruct O as (_ & Hbusy & _). congruence.
      * destruct O as (_ & Hbusy & _). congruence.
    + pose proof (undo_outcome levels m Hb) as O.
      destruct (fst (undo levels m)); destruct O as (O1 & O2); congruence.
    + pose proof (redo_outcome levels m Hb) as O.
      destruct (fst (redo levels m)); destruct O as (O1 & O2); congruence.
    + destruct (pop_fields m Hb) as (_ & Hr & Hf & _).
      intros _ Ht. rewrite Hr. apply IH. congruence.
    + unfold clear. rewrite Hb. reflexivity.
    + discriminate.
    + destruct (timer_expires_fields id m) as (_ & Hr & Hf).
      intros _ Ht. rewrite Hr. apply IH, Hf, Ht.
Qed.

(** One call keeps the property of an idle engine: if the redo stack of [m]
    is empty whenever [m] is idle with the coalescence flag true, the same
    holds after any call. *)
Lemma idle_eligible_no_redo_step (op : Op) (m : Machine) :
  (_busy (this m) = false -> can_coalesce (this m) = true ->
   redoCommands (this m) = []) ->
  _busy (this (snd (run op m))) = false ->
  can_coalesce (this (snd (run op m))) = true ->
  redoCommands (this (snd (run op m))) = [].
Proof.
  intros IH.
  destruct (_busy (this m)) eqn:Hb.
  - destruct (exclusive op) eqn:Hx.
    + destruct (busy_run_unchanged op m Hx Hb) as (e & _ & He).
      rewrite He. cbn [snd]. congruence.
    + destruct op as [ctor|levels|levels| | | |id]; try discriminate Hx;
        cbn [run snd].
      * cbn. congruence.
      * destruct (timer_expires_fields id m) as (Hbusy & _). congruence.
  - specialize (IH eq_refl).
    destruct op as [ctor|levels|levels| | | |id]; cbn [run snd].
    + pose proof (execute_outcome ctor m Hb) as O. cbv zeta in O.
      destruct (first_apply ctor m) as [[ncmd p]|].
      * destruct (settled p) as [[| |]|e].
        -- intuition.
        -- destruct O as (_ & _ & _ & Hr & Hraise & _). intros _ Ht.
           rewrite Hr. apply IH, Hraise, Ht.
        -- intuition.
        -- destruct O as (_ & Hbusy & _). congruence.
      * destruct O as (_ & Hbusy & _). congruence.
    + pose proof (undo_outcome levels m Hb) as O.
      destruct (fst (undo levels m)); destruct O as (O1 & O2); congruence.
    + pose proof (redo_outcome levels m Hb) as O.
      destruct (fst (redo levels m)); destruct O as (O1 & O2); congruence.
    + destruct (pop_fields m Hb) as (_ & Hr & Hf & _).
      intros _ Ht. rewrite Hr. apply IH. congruence.
    + unfold clear. rewrite Hb. reflexivity.
    + discriminate.
    + destruct (timer_expires_fields id m) as (_ & Hr & Hf).
      intros _ Ht. rewrite Hr. apply IH, Hf, Ht.
Qed.

(** C9, amended.  Whenever the engine is not busy, if the coalescence flag
    is true then the redo stack is empty.  This holds of a new engine, each
    call of [execute], [undo], [redo], [pop], [clear] and
    [coalescenceBarrier] and each expiration of the timer keeps it, from any
    state and whatever the commands do, and so it holds in every state
    reached from a new engine.  (While a call is in progress, and after a
    call that a command made fail, the engine is busy.) *)
Theorem eligible_engine_has_no_redo :
  (forall (o : Options) (w : World),
      redoCommands (this (boot (Cmd := Cmd) o w)) = []) /\
  (forall (op : Op) (m : Machine),
      (_busy (this m) = false -> can_coalesce (this m) = true ->
       redoCommands (this m) = []) ->
      _busy (this (snd (run op m))) = false ->
      can_coalesce (this (snd (run op m))) = true ->
      redoCommands (this (snd (run op m))) = []) /\
  (forall (o : Options) (w : World) (m : Machine),
      reachable o w m ->
      _busy (this m) = false ->
      can_coalesce (this m) = true ->
      redoCommands (this m) = []).
Proof.
  split; [reflexivity|]. split; [exact idle_eligible_no_redo_step|].
  intros o w m Hr. induction Hr as [|op m Hr IH]; [reflexivity|].
  apply idle_eligible_no_redo_step, IH.
Qed.

(** ** [undo] and [redo] *)

Lemma to_nat_pred (levels : Z) :
  (levels >? 0) = true -> Z.to_nat levels = S (Z.to_nat (levels - 1)).
Proof. intros Hl. apply Z.gtb_lt in Hl. lia. Qed.

Lemma to_nat_nonpos (levels : Z) :
  (levels >? 0) = false -> Z.to_nat levels = 0%nat.
Proof.
  intros Hl. destruct (Z.gtb_spec levels 0); [discriminate|lia].
Qed.

Lemma in_firstn (A : Type) (n : nat) (l : list A) (x : A) :
  In x (firstn n l) -> In x l.
Proof.
  intros Hx. rewrite <- (firstn_skipn n l). apply in_or_app. now left.
Qed.

(** The loop of [undo] when none of the commands it reaches is a no-op and
    every reverse resolves: the top [levels] commands move to the redo
    stack, in the order they are popped. *)
Lemma undo_loop_moves (top_first : list Cmd) :
  forall (levels : Z) (m : Machine),
    (forall c, In c (firstn (Z.to_nat levels) top_first) ->
               exact_inverses c /\ never_noop c) ->
    undoCommands (this m) = rev top_first ->
    fst (undo_loop top_first levels m) = Done /\
    undoCommands (this (snd (undo_loop top_first levels m)))
    = rev (skipn (Z.to_nat levels) top_first) /\
    redoCommands (this (snd (undo_loop top_first levels m)))
    = redoCommands (this m) ++ firstn (Z.to_nat levels) top_first.
Proof.
  induction top_first as [|command below IH]; intros levels m Hok Hu; simpl.
  - rewrite skipn_nil, firstn_nil, app_nil_r. auto.
  - destruct (levels >? 0) eqn:Hl.
    + rewrite (to_nat_pred _ Hl) in *. simpl in Hok |- *.
      destruct (Hok command (or_introl eq_refl)) as (Hinv & Hnn).
      rewrite (Hnn (world m)).
      destruct (Hinv (world m)) as (Hres & _). rewrite Hres.
      match goal with
      | |- context [undo_loop below (levels - 1) ?x] =>
          specialize (IH (levels - 1) x)
      end.
      destruct IH as (Id & Iu & Ir).
      * intros c Hc. apply Hok. right. exact Hc.
      * unfold push_redo, set_redoCommands. simpl. rewrite info_this.
        apply (await_fields (cmd_undo command (world m))).
      * rewrite Id, Iu, Ir. split; [reflexivity|]. split; [reflexivity|].
        unfold push_redo, set_redoCommands, push. simpl. rewrite info_this.
        destruct (await_fields (cmd_undo command (world m))
                    (log_call (Call_undo command)
                       (set_undoCommands (rev below) m)))
          as (_ & Ar & _).
        rewrite Ar. simpl. rewrite <- app_assoc. reflexivity.
    + rewrite (to_nat_nonpos _ Hl). simpl. rewrite app_nil_r. auto.
Qed.

(** The loop of [redo] when every reapply it reaches resolves. *)
Lemma redo_loop_moves (top_first : list Cmd) :
  forall (levels : Z) (m : Machine),
    (forall c, In c (firstn (Z.to_nat levels) top_first) ->
               exact_inverses c) ->
    redoCommands (this m) = rev top_first ->
    fst (redo_loop top_first levels m) = Done /\
    redoCommands (this (snd (redo_loop top_first levels m)))
    = rev (skipn (Z.to_nat levels) top_first) /\
    undoCommands (this (snd (redo_loop top_first levels m)))
    = undoCommands (this m) ++ firstn (Z.to_nat levels) top_first.
Proof.
  induction top_first as [|command below IH]; intros levels m Hok Hu; simpl.
  - rewrite skipn_nil, firstn_nil, app_nil_r. auto.
  - destruct (levels >? 0) eqn:Hl.
    + rewrite (to_nat_pred _ Hl) in *. simpl in Hok |- *.
      pose proof (Hok command (or_introl eq_refl)) as Hinv.
      destruct (Hinv (world m)) as (_ & Hres & _). rewrite Hres.
      match goal with
      | |- context [redo_loop below (levels - 1) ?x] =>
          specialize (IH (levels - 1) x)
      end.
      destruct IH as (Id & Iu & Ir).
      * intros c Hc. apply Hok. right. exact Hc.
      * unfold push_undo, set_undoCommands. simpl. rewrite info_this.
        apply (await_fields (cmd_redo command (world m))).
      * rewrite Id, Iu, Ir. split; [reflexivity|]. split; [reflexivity|].
        unfold push_undo, set_undoCommands, push. simpl. rewrite info_this.
        destruct (await_fields (cmd_redo command (world m))
                    (log_call (Call_redo command)
                       (set_redoCommands (rev below) m)))
          as (Au & _).
        rewrite Au. simpl. rewrite <- app_assoc. reflexivity.
    + rewrite (to_nat_nonpos _ Hl). simpl. rewrite app_nil_r. auto.
Qed.

(** [undo] and [redo] around their loops. *)
Lemma undo_stacks (levels : Z) (m : Machine) :
  _busy (this m) = false ->
  let r := undo_loop (rev (undoCommands (this m))) levels (set_busy true m) in
  fst (undo levels m) = fst r /\
  undoCommands (this (snd (undo levels m))) = undoCommands (this (snd r)) /\
  redoCommands (this (snd (undo levels m))) = redoCommands (this (snd r)).
Proof.
  intros Hb. unfold undo. rewrite Hb. cbv zeta.
  change (undoCommands (this (set_busy true m))) with (undoCommands (this m)).
  destruct (undo_loop _ levels (set_busy true m)) as [[|e] m']; simpl; auto.
Qed.

Lemma redo_stacks (levels : Z) (m : Machine) :
  _busy (this m) = false ->
  let r := redo_loop (rev (redoCommands (this m))) levels (set_busy true m) in
  fst (redo levels m) = fst r /\
  undoCommands (this (snd (redo levels m))) = undoCommands (this (snd r)) /\
  redoCommands (this (snd (redo levels m))) = redoCommands (this (snd r)).
Proof.
  intros Hb. unfold redo. rewrite Hb. cbv zeta.
  change (redoCommands (this (set_busy true m))) with (redoCommands (this m)).
  destruct (redo_loop _ levels (set_busy true m)) as [[|e] m']; simpl; auto.
Qed.

(** C4, amended.  On an idle engine whose stacked commands have reverse and
    reapply operations that are exact inverses, and none of which is a
    no-op, [undo(levels)] followed at once by [redo(levels)] restores both
    stacks, provided the undo stack holds at least [levels] commands or the
    redo stack is empty. *)
Theorem undo_then_redo_restores_stacks (levels : Z) (m : Machine) :
  _busy (this m) = false ->
  (forall c, In c (undoCommands (this m)) ->
             exact_inverses c /\ never_noop c) ->
  (levels <= Z.of_nat (length (undoCommands (this m)))
   \/ redoCommands (this m) = []) ->
  fst (undo levels m) = Done /\
  fst (redo levels (snd (undo levels m))) = Done /\
  undoCommands (this (snd (redo levels (snd (undo levels m)))))
  = undoCommands (this m) /\
  redoCommands (this (snd (redo levels (snd (undo levels m)))))
  = redoCommands (this m).
Proof.
  intros Hb Hok Hroom.
  set (T := rev (undoCommands (this m))).
  set (R := redoCommands (this m)).
  set (n := Z.to_nat levels).
  assert (HT : forall c, In c (firstn n T) -> exact_inverses c /\ never_noop c).
  { intros c Hc. apply Hok. apply in_rev. fold T. eapply in_firstn, Hc. }
  (* the undo *)
  destruct (undo_stacks levels m Hb) as (Ud & Uu & Ur). cbv zeta in *.
  fold T in Ud, Uu, Ur.
  destruct (undo_loop_moves T levels (set_busy true m)) as (Ld & Lu & Lr).
  { exact HT. }
  { simpl. unfold T. now rewrite rev_involutive. }
  change (redoCommands (this (set_busy true m))) with R in Lr. fold n in Lu, Lr.
  rewrite Ld in Ud. rewrite Lu in Uu. rewrite Lr in Ur.
  pose proof (undo_outcome levels m Hb) as O. rewrite Ud in O.
  destruct O as (Hb1 & _).
  set (m1 := snd (undo levels m)) in *.
  (* the redo pops what the undo pushed *)
  set (top_redo := rev (firstn n T) ++ rev R).
  assert (HS : rev (redoCommands (this m1)) = top_redo).
  { rewrite Ur. apply rev_app_distr. }
  assert (Hcut : firstn n top_redo = rev (firstn n T) /\ skipn n top_redo = rev R).
  { unfold top_redo. destruct Hroom as [Hroom|Hroom].
    - assert (Hlen : length (rev (firstn n T)) = n).
      { rewrite length_rev, length_firstn. unfold T. rewrite length_rev.
        unfold n. lia. }
      rewrite firstn_app, skipn_app, Hlen, Nat.sub_diag. simpl.
      rewrite firstn_all2, skipn_all2 by lia.
      now rewrite app_nil_r.
    - fold R in Hroom. rewrite Hroom. simpl. rewrite app_nil_r.
      assert (Hlen : (length (rev (firstn n T)) <= n)%nat).
      { rewrite length_rev, length_firstn. lia. }
      now rewrite firstn_all2, skipn_all2 by exact Hlen. }
  destruct Hcut as (Hfirst & Hskip).
  destruct (redo_stacks levels m1 Hb1) as (Rd & Ru & Rr). cbv zeta in *.
  rewrite HS in Rd, Ru, Rr.
  destruct (redo_loop_moves top_redo levels (set_busy true m1)) as (Md & Mr & Mu).
  { fold n. rewrite Hfirst. intros c Hc. apply in_rev in Hc.
    apply HT, Hc. }
  { simpl. rewrite <- HS. now rewrite rev_involutive. }
  fold n in Mr, Mu. rewrite Hskip in Mr. rewrite Hfirst in Mu.
  change (undoCommands (this (set_busy true m1)))
    with (undoCommands (this m1)) in Mu.
  rewrite Uu in Mu.
  split; [exact Ud|]. split; [congruence|]. split.
  - rewrite Ru, Mu, <- rev_app_distr, firstn_skipn. unfold T.
    apply rev_involutive.
  - rewrite Rr, Mr. apply rev_involutive.
Qed.

Lemma undo_unfold (levels : Z) (m : Machine) :
  _busy (this m) = false ->
  undo levels m
  = after_loop (undo_loop (rev (undoCommands (this m))) levels
                  (set_busy true m)).
Proof.
  intros Hb. unfold undo, after_loop. rewrite Hb. cbv zeta.
  change (undoCommands (this (set_busy true m))) with (undoCommands (this m)).
  destruct (undo_loop _ levels (set_busy true m)) as [[|e] m']; reflexivity.
Qed.

Lemma redo_unfold (levels : Z) (m : Machine) :
  _busy (this m) = false ->
  redo levels m
  = after_loop (redo_loop (rev (redoCommands (this m))) levels
                  (set_busy true m)).
Proof.
  intros Hb. unfold redo, after_loop. rewrite Hb. cbv zeta.
  change (redoCommands (this (set_busy true m))) with (redoCommands (this m)).
  destruct (redo_loop _ levels (set_busy true m)) as [[|e] m']; reflexivity.
Qed.

(** ** Further properties of the engine *)

(** An [execute] whose command resolves to [CLEAR] completes with both
    stacks empty, so both counts zero, whatever their depth before, and with
    the coalescence flag lowered. *)
Theorem execute_CLEAR_empties_stacks
  (ctor : World -> Cmd * World) (m : Machine)
  (ncmd : Cmd) (p : Promise World CommandResult) :
  first_apply ctor m = Some (ncmd, p) ->
  settled p = Resolved CLEAR ->
  fst (execute ctor m) = Done /\
  undoCommands (this (snd (execute ctor m))) = [] /\
  redoCommands (this (snd (execute ctor m))) = [] /\
  undoCount (snd (execute ctor m)) = 0%nat /\
  redoCount (snd (execute ctor m)) = 0%nat /\
  can_coalesce (this (snd (execute ctor m))) = false /\
  _busy (this (snd (execute ctor m))) = false.
Proof.
  intros Hs Hp.
  destruct (execute_settled ctor m Hs) as (mr & He & _).
  rewrite Hp in He. rewrite He. cbn [fst snd].
  match goal with
  | |- context [rearm ?x] =>
      destruct (rearm_fields x) as (Ru & Rr & Rb & _ & _ & _ & Rf)
  end.
  destruct (apply_result_fields ncmd CLEAR mr)
    as (_ & _ & _ & _ & Au & Ar & Af).
  unfold undoCount, redoCount. rewrite Ru, Rr, Rb, Rf.
  change (undoCommands (this (set_busy false (apply_result ncmd CLEAR mr))))
    with (undoCommands (this (apply_result ncmd CLEAR mr))).
  change (redoCommands (this (set_busy false (apply_result ncmd CLEAR mr))))
    with (redoCommands (this (apply_result ncmd CLEAR mr))).
  change (can_coalesce (this (set_busy false (apply_result ncmd CLEAR mr))))
    with (can_coalesce (this (apply_result ncmd CLEAR mr))).
  rewrite Au, Ar, Af, andb_false_r. repeat split; reflexivity.
Qed.

(** [execute] with coalescence eligible and an incumbent answering
    [COALESCED]: the incumbent is pushed back, so both stacks are what they
    were, and the call completes with [coalesce] the only command operation
    invoked: the new command is never applied. *)
Theorem execute_COALESCED_keeps_incumbent
  (ctor : World -> Cmd * World) (m : Machine) (rest : list Cmd)
  (lcmd ncmd : Cmd) (w1 w2 : World)
  (merge : Cmd -> World -> CoalescenceResult * World) :
  _busy (this m) = false ->
  can_coalesce (this m) = true ->
  undoCommands (this m) = rest ++ [lcmd] ->
  ctor (world m) = (ncmd, w1) ->
  coalesce lcmd = Some merge ->
  merge ncmd w1 = (COALESCED, w2) ->
  fst (execute ctor m) = Done /\
  undoCommands (this (snd (execute ctor m))) = undoCommands (this m) /\
  redoCommands (this (snd (execute ctor m))) = redoCommands (this m) /\
  calls (snd (execute ctor m)) = calls m ++ [Call_coalesce lcmd ncmd] /\
  world (snd (execute ctor m)) = w2.
Proof.
  intros Hb Hc Hu Hctor Hco Hm.
  assert (He : execute ctor m =
               (Done,
                info ("Coalesced " ++ description ncmd w2 ++ ".")
                  (push_undo lcmd
                     (set_world w2
                        (log_call (Call_coalesce lcmd ncmd)
                           (set_undoCommands rest
                              (set_world w1 (set_busy true m)))))))).
  { unfold execute. rewrite Hb. cbv zeta.
    change (world (set_busy true m)) with (world m). rewrite Hctor.
    unfold coalescence_block.
    change (can_coalesce (this (set_world w1 (set_busy true m))))
      with (can_coalesce (this m)).
    change (undoCommands (this (set_world w1 (set_busy true m))))
      with (undoCommands (this m)).
    rewrite Hc, Hu. fold (push rest lcmd). rewrite pop_array_push.
    rewrite Hco.
    change (world (set_undoCommands rest (set_world w1 (set_busy true m))))
      with w1.
    rewrite Hm. reflexivity. }
  rewrite He. cbn [fst snd].
  match goal with
  | |- context [info ?msg ?x] =>
      destruct (info_fields msg x) as (It & Iw & Ic & _)
  end.
  rewrite It, Iw, Ic, Hu. fields. repeat split; reflexivity.
Qed.


Lemma reachable_run_all (o : Options) (w : World) (ops : list Op) :
  forall m, reachable o w m -> reachable o w (run_all ops m).
Proof.
  induction ops as [|op ops IH]; intros m Hm; simpl; [exact Hm|].
  apply IH. apply reachable_run. exact Hm.
Qed.

(** ** The getters *)

Lemma first_description_skips (w : World) (noops rest : list Cmd) :
  (forall a, In a noops -> isNoop a w = true) ->
  first_description w (noops ++ rest) = first_description w rest.
Proof.
  induction noops as [|a noops IH]; intros Hn; simpl; [reflexivity|].
  rewrite (Hn a (or_introl eq_refl)). simpl.
  apply IH. intros b Hb. apply Hn. now right.
Qed.

Lemma no_counted_all_noops (w : World) (l : list Cmd) :
  length (filter (fun c => negb (isNoop c w)) l) = 0%nat ->
  forall a, In a l -> isNoop a w = true.
Proof.
  induction l as [|c l IH]; intros Hz a Ha; [destruct Ha|].
  simpl in Hz. destruct (isNoop c w) eqn:Hc; simpl in Hz; [|discriminate].
  destruct Ha as [<-|Ha]; [exact Hc | apply IH; assumption].
Qed.

(** The four getters agree with the stacks.  [undoCount] counts the
    commands of the undo stack that are not no-ops and [redoCount] all the
    commands of the redo stack.  [undoDescription] is the description of the
    topmost command that is not a no-op, and ["None"] exactly when
    [undoCount] is zero; [redoDescription] is the description of the top of
    the redo stack, no-op or not, and ["None"] when [redoCount] is zero. *)
Theorem getters_agree (m : Machine) :
  (undoCount m <= length (undoCommands (this m)))%nat /\
  (undoCount m = 0%nat -> undoDescription m = "None"%string) /\
  (forall below c above,
      undoCommands (this m) = below ++ c :: above ->
      isNoop c (world m) = false ->
      (forall a, In a above -> isNoop a (world m) = true) ->
      undoDescription m = description c (world m) /\
      (0 < undoCount m)%nat) /\
  (redoCount m = 0%nat -> redoDescription m = "None"%string) /\
  (forall below c,
      redoCommands (this m) = below ++ [c] ->
      redoDescription m = description c (world m) /\
      redoCount m = S (length below)).
Proof.
  unfold undoCount, undoDescription, redoCount, redoDescription.
  split; [apply filter_length_le|].
  split.
  - intros Hz.
    rewrite <- (app_nil_r (rev (undoCommands (this m)))).
    rewrite first_description_skips; [reflexivity|].
    intros a Ha. apply in_rev in Ha.
    exact (no_counted_all_noops _ _ Hz a Ha).
  - split; [|split].
    + intros below c above Hu Hc Habove. rewrite Hu. split.
      * rewrite rev_app_distr. simpl. rewrite <- app_assoc.
        rewrite first_description_skips.
        -- simpl. rewrite Hc. reflexivity.
        -- intros a Ha. apply in_rev in Ha. apply Habove, Ha.
      * rewrite filter_app, length_app. simpl. rewrite Hc. simpl. lia.
    + intros Hz. destruct (redoCommands (this m)); [reflexivity|discriminate].
    + intros below c Hr. rewrite Hr, rev_app_distr, length_app. simpl.
      split; [reflexivity|lia].
Qed.

(** ** The stacks across one iteration *)

Lemma popped_from_undo (A : Type) (p : Promise World A) (call : Call)
  (v : list Cmd) (m : Machine) :
  undoCommands (this (await p (log_call call (set_undoCommands v m)))) = v /\
  redoCommands (this (await p (log_call call (set_undoCommands v m))))
  = redoCommands (this m).
Proof.
  destruct (await_fields p (log_call call (set_undoCommands v m)))
    as (Au & Ar & _).
  rewrite Au, Ar. split; reflexivity.
Qed.

Lemma popped_from_redo (A : Type) (p : Promise World A) (call : Call)
  (v : list Cmd) (m : Machine) :
  undoCommands (this (await p (log_call call (set_redoCommands v m))))
  = undoCommands (this m) /\
  redoCommands (this (await p (log_call call (set_redoCommands v m)))) = v.
Proof.
  destruct (await_fields p (log_call call (set_redoCommands v m)))
    as (Au & Ar & _).
  rewrite Au, Ar. split; reflexivity.
Qed.

Lemma moved_to_redo (A : Type) (c : Cmd) (msg : string)
  (p : Promise World A) (call : Call) (v : list Cmd) (m : Machine) :
  undoCommands
    (this (push_redo c
             (info msg (await p (log_call call (set_undoCommands v m))))))
  = v /\
  redoCommands
    (this (push_redo c
             (info msg (await p (log_call call (set_undoCommands v m))))))
  = redoCommands (this m) ++ [c].
Proof.
  destruct (popped_from_undo p call v m) as (Pu & Pr).
  unfold push_redo, set_redoCommands, push. cbn [this set_this
    h_set_redoCommands undoCommands redoCommands].
  rewrite info_this, Pu, Pr. split; reflexivity.
Qed.

Lemma moved_to_undo (A : Type) (c : Cmd) (msg : string)
  (p : Promise World A) (call : Call) (v : list Cmd) (m : Machine) :
  undoCommands
    (this (push_undo c
             (info msg (await p (log_call call (set_redoCommands v m))))))
  = undoCommands (this m) ++ [c] /\
  redoCommands
    (this (push_undo c
             (info msg (await p (log_call call (set_redoCommands v m))))))
  = v.
Proof.
  destruct (popped_from_redo p call v m) as (Pu & Pr).
  unfold push_undo, set_undoCommands, push. cbn [this set_this
    h_set_undoCommands undoCommands redoCommands].
  rewrite info_this, Pu, Pr. split; reflexivity.
Qed.

(** ** What a call of [redo] does to the stacks *)

(** The loop of [redo], by its completion: when it completes, the top
    [levels] commands of the redo stack have moved to the undo stack; when a
    reapply rejects, the stacks hold one command less. *)
Lemma redo_loop_stacks (top_first : list Cmd) :
  forall (levels : Z) (m : Machine),
    redoCommands (this m) = rev top_first ->
    match fst (redo_loop top_first levels m) with
    | Done =>
        redoCommands (this (snd (redo_loop top_first levels m)))
        = rev (skipn (Z.to_nat levels) top_first) /\
        undoCommands (this (snd (redo_loop top_first levels m)))
        = undoCommands (this m) ++ firstn (Z.to_nat levels) top_first
    | Failed _ =>
        S (length (undoCommands (this (snd (redo_loop top_first levels m))))
           + length (redoCommands
                       (this (snd (redo_loop top_first levels m)))))
        = (length (undoCommands (this m)) + length top_first)%nat
    end.
Proof.
  induction top_first as [|command below IH]; intros levels m Hr;
    cbn [redo_loop].
  - cbn [fst snd]. rewrite skipn_nil, firstn_nil, app_nil_r. auto.
  - destruct (levels >? 0) eqn:Hl.
    + rewrite (to_nat_pred _ Hl).
      change (world (set_redoCommands (rev below) m)) with (world m).
      destruct (settled (cmd_redo command (world m))) as [[]|e].
      * match goal with
        | |- context [redo_loop below (levels - 1) ?x] =>
            specialize (IH (levels - 1) x);
            destruct (moved_to_undo command
                        ("Redid "
                         ++ description command
                              (world (await (cmd_redo command (world m))
                                        (log_call (Call_redo command)
                                           (set_redoCommands (rev below) m))))
                         ++ ".")%string
                        (cmd_redo command (world m))
                        (Call_redo command) (rev below) m) as (Mu & Mr)
        end.
        specialize (IH Mr). rewrite Mu in IH.
        match goal with
        | |- match fst ?r with _ => _ end => destruct (fst r)
        end.
        -- destruct IH as (Ir & Iu). rewrite Ir, Iu. simpl.
           rewrite <- app_assoc. auto.
        -- rewrite IH, length_app. simpl. lia.
      * cbn [fst snd].
        destruct (popped_from_redo (cmd_redo command (world m))
                    (Call_redo command) (rev below) m) as (Pu & Pr).
        rewrite Pu, Pr, length_rev. simpl. lia.
    + cbn [fst snd]. rewrite (to_nat_nonpos _ Hl). simpl.
      rewrite app_nil_r. auto.
Qed.

Lemma firstn_skipn_length (A : Type) (n : nat) (l : list A) :
  (length (firstn n l) + length (skipn n l) = length l)%nat.
Proof. rewrite <- length_app, firstn_skipn. reflexivity. Qed.

(** [redo(levels)] with an integral [levels] that completes moves the top
    [levels] commands of the redo stack (all of them when there are fewer,
    none when [levels] is negative) onto the undo stack, the top one first,
    and nothing else changes place. *)
Theorem redo_moves_top_commands (levels : Z) (m : Machine) :
  _busy (this m) = false ->
  fst (redo levels m) = Done ->
  redoCommands (this (snd (redo levels m)))
  = firstn (length (redoCommands (this m)) - Z.to_nat levels)
      (redoCommands (this m)) /\
  undoCommands (this (snd (redo levels m)))
  = undoCommands (this m)
    ++ rev (skipn (length (redoCommands (this m)) - Z.to_nat levels)
              (redoCommands (this m))) /\
  redoCount (snd (redo levels m))
  = (length (redoCommands (this m)) - Z.to_nat levels)%nat /\
  can_coalesce (this (snd (redo levels m))) = false /\
  _busy (this (snd (redo levels m))) = false.
Proof.
  intros Hb Hd.
  destruct (redo_stacks levels m Hb) as (Rd & Ru & Rr). cbv zeta in *.
  pose proof (redo_loop_stacks (rev (redoCommands (this m))) levels
                (set_busy true m)) as L.
  rewrite <- Rd, Hd in L.
  destruct L as (Lr & Lu).
  { simpl. now rewrite rev_involutive. }
  pose proof (redo_outcome levels m Hb) as O. rewrite Hd in O.
  destruct O as (Ob & Of).
  unfold redoCount. rewrite Rr, Ru, Lr, Lu.
  rewrite skipn_rev, firstn_rev, rev_involutive.
  change (undoCommands (this (set_busy true m)))
    with (undoCommands (this m)).
  split; [reflexivity|]. split; [reflexivity|].
  split; [|split; assumption].
  rewrite length_firstn. lia.
Qed.

(** ** What a call of [undo] does to the stacks *)

Lemma undo_loop_stacks (top_first : list Cmd) :
  forall (levels : Z) (m : Machine),
    undoCommands (this m) = rev top_first ->
    match fst (undo_loop top_first levels m) with
    | Done =>
        exists (k : nat) (moved : list Cmd),
          (k <= length top_first)%nat /\
          undoCommands (this (snd (undo_loop top_first levels m)))
          = rev (skipn k top_first) /\
          redoCommands (this (snd (undo_loop top_first levels m)))
          = redoCommands (this m) ++ moved /\
          incl moved (firstn k top_first) /\
          (length moved <= k)%nat /\
          (undoCommands (this (snd (undo_loop top_first levels m))) = []
           \/ length moved = Z.to_nat levels)
    | Failed _ =>
        (length (undoCommands (this (snd (undo_loop top_first levels m))))
         + length (redoCommands (this (snd (undo_loop top_first levels m))))
         < length top_first + length (redoCommands (this m)))%nat
    end.
Proof.
  induction top_first as [|command below IH]; intros levels m Hu;
    cbn [undo_loop].
  - cbn [fst snd]. exists 0%nat, []. simpl. rewrite app_nil_r.
    repeat split; auto. apply incl_refl.
  - destruct (levels >? 0) eqn:Hl.
    + change (world (set_undoCommands (rev below) m)) with (world m).
      destruct (isNoop command (world m)).
      * specialize (IH levels (set_undoCommands (rev below) m) eq_refl).
        change (redoCommands (this (set_undoCommands (rev below) m)))
          with (redoCommands (this m)) in IH.
        destruct (fst (undo_loop below levels
                         (set_undoCommands (rev below) m))).
        -- destruct IH as (k & moved & Hk & Iu & Ir & Hin & Hlen & Hend).
           exists (S k), moved.
           rewrite Iu, Ir. cbn [skipn firstn length].
           split; [lia|]. split; [reflexivity|]. split; [reflexivity|].
           split; [apply incl_tl; exact Hin|]. split; [lia|].
           rewrite Iu in Hend. exact Hend.
        -- cbn [length]. lia.
      * destruct (settled (cmd_undo command (world m))) as [[]|e].
        -- match goal with
           | |- context [undo_loop below (levels - 1) ?x] =>
               specialize (IH (levels - 1) x);
               destruct (moved_to_redo command
                           ("Undid "
                            ++ description command
                                 (world (await (cmd_undo command (world m))
                                           (log_call (Call_undo command)
                                              (set_undoCommands (rev below)
                                                 m))))
                            ++ ".")%string
                           (cmd_undo command (world m))
                           (Call_undo command) (rev below) m) as (Mu & Mr)
           end.
           specialize (IH Mu). rewrite Mr in IH.
           match goal with
           | |- match fst ?r with _ => _ end => destruct (fst r)
           end.
           ++ destruct IH as (k & moved & Hk & Iu & Ir & Hin & Hlen & Hend).
              exists (S k), (command :: moved).
              rewrite Iu, Ir, <- app_assoc. cbn [skipn firstn length app].
              split; [lia|]. split; [reflexivity|]. split; [reflexivity|].
              split; [|split; [lia|]].
              ** intros x [<-|Hx]; [now left | right; apply Hin, Hx].
              ** rewrite Iu in Hend.
                 destruct Hend as [He|He]; [left; exact He|right].
                 rewrite (to_nat_pred _ Hl). lia.
           ++ rewrite length_app in IH. simpl in *. lia.
        -- cbn [fst snd].
           destruct (popped_from_undo (cmd_undo command (world m))
                       (Call_undo command) (rev below) m) as (Pu & Pr).
           rewrite Pu, Pr, length_rev. simpl. lia.
    + cbn [fst snd]. exists 0%nat, []. simpl. rewrite app_nil_r.
      rewrite (to_nat_nonpos _ Hl).
      repeat split; auto; try lia. apply incl_nil_l.
Qed.

(** [undo(levels)] with an integral [levels] that completes pops commands
    off the end of the undo stack, leaving a prefix of it, and pushes on the
    redo stack some of the commands it popped, the old redo entries staying
    below; the call stops because the undo stack is empty or because it has
    moved [levels] commands (none when [levels] is negative), never
    earlier. *)
Theorem undo_stops_when_done_or_empty (levels : Z) (m : Machine) :
  _busy (this m) = false ->
  fst (undo levels m) = Done ->
  exists (k : nat) (moved : list Cmd),
    (k <= length (undoCommands (this m)))%nat /\
    undoCommands (this (snd (undo levels m)))
    = firstn (length (undoCommands (this m)) - k) (undoCommands (this m)) /\
    redoCommands (this (snd (undo levels m)))
    = redoCommands (this m) ++ moved /\
    incl moved (skipn (length (undoCommands (this m)) - k)
                  (undoCommands (this m))) /\
    (length moved <= k)%nat /\
    (undoCommands (this (snd (undo levels m))) = []
     \/ length moved = Z.to_nat levels).
Proof.
  intros Hb Hd.
  destruct (undo_stacks levels m Hb) as (Ud & Uu & Ur). cbv zeta in *.
  pose proof (undo_loop_stacks (rev (undoCommands (this m))) levels
                (set_busy true m)) as L.
  rewrite <- Ud, Hd in L.
  destruct L as (k & moved & Hk & Lu & Lr & Hin & Hlen & Hend).
  { simpl. now rewrite rev_involutive. }
  rewrite length_rev in Hk.
  exists k, moved. rewrite Uu, Ur, Lu, Lr.
  rewrite skipn_rev, rev_involutive.
  rewrite firstn_rev in Hin.
  change (redoCommands (this (set_busy true m)))
    with (redoCommands (this m)).
  repeat split; auto.
  - intros x Hx. apply in_rev. apply Hin, Hx.
  - rewrite Lu, skipn_rev, rev_involutive in Hend. exact Hend.
Qed.

(** The number of stacked commands across [undo] and [redo]: a completed
    [redo] keeps it, a completed [undo] never raises it (it drops the no-ops
    it meets), and a call that a command rejects loses at least that
    command, which is on neither stack afterwards, and leaves the engine
    busy. *)
Theorem stack_sizes_across_undo_and_redo (levels : Z) (m : Machine) :
  _busy (this m) = false ->
  (fst (redo levels m) = Done ->
   (length (undoCommands (this (snd (redo levels m))))
    + length (redoCommands (this (snd (redo levels m))))
    = length (undoCommands (this m)) + length (redoCommands (this m)))%nat) /\
  (forall e, fst (redo levels m) = Failed e ->
   S (length (undoCommands (this (snd (redo levels m))))
      + length (redoCommands (this (snd (redo levels m)))))
   = (length (undoCommands (this m)) + length (redoCommands (this m)))%nat /\
   _busy (this (snd (redo levels m))) = true) /\
  (fst (undo levels m) = Done ->
   (length (undoCommands (this (snd (undo levels m))))
    + length (redoCommands (this (snd (undo levels m))))
    <= length (undoCommands (this m)) + length (redoCommands (this m)))%nat) /\
  (forall e, fst (undo levels m) = Failed e ->
   (length (undoCommands (this (snd (undo levels m))))
    + length (redoCommands (this (snd (undo levels m))))
    < length (undoCommands (this m)) + length (redoCommands (this m)))%nat /\
   _busy (this (snd (undo levels m))) = true).
Proof.
  intros Hb.
  destruct (redo_stacks levels m Hb) as (Rd & Ru & Rr).
  destruct (undo_stacks levels m Hb) as (Ud & Uu & Ur). cbv zeta in *.
  pose proof (redo_loop_stacks (rev (redoCommands (this m))) levels
                (set_busy true m)) as LR.
  pose proof (undo_loop_stacks (rev (undoCommands (this m))) levels
                (set_busy true m)) as LU.
  pose proof (redo_outcome levels m Hb) as OR.
  pose proof (undo_outcome levels m Hb) as OU.
  rewrite <- Rd in LR. rewrite <- Ud in LU.
  rewrite Ru, Rr, Uu, Ur.
  change (undoCommands (this (set_busy true m)))
    with (undoCommands (this m)) in *.
  change (redoCommands (this (set_busy true m)))
    with (redoCommands (this m)) in *.
  rewrite length_rev in LR, LU.
  split; [|split; [|split]].
  - intros Hd. rewrite Hd in LR.
    destruct LR as (Lr & Lu); [now rewrite rev_involutive|].
    rewrite Lr, Lu, length_app, length_rev.
    pose proof (firstn_skipn_length (Z.to_nat levels)
                  (rev (redoCommands (this m)))) as Hs.
    rewrite length_rev in Hs. lia.
  - intros e Hf. rewrite Hf in LR, OR.
    split; [|apply OR].
    rewrite LR; [reflexivity | now rewrite rev_involutive].
  - intros Hd. rewrite Hd in LU.
    destruct LU as (k & moved & Hk & Lu & Lr & Hin & Hlen & Hend);
      [now rewrite rev_involutive|].
    rewrite Lu, Lr, length_app, length_rev, length_skipn, length_rev. lia.
  - intros e Hf. rewrite Hf in LU, OU.
    split; [|apply OU].
    apply LU. now rewrite rev_involutive.
Qed.

(** ** [execute] without coalescence *)

Lemma execute_calls_applied (ctor : World -> Cmd * World) (m : Machine)
  (ncmd : Cmd) (p : Promise World CommandResult) (m2 : Machine) :
  execute ctor m =
    match settled p with
    | Rejected e => (Failed e, await p (log_call (Call_execute ncmd) m2))
    | Resolved r =>
        (Done,
         rearm (set_busy false
                  (apply_result ncmd r
                     (await p (log_call (Call_execute ncmd) m2)))))
    end ->
  calls (snd (execute ctor m)) = calls m2 ++ [Call_execute ncmd].
Proof.
  intros He. rewrite He.
  destruct (await_fields p (log_call (Call_execute ncmd) m2))
    as (_ & _ & _ & _ & _ & _ & _ & _ & Ac & _).
  destruct (settled p) as [r|e]; cbn [fst snd].
  - match goal with
    | |- context [rearm ?x] =>
        destruct (rearm_fields x) as (_ & _ & _ & _ & _ & Rc & _)
    end.
    rewrite Rc.
    change (calls (set_busy false
                     (apply_result ncmd r
                        (await p (log_call (Call_execute ncmd) m2)))))
      with (calls (apply_result ncmd r
                     (await p (log_call (Call_execute ncmd) m2)))).
    destruct (apply_result_fields ncmd r
                (await p (log_call (Call_execute ncmd) m2)))
      as (_ & _ & _ & Pc & _).
    rewrite Pc, Ac. reflexivity.
  - rewrite Ac. reflexivity.
Qed.

(** The coalescence block does nothing when the flag is lowered or the undo
    stack is empty. *)
Lemma block_without_incumbent (ncmd : Cmd) (m : Machine) :
  can_coalesce (this m) = false \/ undoCommands (this m) = [] ->
  coalescence_block ncmd m = (Proceed, m).
Proof.
  intros Hno. unfold coalescence_block.
  destruct (can_coalesce (this m)); [|reflexivity].
  destruct Hno as [Hf|Hu]; [discriminate|]. rewrite Hu. reflexivity.
Qed.

Lemma no_incumbent_applies_directly
  (ctor : World -> Cmd * World) (m : Machine) :
  _busy (this m) = false ->
  can_coalesce (this m) = false \/ undoCommands (this m) = [] ->
  applies_directly ctor m.
Proof.
  intros Hb Hno.
  assert (Hblock : coalescence_block (fst (ctor (world m)))
                     (set_world (snd (ctor (world m))) (set_busy true m))
                   = (Proceed,
                      set_world (snd (ctor (world m))) (set_busy true m))).
  { apply block_without_incumbent. exact Hno. }
  assert (Hfirst : first_apply ctor m
                   = Some (fst (ctor (world m)),
                           cmd_execute (fst (ctor (world m)))
                             (snd (ctor (world m))))).
  { unfold first_apply. rewrite Hb.
    destruct (ctor (world m)) as [ncmd w]. cbn [fst snd] in *.
    rewrite Hblock. reflexivity. }
  split; [exact Hfirst|].
  destruct (execute_applied ctor m Hfirst) as (m2 & _ & _ & Hblock' & _ & He).
  rewrite (execute_calls_applied ctor m _ _ m2 He).
  rewrite Hblock in Hblock'. inversion Hblock'. reflexivity.
Qed.

Lemma barriered_applies_directly (ctor : World -> Cmd * World) (m : Machine) :
  _busy (this m) = false ->
  can_coalesce (this m) = false ->
  applies_directly ctor m.
Proof.
  intros Hb Hf. apply no_incumbent_applies_directly; [exact Hb | now left].
Qed.

(** After [coalescenceBarrier()], after the pending timer has expired and
    after a completed [undo] or [redo], the next [execute] does not consult
    the incumbent: it applies its command directly, whatever the top of the
    undo stack would answer.  The barrier itself moves no command. *)
Theorem barrier_stops_coalescence
  (ctor : World -> Cmd * World) (m : Machine) :
  _busy (this m) = false ->
  (undoCommands (this (coalescenceBarrier m)) = undoCommands (this m) /\
   redoCommands (this (coalescenceBarrier m)) = redoCommands (this m) /\
   applies_directly ctor (coalescenceBarrier m)) /\
  (forall id, In id (timers m) ->
              applies_directly ctor (timer_expires id m)) /\
  (forall levels, fst (undo levels m) = Done ->
                  applies_directly ctor (snd (undo levels m))) /\
  (forall levels, fst (redo levels m) = Done ->
                  applies_directly ctor (snd (redo levels m))).
Proof.
  intros Hb. split; [|split; [|split]].
  - split; [reflexivity|]. split; [reflexivity|].
    apply barriered_applies_directly; [exact Hb | reflexivity].
  - intros id Hid. unfold timer_expires.
    assert (He : existsb (Nat.eqb id) (timers m) = true).
    { apply existsb_exists. exists id. split; [exact Hid|].
      apply Nat.eqb_refl. }
    rewrite He. apply barriered_applies_directly; [exact Hb | reflexivity].
  - intros levels Hd. pose proof (undo_outcome levels m Hb) as O.
    rewrite Hd in O. destruct O as (Ob & Of).
    apply barriered_applies_directly; assumption.
  - intros levels Hd. pose proof (redo_outcome levels m Hb) as O.
    rewrite Hd in O. destruct O as (Ob & Of).
    apply barriered_applies_directly; assumption.
Qed.

(** [execute] with coalescence eligible and an incumbent that cannot absorb
    the new command (it has no [coalesce], or [coalesce] answers
    [IMMISCIBLE]): the incumbent is pushed back, the new command is applied
    in the world [coalesce] left, and on [ADD] it lands on the undo stack
    just above the incumbent. *)
Theorem execute_IMMISCIBLE_stacks_above
  (ctor : World -> Cmd * World) (m : Machine) (rest : list Cmd)
  (lcmd ncmd : Cmd) (w1 w2 : World) :
  _busy (this m) = false ->
  can_coalesce (this m) = true ->
  undoCommands (this m) = rest ++ [lcmd] ->
  ctor (world m) = (ncmd, w1) ->
  (coalesce lcmd = None /\ w2 = w1) \/
  (exists merge, coalesce lcmd = Some merge /\
                 merge ncmd w1 = (IMMISCIBLE, w2)) ->
  first_apply ctor m = Some (ncmd, cmd_execute ncmd w2) /\
  (settled (cmd_execute ncmd w2) = Resolved ADD ->
   fst (execute ctor m) = Done /\
   undoCommands (this (snd (execute ctor m))) = rest ++ [lcmd; ncmd] /\
   redoCommands (this (snd (execute ctor m))) = []).
Proof.
  intros Hb Hc Hu Hctor Hco.
  assert (Hfirst : first_apply ctor m = Some (ncmd, cmd_execute ncmd w2)).
  { unfold first_apply. rewrite Hb, Hctor. unfold coalescence_block.
    change (can_coalesce (this (set_world w1 (set_busy true m))))
      with (can_coalesce (this m)).
    change (undoCommands (this (set_world w1 (set_busy true m))))
      with (undoCommands (this m)).
    rewrite Hc, Hu. fold (push rest lcmd). rewrite pop_array_push.
    destruct Hco as [(Hnone & ->)|(merge & Hsome & Hm)].
    - rewrite Hnone. reflexivity.
    - rewrite Hsome.
      change (world (set_undoCommands rest (set_world w1 (set_busy true m))))
        with w1.
      rewrite Hm. reflexivity. }
  split; [exact Hfirst|]. intros Hadd.
  destruct (execute_settled ctor m Hfirst) as (mr & He & Hmu & Hmr & _).
  rewrite Hadd in He. rewrite He. cbn [fst snd].
  match goal with
  | |- context [rearm ?x] => destruct (rearm_fields x) as (Ru & Rr & _)
  end.
  destruct (apply_result_fields ncmd ADD mr) as (_ & _ & _ & _ & Au & Ar & _).
  rewrite Ru, Rr.
  change (undoCommands (this (set_busy false (apply_result ncmd ADD mr))))
    with (undoCommands (this (apply_result ncmd ADD mr))).
  change (redoCommands (this (set_busy false (apply_result ncmd ADD mr))))
    with (redoCommands (this (apply_result ncmd ADD mr))).
  rewrite Au, Ar, Hmu, Hu, <- app_assoc.
  split; [reflexivity|]. split; reflexivity.
Qed.

(** When the first-time-apply of an [execute] rejects, the call fails with
    that reason and both stacks are what they were before the call: the new
    command is pushed nowhere, and the incumbent consulted by the coalescence
    block is back on top. *)
Theorem rejected_apply_keeps_stacks
  (ctor : World -> Cmd * World) (m : Machine)
  (ncmd : Cmd) (p : Promise World CommandResult) (e : string) :
  first_apply ctor m = Some (ncmd, p) ->
  settled p = Rejected e ->
  fst (execute ctor m) = Failed e /\
  undoCommands (this (snd (execute ctor m))) = undoCommands (this m) /\
  redoCommands (this (snd (execute ctor m))) = redoCommands (this m) /\
  (can_coalesce (this (snd (execute ctor m))) = true ->
   can_coalesce (this m) = true).
Proof.
  intros Hs Hp.
  destruct (execute_settled ctor m Hs) as (mr & He & Hu & Hr & _ & _ & Hf & _).
  rewrite Hp in He. rewrite He. cbn [fst snd]. auto.
Qed.

(** ** The command operations a call invokes *)

Lemma moved_to_redo_calls (A : Type) (c : Cmd) (msg : string)
  (p : Promise World A) (call : Call) (v : list Cmd) (m : Machine) :
  calls (push_redo c
           (info msg (await p (log_call call (set_undoCommands v m)))))
  = calls m ++ [call].
Proof.
  change (calls (push_redo c
                   (info msg
                      (await p (log_call call (set_undoCommands v m))))))
    with (calls (info msg (await p (log_call call (set_undoCommands v m))))).
  destruct (info_fields msg
              (await p (log_call call (set_undoCommands v m))))
    as (_ & _ & Ic & _).
  destruct (await_fields p (log_call call (set_undoCommands v m)))
    as (_ & _ & _ & _ & _ & _ & _ & _ & Ac & _).
  rewrite Ic, Ac. reflexivity.
Qed.

Lemma moved_to_undo_calls (A : Type) (c : Cmd) (msg : string)
  (p : Promise World A) (call : Call) (v : list Cmd) (m : Machine) :
  calls (push_undo c
           (info msg (await p (log_call call (set_redoCommands v m)))))
  = calls m ++ [call].
Proof.
  change (calls (push_undo c
                   (info msg
                      (await p (log_call call (set_redoCommands v m))))))
    with (calls (info msg (await p (log_call call (set_redoCommands v m))))).
  destruct (info_fields msg
              (await p (log_call call (set_redoCommands v m))))
    as (_ & _ & Ic & _).
  destruct (await_fields p (log_call call (set_redoCommands v m)))
    as (_ & _ & _ & _ & _ & _ & _ & _ & Ac & _).
  rewrite Ic, Ac. reflexivity.
Qed.

(** The reverse operations the loop of [undo] invokes are those of the
    commands it pushes on the redo stack, in that order, followed, when the
    loop fails, by the one that rejected. *)
Lemma undo_loop_calls (top_first : list Cmd) :
  forall (levels : Z) (m : Machine),
    exists reversed : list Cmd,
      calls (snd (undo_loop top_first levels m))
      = calls m ++ map Call_undo reversed /\
      match fst (undo_loop top_first levels m) with
      | Done =>
          redoCommands (this (snd (undo_loop top_first levels m)))
          = redoCommands (this m) ++ reversed
      | Failed _ =>
          exists before c,
            reversed = before ++ [c] /\
            redoCommands (this (snd (undo_loop top_first levels m)))
            = redoCommands (this m) ++ before
      end.
Proof.
  induction top_first as [|command below IH]; intros levels m;
    cbn [undo_loop].
  - exists []. cbn [fst snd map]. rewrite !app_nil_r. auto.
  - destruct (levels >? 0).
    + change (world (set_undoCommands (rev below) m)) with (world m).
      destruct (isNoop command (world m)).
      * exact (IH levels (set_undoCommands (rev below) m)).
      * destruct (settled (cmd_undo command (world m))) as [[]|e].
        -- match goal with
           | |- context [undo_loop below (levels - 1) ?x] =>
               destruct (IH (levels - 1) x) as (reversed & Ic & Ir);
               set (r := undo_loop below (levels - 1) x) in *
           end.
           rewrite moved_to_redo_calls in Ic.
           destruct (moved_to_redo command
                       ("Undid "
                        ++ description command
                             (world (await (cmd_undo command (world m))
                                       (log_call (Call_undo command)
                                          (set_undoCommands (rev below) m))))
                        ++ ".")%string
                       (cmd_undo command (world m))
                       (Call_undo command) (rev below) m) as (_ & Mr).
           rewrite Mr in Ir.
           exists (command :: reversed). cbn [map].
           split; [rewrite Ic, <- app_assoc; reflexivity|].
           destruct (fst r).
           ++ rewrite Ir, <- app_assoc. reflexivity.
           ++ destruct Ir as (before & c & -> & Ir).
              exists (command :: before), c.
              split; [reflexivity|].
              rewrite Ir, <- app_assoc. reflexivity.
        -- exists [command]. cbn [fst snd map].
           destruct (await_fields (cmd_undo command (world m))
                       (log_call (Call_undo command)
                          (set_undoCommands (rev below) m)))
             as (_ & Ar & _ & _ & _ & _ & _ & _ & Ac & _).
           rewrite Ac. split; [reflexivity|].
           exists [], command. rewrite Ar, app_nil_r. auto.
    + exists []. cbn [fst snd map]. rewrite !app_nil_r. auto.
Qed.

Lemma redo_loop_calls (top_first : list Cmd) :
  forall (levels : Z) (m : Machine),
    exists reapplied : list Cmd,
      calls (snd (redo_loop top_first levels m))
      = calls m ++ map Call_redo reapplied /\
      match fst (redo_loop top_first levels m) with
      | Done =>
          undoCommands (this (snd (redo_loop top_first levels m)))
          = undoCommands (this m) ++ reapplied
      | Failed _ =>
          exists before c,
            reapplied = before ++ [c] /\
            undoCommands (this (snd (redo_loop top_first levels m)))
            = undoCommands (this m) ++ before
      end.
Proof.
  induction top_first as [|command below IH]; intros levels m;
    cbn [redo_loop].
  - exists []. cbn [fst snd map]. rewrite !app_nil_r. auto.
  - destruct (levels >? 0).
    + change (world (set_redoCommands (rev below) m)) with (world m).
      destruct (settled (cmd_redo command (world m))) as [[]|e].
      * match goal with
        | |- context [redo_loop below (levels - 1) ?x] =>
            destruct (IH (levels - 1) x) as (reapplied & Ic & Iu);
            set (r := redo_loop below (levels - 1) x) in *
        end.
        rewrite moved_to_undo_calls in Ic.
        destruct (moved_to_undo command
                    ("Redid "
                     ++ description command
                          (world (await (cmd_redo command (world m))
                                    (log_call (Call_redo command)
                                       (set_redoCommands (rev below) m))))
                     ++ ".")%string
                    (cmd_redo command (world m))
                    (Call_redo command) (rev below) m) as (Mu & _).
        rewrite Mu in Iu.
        exists (command :: reapplied). cbn [map].
        split; [rewrite Ic, <- app_assoc; reflexivity|].
        destruct (fst r).
        -- rewrite Iu, <- app_assoc. reflexivity.
        -- destruct Iu as (before & c & -> & Iu).
           exists (command :: before), c.
           split; [reflexivity|].
           rewrite Iu, <- app_assoc. reflexivity.
      * exists [command]. cbn [fst snd map].
        destruct (await_fields (cmd_redo command (world m))
                    (log_call (Call_redo command)
                       (set_redoCommands (rev below) m)))
          as (Au & _ & _ & _ & _ & _ & _ & _ & Ac & _).
        rewrite Ac. split; [reflexivity|].
        exists [], command. rewrite Au, app_nil_r. auto.
    + exists []. cbn [fst snd map]. rewrite !app_nil_r. auto.
Qed.

(** The calls of [undo] and [redo] around their loops. *)
Lemma undo_calls (levels : Z) (m : Machine) :
  _busy (this m) = false ->
  let r := undo_loop (rev (undoCommands (this m))) levels (set_busy true m) in
  calls (snd (undo levels m))
  = match fst r with
    | Done => calls (snd r) ++ [Call_cleanup]
    | Failed _ => calls (snd r)
    end.
Proof.
  intros Hb. rewrite (undo_unfold levels m Hb). cbv zeta.
  destruct (undo_loop _ levels (set_busy true m)) as [[|e] m']; reflexivity.
Qed.

Lemma redo_calls (levels : Z) (m : Machine) :
  _busy (this m) = false ->
  let r := redo_loop (rev (redoCommands (this m))) levels (set_busy true m) in
  calls (snd (redo levels m))
  = match fst r with
    | Done => calls (snd r) ++ [Call_cleanup]
    | Failed _ => calls (snd r)
    end.
Proof.
  intros Hb. rewrite (redo_unfold levels m Hb). cbv zeta.
  destruct (redo_loop _ levels (set_busy true m)) as [[|e] m']; reflexivity.
Qed.

(** ** The trace of the loops *)

Lemma moved_to_redo_world (A : Type) (c : Cmd) (msg : string)
  (p : Promise World A) (call : Call) (v : list Cmd) (m : Machine) :
  world (push_redo c
           (info msg (await p (log_call call (set_undoCommands v m)))))
  = world_after p.
Proof.
  change (world (push_redo c
                   (info msg
                      (await p (log_call call (set_undoCommands v m))))))
    with (world (info msg (await p (log_call call (set_undoCommands v m))))).
  destruct (info_fields msg
              (await p (log_call call (set_undoCommands v m))))
    as (_ & Iw & _).
  destruct (await_fields p (log_call call (set_undoCommands v m)))
    as (_ & _ & _ & _ & _ & _ & Aw & _).
  rewrite Iw, Aw. reflexivity.
Qed.

Lemma moved_to_undo_world (A : Type) (c : Cmd) (msg : string)
  (p : Promise World A) (call : Call) (v : list Cmd) (m : Machine) :
  world (push_undo c
           (info msg (await p (log_call call (set_redoCommands v m)))))
  = world_after p.
Proof.
  change (world (push_undo c
                   (info msg
                      (await p (log_call call (set_redoCommands v m))))))
    with (world (info msg (await p (log_call call (set_redoCommands v m))))).
  destruct (info_fields msg
              (await p (log_call call (set_redoCommands v m))))
    as (_ & Iw & _).
  destruct (await_fields p (log_call call (set_redoCommands v m)))
    as (_ & _ & _ & _ & _ & _ & Aw & _).
  rewrite Iw, Aw. reflexivity.
Qed.

(** The loop of [undo], command by command. *)
Lemma undo_loop_trace (top_first : list Cmd) :
  forall (levels : Z) (m : Machine),
    undoCommands (this m) = rev top_first ->
    match fst (undo_loop top_first levels m) with
    | Done =>
        exists popped rest moved,
          top_first = popped ++ rest /\
          undoCommands (this (snd (undo_loop top_first levels m)))
          = rev rest /\
          redoCommands (this (snd (undo_loop top_first levels m)))
          = redoCommands (this m) ++ moved /\
          calls (snd (undo_loop top_first levels m))
          = calls m ++ map Call_undo moved /\
          popped_by_undo (world m) (Z.to_nat levels) popped moved /\
          world (snd (undo_loop top_first levels m))
          = reverse_all (world m) moved /\
          (length moved <= Z.to_nat levels)%nat /\
          (rest = [] \/ length moved = Z.to_nat levels)
    | Failed e =>
        exists popped c rest moved,
          top_first = popped ++ c :: rest /\
          undoCommands (this (snd (undo_loop top_first levels m)))
          = rev rest /\
          redoCommands (this (snd (undo_loop top_first levels m)))
          = redoCommands (this m) ++ moved /\
          calls (snd (undo_loop top_first levels m))
          = calls m ++ map Call_undo (moved ++ [c]) /\
          popped_by_undo (world m) (Z.to_nat levels) popped moved /\
          (length moved < Z.to_nat levels)%nat /\
          isNoop c (reverse_all (world m) moved) = false /\
          settled (cmd_undo c (reverse_all (world m) moved)) = Rejected e /\
          world (snd (undo_loop top_first levels m))
          = world_after (cmd_undo c (reverse_all (world m) moved))
    end.
Proof.
  induction top_first as [|command below IH]; intros levels m Hu;
    cbn [undo_loop].
  - cbn [fst snd]. exists [], [], []. cbn. rewrite !app_nil_r.
    repeat split; auto. lia.
  - destruct (levels >? 0) eqn:Hl.
    + change (world (set_undoCommands (rev below) m)) with (world m).
      rewrite (to_nat_pred _ Hl).
      destruct (isNoop command (world m)) eqn:Hn.
      * specialize (IH levels (set_undoCommands (rev below) m) eq_refl).
        change (redoCommands (this (set_undoCommands (rev below) m)))
          with (redoCommands (this m)) in IH.
        change (calls (set_undoCommands (rev below) m))
          with (calls m) in IH.
        change (world (set_undoCommands (rev below) m))
          with (world m) in IH.
        rewrite (to_nat_pred _ Hl) in IH.
        destruct (fst (undo_loop below levels
                         (set_undoCommands (rev below) m))).
        -- destruct IH
             as (popped & rest & moved & Ht & Iu & Ir & Ic & Ip & Iw
                 & Il & Ie).
           exists (command :: popped), rest, moved.
           split; [rewrite Ht; reflexivity|].
           do 3 (split; [assumption|]).
           split; [cbn [popped_by_undo]; rewrite Hn; exact Ip|].
           split; [assumption|]. split; assumption.
        -- destruct IH
             as (popped & c & rest & moved & Ht & Iu & Ir & Ic & Ip & Il
                 & In' & Is & Iw).
           exists (command :: popped), c, rest, moved.
           split; [rewrite Ht; reflexivity|].
           do 3 (split; [assumption|]).
           split; [cbn [popped_by_undo]; rewrite Hn; exact Ip|].
           split; [assumption|]. split; [assumption|]. split; assumption.
      * destruct (settled (cmd_undo command (world m))) as [[]|e] eqn:Hs.
        -- match goal with
           | |- context [undo_loop below (levels - 1) ?x] =>
               specialize (IH (levels - 1) x);
               destruct (moved_to_redo command
                           ("Undid "
                            ++ description command
                                 (world (await (cmd_undo command (world m))
                                           (log_call (Call_undo command)
                                              (set_undoCommands (rev below)
                                                 m))))
                            ++ ".")%string
                           (cmd_undo command (world m))
                           (Call_undo command) (rev below) m) as (Mu & Mr)
           end.
           specialize (IH Mu).
           rewrite Mr, moved_to_redo_calls, moved_to_redo_world in IH.
           match goal with
           | |- match fst ?r with _ => _ end => destruct (fst r)
           end.
           ++ destruct IH
                as (popped & rest & moved & Ht & Iu & Ir & Ic & Ip & Iw
                    & Il & Ie).
              exists (command :: popped), rest, (command :: moved).
              split; [rewrite Ht; reflexivity|].
              split; [assumption|].
              split; [rewrite Ir, <- app_assoc; reflexivity|].
              split; [rewrite Ic, <- app_assoc; reflexivity|].
              split; [cbn [popped_by_undo]; rewrite Hn; auto|].
              split; [exact Iw|]. cbn [length].
              split; [lia|]. destruct Ie; [left; assumption|right; lia].
           ++ destruct IH
                as (popped & c & rest & moved & Ht & Iu & Ir & Ic & Ip & Il
                    & In' & Is & Iw).
              exists (command :: popped), c, rest, (command :: moved).
              split; [rewrite Ht; reflexivity|].
              split; [assumption|].
              split; [rewrite Ir, <- app_assoc; reflexivity|].
              split; [rewrite Ic, <- app_assoc; reflexivity|].
              split; [cbn [popped_by_undo]; rewrite Hn; auto|].
              cbn [length reverse_all].
              split; [lia|]. split; [assumption|]. split; assumption.
        -- cbn [fst snd].
           destruct (popped_from_undo (cmd_undo command (world m))
                       (Call_undo command) (rev below) m) as (Pu & Pr).
           destruct (await_fields (cmd_undo command (world m))
                       (log_call (Call_undo command)
                          (set_undoCommands (rev below) m)))
             as (_ & _ & _ & _ & _ & _ & Aw & _ & Ac & _).
           exists [], command, below, [].
           cbn [app length reverse_all map popped_by_undo].
           rewrite Pu, Pr, Ac, Aw, app_nil_r.
           repeat split; auto. lia.
    + cbn [fst snd]. exists [], (command :: below), [].
      cbn [app length reverse_all map popped_by_undo].
      rewrite (to_nat_nonpos _ Hl), !app_nil_r.
      repeat split; auto.
Qed.

(** The loop of [redo], command by command: every popped command is
    reapplied and moved. *)
Lemma redo_loop_trace (top_first : list Cmd) :
  forall (levels : Z) (m : Machine),
    redoCommands (this m) = rev top_first ->
    match fst (redo_loop top_first levels m) with
    | Done =>
        exists moved rest,
          top_first = moved ++ rest /\
          redoCommands (this (snd (redo_loop top_first levels m)))
          = rev rest /\
          undoCommands (this (snd (redo_loop top_first levels m)))
          = undoCommands (this m) ++ moved /\
          calls (snd (redo_loop top_first levels m))
          = calls m ++ map Call_redo moved /\
          world (snd (redo_loop top_first levels m))
          = reapply_all (world m) moved /\
          length moved = Nat.min (Z.to_nat levels) (length top_first)
    | Failed e =>
        exists moved c rest,
          top_first = moved ++ c :: rest /\
          redoCommands (this (snd (redo_loop top_first levels m)))
          = rev rest /\
          undoCommands (this (snd (redo_loop top_first levels m)))
          = undoCommands (this m) ++ moved /\
          calls (snd (redo_loop top_first levels m))
          = calls m ++ map Call_redo (moved ++ [c]) /\
          (length moved < Z.to_nat levels)%nat /\
          settled (cmd_redo c (reapply_all (world m) moved)) = Rejected e /\
          world (snd (redo_loop top_first levels m))
          = world_after (cmd_redo c (reapply_all (world m) moved))
    end.
Proof.
  induction top_first as [|command below IH]; intros levels m Hr;
    cbn [redo_loop].
  - cbn [fst snd]. exists [], []. cbn. rewrite !app_nil_r.
    repeat split; auto. rewrite Nat.min_0_r. reflexivity.
  - destruct (levels >? 0) eqn:Hl.
    + change (world (set_redoCommands (rev below) m)) with (world m).
      rewrite (to_nat_pred _ Hl).
      destruct (settled (cmd_redo command (world m))) as [[]|e] eqn:Hs.
      * match goal with
        | |- context [redo_loop below (levels - 1) ?x] =>
            specialize (IH (levels - 1) x);
            destruct (moved_to_undo command
                        ("Redid "
                         ++ description command
                              (world (await (cmd_redo command (world m))
                                        (log_call (Call_redo command)
                                           (set_redoCommands (rev below)
                                              m))))
                         ++ ".")%string
                        (cmd_redo command (world m))
                        (Call_redo command) (rev below) m) as (Mu & Mr)
        end.
        specialize (IH Mr).
        rewrite Mu, moved_to_undo_calls, moved_to_undo_world in IH.
        match goal with
        | |- match fst ?r with _ => _ end => destruct (fst r)
        end.
        -- destruct IH as (moved & rest & Ht & Ir & Iu & Ic & Iw & Il).
           exists (command :: moved), rest.
           split; [rewrite Ht; reflexivity|].
           split; [assumption|].
           split; [rewrite Iu, <- app_assoc; reflexivity|].
           split; [rewrite Ic, <- app_assoc; reflexivity|].
           split; [exact Iw|]. cbn [length]. rewrite Il. reflexivity.
        -- destruct IH
             as (moved & c & rest & Ht & Ir & Iu & Ic & Il & Is & Iw).
           exists (command :: moved), c, rest.
           split; [rewrite Ht; reflexivity|].
           split; [assumption|].
           split; [rewrite Iu, <- app_assoc; reflexivity|].
           split; [rewrite Ic, <- app_assoc; reflexivity|].
           cbn [length reapply_all].
           split; [lia|]. split; assumption.
      * cbn [fst snd].
        destruct (popped_from_redo (cmd_redo command (world m))
                    (Call_redo command) (rev below) m) as (Pu & Pr).
        destruct (await_fields (cmd_redo command (world m))
                    (log_call (Call_redo command)
                       (set_redoCommands (rev below) m)))
          as (_ & _ & _ & _ & _ & _ & Aw & _ & Ac & _).
        exists [], command, below.
        cbn [app length reapply_all map].
        rewrite Pu, Pr, Ac, Aw, app_nil_r.
        repeat split; auto. lia.
    + cbn [fst snd]. exists [], (command :: below).
      cbn [app length reapply_all map].
      rewrite (to_nat_nonpos _ Hl), !app_nil_r.
      repeat split; auto.
Qed.

(** The world after [undo] or [redo], around their loops. *)
Lemma undo_world (levels : Z) (m : Machine) :
  _busy (this m) = false ->
  let r := undo_loop (rev (undoCommands (this m))) levels (set_busy true m) in
  world (snd (undo levels m))
  = match fst r with
    | Done => cleanup (this m) (world (snd r))
    | Failed _ => world (snd r)
    end.
Proof.
  intros Hb. rewrite (undo_unfold levels m Hb). cbv zeta.
  destruct (undo_loop_kept (rev (undoCommands (this m))) levels
              (set_busy true m)) as (_ & (Kc & _) & _).
  destruct (undo_loop _ levels (set_busy true m)) as [[|e] m'];
    cbn [after_loop fst snd] in *; [|reflexivity].
  unfold run_cleanup. cbn. rewrite Kc. reflexivity.
Qed.

Lemma redo_world (levels : Z) (m : Machine) :
  _busy (this m) = false ->
  let r := redo_loop (rev (redoCommands (this m))) levels (set_busy true m) in
  world (snd (redo levels m))
  = match fst r with
    | Done => cleanup (this m) (world (snd r))
    | Failed _ => world (snd r)
    end.
Proof.
  intros Hb. rewrite (redo_unfold levels m Hb). cbv zeta.
  destruct (redo_loop_kept (rev (redoCommands (this m))) levels
              (set_busy true m)) as (_ & (Kc & _) & _).
  destruct (redo_loop _ levels (set_busy true m)) as [[|e] m'];
    cbn [after_loop fst snd] in *; [|reflexivity].
  unfold run_cleanup. cbn. rewrite Kc. reflexivity.
Qed.

(** C5, amended.  A call [undo(levels)] with an integral [levels] on an
    idle engine pops a top segment of the undo stack.  Each popped command
    that is a no-op in the current world is discarded: it is not among the
    commands pushed on the redo stack, its reverse is not invoked, and it
    takes none of the [levels].  Every other popped command has its reverse
    invoked and takes one level; it is pushed on the redo stack when the
    reverse resolves, and ends the call, in neither stack, when the reverse
    rejects.  A call that completes has emptied the undo stack or moved
    exactly [levels] commands.  [redo(levels)] moves and reapplies every
    command it pops, the top [levels] of the redo stack or all of them,
    no-op or not. *)
Theorem undo_skips_noops_redo_does_not (levels : Z) (m : Machine) :
  _busy (this m) = false ->
  (fst (undo levels m) = Done ->
   exists popped moved,
     undoCommands (this m)
     = undoCommands (this (snd (undo levels m))) ++ rev popped /\
     popped_by_undo (world m) (Z.to_nat levels) popped moved /\
     redoCommands (this (snd (undo levels m)))
     = redoCommands (this m) ++ moved /\
     calls (snd (undo levels m))
     = calls m ++ map Call_undo moved ++ [Call_cleanup] /\
     (undoCommands (this (snd (undo levels m))) = []
      \/ length moved = Z.to_nat levels)) /\
  (forall e, fst (undo levels m) = Failed e ->
   exists popped moved c,
     undoCommands (this m)
     = undoCommands (this (snd (undo levels m))) ++ c :: rev popped /\
     popped_by_undo (world m) (Z.to_nat levels) popped moved /\
     (length moved < Z.to_nat levels)%nat /\
     isNoop c (reverse_all (world m) moved) = false /\
     settled (cmd_undo c (reverse_all (world m) moved)) = Rejected e /\
     redoCommands (this (snd (undo levels m)))
     = redoCommands (this m) ++ moved /\
     calls (snd (undo levels m))
     = calls m ++ map Call_undo (moved ++ [c])) /\
  (fst (redo levels m) = Done ->
   exists moved,
     redoCommands (this m)
     = redoCommands (this (snd (redo levels m))) ++ rev moved /\
     length moved
     = Nat.min (Z.to_nat levels) (length (redoCommands (this m))) /\
     undoCommands (this (snd (redo levels m)))
     = undoCommands (this m) ++ moved /\
     calls (snd (redo levels m))
     = calls m ++ map Call_redo moved ++ [Call_cleanup]).
Proof.
  intros Hb.
  destruct (undo_stacks levels m Hb) as (Ud & Uu & Ur).
  destruct (redo_stacks levels m Hb) as (Rd & Ru & Rr).
  pose proof (undo_calls levels m Hb) as Uc.
  pose proof (redo_calls levels m Hb) as Rc. cbv zeta in *.
  pose proof (undo_loop_trace (rev (undoCommands (this m))) levels
                (set_busy true m)
                (eq_sym (rev_involutive (undoCommands (this m))))) as TU.
  pose proof (redo_loop_trace (rev (redoCommands (this m))) levels
                (set_busy true m)
                (eq_sym (rev_involutive (redoCommands (this m))))) as TR.
  rewrite <- Ud in Uc, TU. rewrite <- Rd in Rc, TR.
  change (calls (set_busy true m)) with (calls m) in *.
  change (world (set_busy true m)) with (world m) in *.
  change (redoCommands (this (set_busy true m)))
    with (redoCommands (this m)) in *.
  change (undoCommands (this (set_busy true m)))
    with (undoCommands (this m)) in *.
  split; [|split].
  - intros Hd. rewrite Hd in Uc, TU.
    destruct TU as (popped & rest & moved & Ht & Iu & Ir & Ic & Ip & _
                    & _ & Ie).
    exists popped, moved.
    rewrite Uu, Ur, Uc, Iu, Ir, Ic, <- app_assoc.
    split.
    { rewrite <- (rev_involutive (undoCommands (this m))), Ht,
        rev_app_distr. reflexivity. }
    split; [exact Ip|]. split; [reflexivity|]. split; [reflexivity|].
    destruct Ie as [-> | Ie]; [left; reflexivity | right; exact Ie].
  - intros e He. rewrite He in Uc, TU.
    destruct TU as (popped & c & rest & moved & Ht & Iu & Ir & Ic & Ip & Il
                    & In' & Is & _).
    exists popped, moved, c.
    rewrite Uu, Ur, Uc, Iu, Ir, Ic.
    split.
    { rewrite <- (rev_involutive (undoCommands (this m))), Ht,
        rev_app_distr. cbn [rev]. rewrite <- app_assoc. reflexivity. }
    repeat split; assumption.
  - intros Hd. rewrite Hd in Rc, TR.
    destruct TR as (moved & rest & Ht & Ir & Iu & Ic & _ & Il).
    exists moved.
    rewrite Ru, Rr, Rc, Iu, Ir, Ic, <- app_assoc.
    split.
    { rewrite <- (rev_involutive (redoCommands (this m))), Ht,
        rev_app_distr. reflexivity. }
    split; [|split; reflexivity].
    rewrite Il, length_rev. reflexivity.
Qed.

(** The operations that [undo] and [redo] invoke, and the world they
    leave.  A completed [undo] has invoked the reverse of exactly the
    commands it pushed on the redo stack, once each and in the order of the
    pushes, each in the world the one before left, then the cleanup hook,
    once, also when it moved nothing; the world afterwards is the one the
    hook made of the last of these worlds.  A completed [redo] likewise with
    the reapply of the commands it pushed on the undo stack.  A call that
    fails has invoked one operation more, that of a command of the stack it
    pops, which rejected with the error of the call, and no cleanup. *)
Theorem undo_and_redo_invoke_what_they_move (levels : Z) (m : Machine) :
  _busy (this m) = false ->
  (fst (undo levels m) = Done ->
   exists moved,
     redoCommands (this (snd (undo levels m)))
     = redoCommands (this m) ++ moved /\
     calls (snd (undo levels m))
     = calls m ++ map Call_undo moved ++ [Call_cleanup] /\
     world (snd (undo levels m))
     = cleanup (this m) (reverse_all (world m) moved)) /\
  (forall e, fst (undo levels m) = Failed e ->
   exists moved c,
     redoCommands (this (snd (undo levels m)))
     = redoCommands (this m) ++ moved /\
     calls (snd (undo levels m))
     = calls m ++ map Call_undo (moved ++ [c]) /\
     In c (undoCommands (this m)) /\
     settled (cmd_undo c (reverse_all (world m) moved)) = Rejected e /\
     world (snd (undo levels m))
     = world_after (cmd_undo c (reverse_all (world m) moved))) /\
  (fst (redo levels m) = Done ->
   exists moved,
     undoCommands (this (snd (redo levels m)))
     = undoCommands (this m) ++ moved /\
     calls (snd (redo levels m))
     = calls m ++ map Call_redo moved ++ [Call_cleanup] /\
     world (snd (redo levels m))
     = cleanup (this m) (reapply_all (world m) moved)) /\
  (forall e, fst (redo levels m) = Failed e ->
   exists moved c,
     undoCommands (this (snd (redo levels m)))
     = undoCommands (this m) ++ moved /\
     calls (snd (redo levels m))
     = calls m ++ map Call_redo (moved ++ [c]) /\
     In c (redoCommands (this m)) /\
     settled (cmd_redo c (reapply_all (world m) moved)) = Rejected e /\
     world (snd (redo levels m))
     = world_after (cmd_redo c (reapply_all (world m) moved))).
Proof.
  intros Hb.
  destruct (undo_stacks levels m Hb) as (Ud & Uu & Ur).
  destruct (redo_stacks levels m Hb) as (Rd & Ru & Rr).
  pose proof (undo_calls levels m Hb) as Uc.
  pose proof (redo_calls levels m Hb) as Rc.
  pose proof (undo_world levels m Hb) as Uw.
  pose proof (redo_world levels m Hb) as Rw. cbv zeta in *.
  pose proof (undo_loop_trace (rev (undoCommands (this m))) levels
                (set_busy true m)
                (eq_sym (rev_involutive (undoCommands (this m))))) as TU.
  pose proof (redo_loop_trace (rev (redoCommands (this m))) levels
                (set_busy true m)
                (eq_sym (rev_involutive (redoCommands (this m))))) as TR.
  rewrite <- Ud in Uc, Uw, TU. rewrite <- Rd in Rc, Rw, TR.
  change (calls (set_busy true m)) with (calls m) in *.
  change (world (set_busy true m)) with (world m) in *.
  change (redoCommands (this (set_busy true m)))
    with (redoCommands (this m)) in *.
  change (undoCommands (this (set_busy true m)))
    with (undoCommands (this m)) in *.
  split; [|split; [|split]].
  - intros Hd. rewrite Hd in Uc, Uw, TU.
    destruct TU as (popped & rest & moved & _ & _ & Ir & Ic & _ & Iw & _).
    exists moved. rewrite Ur, Uc, Uw, Ir, Ic, Iw, <- app_assoc. auto.
  - intros e He. rewrite He in Uc, Uw, TU.
    destruct TU as (popped & c & rest & moved & Ht & _ & Ir & Ic & _ & _
                    & _ & Is & Iw).
    exists moved, c. rewrite Ur, Uc, Uw, Ir, Ic, Iw.
    do 2 (split; [reflexivity|]). split; [|split; [exact Is|reflexivity]].
    apply in_rev. rewrite Ht. apply in_or_app. right. left. reflexivity.
  - intros Hd. rewrite Hd in Rc, Rw, TR.
    destruct TR as (moved & rest & _ & _ & Iu & Ic & Iw & _).
    exists moved. rewrite Ru, Rc, Rw, Iu, Ic, Iw, <- app_assoc. auto.
  - intros e He. rewrite He in Rc, Rw, TR.
    destruct TR as (moved & c & rest & Ht & _ & Iu & Ic & _ & Is & Iw).
    exists moved, c. rewrite Ru, Rc, Rw, Iu, Ic, Iw.
    do 2 (split; [reflexivity|]). split; [|split; [exact Is|reflexivity]].
    apply in_rev. rewrite Ht. apply in_or_app. right. left. reflexivity.
Qed.

(** ** Properties that every step of the engine keeps *)

Section Stable.

Variable P : Machine -> Prop.
Hypothesis HP : stable P.

Lemma stable_await (A : Type) (p : Promise World A) (m : Machine) :
  P m -> P (await p m).
Proof.
  intros Hm. unfold await. apply (stable_world HP).
  revert m Hm. induction (meanwhile p) as [|e es IH]; intros m Hm; simpl.
  - exact Hm.
  - apply IH. apply (stable_interleave HP). exact Hm.
Qed.

Lemma stable_undo_loop (top_first : list Cmd) :
  forall levels m, P m -> P (snd (undo_loop top_first levels m)).
Proof.
  induction top_first as [|command below IH]; intros levels m Hm;
    cbn [undo_loop].
  - exact Hm.
  - destruct (levels >? 0); [|exact Hm].
    destruct (isNoop command (world (set_undoCommands (rev below) m))).
    + apply IH. apply (stable_undoCommands HP). exact Hm.
    + assert (Ha : P (await (cmd_undo command
                               (world (set_undoCommands (rev below) m)))
                        (log_call (Call_undo command)
                           (set_undoCommands (rev below) m)))).
      { apply stable_await. apply (stable_call HP).
        apply (stable_undoCommands HP). exact Hm. }
      destruct (settled (cmd_undo command
                           (world (set_undoCommands (rev below) m)))).
      * apply IH. apply (stable_redoCommands HP). apply (stable_info HP).
        exact Ha.
      * exact Ha.
Qed.

Lemma stable_redo_loop (top_first : list Cmd) :
  forall levels m, P m -> P (snd (redo_loop top_first levels m)).
Proof.
  induction top_first as [|command below IH]; intros levels m Hm;
    cbn [redo_loop].
  - exact Hm.
  - destruct (levels >? 0); [|exact Hm].
    assert (Ha : P (await (cmd_redo command
                             (world (set_redoCommands (rev below) m)))
                      (log_call (Call_redo command)
                         (set_redoCommands (rev below) m)))).
    { apply stable_await. apply (stable_call HP).
      apply (stable_redoCommands HP). exact Hm. }
    destruct (settled (cmd_redo command
                         (world (set_redoCommands (rev below) m)))).
    + apply IH. apply (stable_undoCommands HP). apply (stable_info HP).
      exact Ha.
    + exact Ha.
Qed.

Lemma stable_after_loop (r : Completion * Machine) :
  P (snd r) -> P (snd (after_loop r)).
Proof.
  destruct r as [[|e] m]; cbn [after_loop fst snd]; intros Hm; [|exact Hm].
  apply (stable_busy HP). unfold run_cleanup.
  apply (stable_call HP), (stable_world HP), (stable_can_coalesce HP).
  exact Hm.
Qed.

Lemma stable_coalescence_block (ncmd : Cmd) (m : Machine) :
  P m -> P (snd (coalescence_block ncmd m)).
Proof.
  intros Hm. unfold coalescence_block.
  destruct (can_coalesce (this m)); [|exact Hm].
  destruct (pop_array (undoCommands (this m))) as [[lcmd|] rest];
    [|exact Hm].
  destruct (coalesce lcmd) as [merge|].
  - destruct (merge ncmd (world (set_undoCommands rest m))) as [[| |] w];
      cbn [fst snd];
      repeat first [ apply (stable_info HP)
                   | apply (stable_undoCommands HP)
                   | apply (stable_world HP)
                   | apply (stable_call HP) ];
      exact Hm.
  - cbn [fst snd]. apply (stable_undoCommands HP), (stable_undoCommands HP).
    exact Hm.
Qed.

Lemma stable_apply_result (ncmd : Cmd) (r : CommandResult) (m : Machine) :
  P m -> P (apply_result ncmd r m).
Proof.
  intros Hm. destruct r; unfold apply_result;
    repeat first [ apply (stable_can_coalesce HP)
                 | apply (stable_redoCommands HP)
                 | apply (stable_undoCommands HP)
                 | apply (stable_info HP) ];
    exact Hm.
Qed.

Lemma stable_execute (ctor : World -> Cmd * World) (m : Machine) :
  P m -> P (snd (execute ctor m)).
Proof.
  intros Hm. unfold execute.
  destruct (_busy (this m)); [exact Hm|]. cbv zeta.
  destruct (ctor (world (set_busy true m))) as [ncmd w].
  assert (Hb : P (snd (coalescence_block ncmd
                         (set_world w (set_busy true m))))).
  { apply stable_coalescence_block, (stable_world HP), (stable_busy HP).
    exact Hm. }
  destruct (coalescence_block ncmd (set_world w (set_busy true m)))
    as [[|] m2]; cbn [fst snd] in *; [|exact Hb].
  assert (Ha : P (await (cmd_execute ncmd (world m2))
                    (log_call (Call_execute ncmd) m2))).
  { apply stable_await, (stable_call HP). exact Hb. }
  destruct (settled (cmd_execute ncmd (world m2))) as [r|e];
    cbn [fst snd]; [|exact Ha].
  apply (stable_rearm HP), (stable_busy HP), stable_apply_result. exact Ha.
Qed.

(** Every call keeps a stable property, however it ends. *)
Lemma stable_run (op : Op) (m : Machine) : P m -> P (snd (run op m)).
Proof.
  intros Hm. destruct op as [ctor|levels|levels| | | |id]; cbn [run snd].
  - apply stable_execute. exact Hm.
  - destruct (_busy (this m)) eqn:Hb.
    + unfold undo. rewrite Hb. exact Hm.
    + rewrite (undo_unfold levels m Hb). apply stable_after_loop.
      apply stable_undo_loop, (stable_busy HP). exact Hm.
  - destruct (_busy (this m)) eqn:Hb.
    + unfold redo. rewrite Hb. exact Hm.
    + rewrite (redo_unfold levels m Hb). apply stable_after_loop.
      apply stable_redo_loop, (stable_busy HP). exact Hm.
  - unfold pop. destruct (_busy (this m)); [exact Hm|].
    apply (stable_undoCommands HP). exact Hm.
  - unfold clear. destruct (_busy (this m)); [exact Hm|].
    apply (stable_redoCommands HP), (stable_undoCommands HP). exact Hm.
  - apply (stable_can_coalesce HP). exact Hm.
  - exact (stable_interleave HP (TimerFired id) m Hm).
Qed.

Lemma stable_reachable (o : Options) (w : World) (m : Machine) :
  P (boot o w) -> reachable o w m -> P m.
Proof.
  intros H0 Hr. induction Hr as [|op m Hr IH]; [exact H0|].
  apply stable_run. exact IH.
Qed.

End Stable.

(** ** The coalescence timer *)

Lemma timer_tracked_ext (m m' : Machine) :
  timers m' = timers m ->
  timeoutId (this m') = timeoutId (this m) ->
  coalescenceWindow (this m') = coalescenceWindow (this m) ->
  timer_tracked m -> timer_tracked m'.
Proof.
  unfold timer_tracked, scheduled. intros -> -> ->. auto.
Qed.

Lemma remove_timer_only (id : nat) : remove_timer id [id] = [].
Proof. simpl. rewrite Nat.eqb_refl. reflexivity. Qed.

Lemma timer_tracked_interleave (e : Interleaved) (m : Machine) :
  timer_tracked m -> timer_tracked (interleave m e).
Proof.
  intros (Ht & Hw). destruct e as [id|]; cbn [interleave].
  - unfold timer_expires.
    destruct (existsb (Nat.eqb id) (timers m)) eqn:He; [|split; assumption].
    unfold timer_tracked, scheduled in *.
    cbn [timer_callback clearTimeout set_timeoutId set_can_coalesce
         set_timers set_this this timers timeoutId coalescenceWindow
         h_set_timeoutId h_set_can_coalesce].
    split; [|reflexivity].
    destruct (timeoutId (this m)) as [id'|]; rewrite Ht in *.
    + simpl in He. rewrite orb_false_r in He.
      apply Nat.eqb_eq in He. subst id'. apply remove_timer_only.
    + discriminate He.
  - split; assumption.
Qed.

Lemma timer_tracked_rearm (m : Machine) :
  timer_tracked m -> timer_tracked (rearm m).
Proof.
  intros (Ht & Hw). unfold rearm, timer_tracked, scheduled in *.
  destruct (timeoutId (this m)) as [id|] eqn:Hid.
  - change (coalescenceWindow (this (clearTimeout id m)))
      with (coalescenceWindow (this m)).
    destruct (coalescenceWindow (this m) >? 0) eqn:Hpos.
    + cbn [setTimeout clearTimeout set_timeoutId set_timers set_this this
           timers timeoutId coalescenceWindow next_timer h_set_timeoutId].
      rewrite Ht, remove_timer_only. split; [reflexivity|].
      apply Z.gtb_lt in Hpos. intros Hle. lia.
    + destruct (Z.gtb_spec (coalescenceWindow (this m)) 0) as [|Hle];
        [discriminate|].
      specialize (Hw Hle). discriminate Hw.
  - destruct (coalescenceWindow (this m) >? 0) eqn:Hpos.
    + cbn [setTimeout set_timeoutId set_timers set_this this
           timers timeoutId coalescenceWindow next_timer h_set_timeoutId].
      rewrite Ht. split; [reflexivity|].
      apply Z.gtb_lt in Hpos. intros Hle. lia.
    + cbn [set_can_coalesce set_this this timers timeoutId
           coalescenceWindow h_set_can_coalesce].
      rewrite Ht, Hid. split; [reflexivity|]. auto.
Qed.

Lemma timer_tracked_stable : stable (fun m : Machine => timer_tracked m).
Proof.
  constructor.
  - intros b m. apply timer_tracked_ext; reflexivity.
  - intros w m. apply timer_tracked_ext; reflexivity.
  - intros v m. apply timer_tracked_ext; reflexivity.
  - intros v m. apply timer_tracked_ext; reflexivity.
  - intros b m. apply timer_tracked_ext; reflexivity.
  - intros c m. apply timer_tracked_ext; reflexivity.
  - intros msg m. destruct (info_fields msg m) as (It & _ & _ & Iti & _).
    apply timer_tracked_ext; [exact Iti | now rewrite It | now rewrite It].
  - exact timer_tracked_interleave.
  - exact timer_tracked_rearm.
Qed.

(** At most one coalescence timeout is ever pending, and it is the one
    [timeoutId] holds: every re-arming cancels the previous timeout first,
    and an expired timeout clears [timeoutId].  With a window of zero or
    less no timeout is ever set. *)
Theorem at_most_one_timer_pending
  (o : Options) (w : World) (m : Machine) :
  reachable o w m ->
  timers m = scheduled m /\
  (length (timers m) <= 1)%nat /\
  (coalescenceWindow (this m) <= 0 ->
   timers m = [] /\ timeoutId (this m) = None).
Proof.
  intros Hr.
  assert (Ht : timer_tracked m).
  { apply (stable_reachable timer_tracked_stable (o := o) (w := w));
      [|exact Hr].
    split; [reflexivity|]. intros _. reflexivity. }
  destruct Ht as (Ht & Hw). split; [exact Ht|]. split.
  - rewrite Ht. unfold scheduled. destruct (timeoutId (this m)); simpl; lia.
  - intros Hle. specialize (Hw Hle). split; [|exact Hw].
    rewrite Ht. unfold scheduled. rewrite Hw. reflexivity.
Qed.

(** ** The options *)

Lemma quiet_stable (printed : list string) :
  stable (fun m : Machine => quiet printed m).
Proof.
  constructor; try (intros ? m Hq; exact Hq).
  - intros msg m (Hv & Hc). unfold info. rewrite Hv. split; assumption.
  - intros e m (Hv & Hc).
    destruct (interleave_disturbed m e)
      as (_ & _ & _ & _ & _ & Dv & _ & Dc & _).
    split; congruence.
  - intros m (Hv & Hc).
    destruct (rearm_fields m) as (_ & _ & _ & (_ & _ & Rv) & _).
    split; [congruence|].
    unfold rearm. destruct (timeoutId (this m));
      destruct (coalescenceWindow _ >? 0); exact Hc.
Qed.

Lemma configured_stable (o : Options) :
  stable (fun m : Machine => configured o m).
Proof.
  constructor; try (intros ? m Hc; exact Hc).
  - intros msg m. unfold configured. rewrite info_this. auto.
  - intros e m (Hc & Hw & Hv).
    destruct (interleave_disturbed m e) as (_ & _ & _ & Dc & Dw & Dv & _).
    unfold configured. rewrite Dc, Dw, Dv. auto.
  - intros m (Hc & Hw & Hv).
    destruct (rearm_fields m) as (_ & _ & _ & (Rc & Rw & Rv) & _).
    unfold configured. rewrite Rc, Rw, Rv. auto.
Qed.

(** The options are fixed at construction: no call, timer or barrier
    changes [cleanup], [coalescenceWindow] or [verbose], whose defaults are
    the identity, 3000 and true; and an engine constructed with
    [verbose: false] never prints. *)
Theorem options_are_fixed_and_quiet_is_silent
  (o : Options) (w : World) (m : Machine) :
  reachable o w m ->
  configured o m /\
  (opt_verbose o = Some false -> console m = []).
Proof.
  intros Hr. split.
  - apply (stable_reachable (configured_stable o) (o := o) (w := w));
      [|exact Hr].
    repeat split.
  - intros Hv.
    assert (Hq : quiet [] m).
    { apply (stable_reachable (quiet_stable []) (o := o) (w := w));
        [|exact Hr].
      split; [|reflexivity]. cbn. rewrite Hv. reflexivity. }
    apply Hq.
Qed.

(** ** A window of zero or less *)

Lemma never_merged_app (m m' : Machine) (more : list Call) :
  calls m' = calls m ++ more ->
  (forall lcmd ncmd, ~ In (Call_coalesce lcmd ncmd) more) ->
  never_merged m -> never_merged m'.
Proof.
  intros Hc Hmore Hm lcmd ncmd Hin. rewrite Hc in Hin.
  apply in_app_or in Hin. destruct Hin as [Hin|Hin].
  - exact (Hm lcmd ncmd Hin).
  - exact (Hmore lcmd ncmd Hin).
Qed.

Lemma no_merge_among_reverses (l : list Cmd) (tail : list Call) :
  tail = [] \/ tail = [Call_cleanup] ->
  forall lcmd ncmd, ~ In (Call_coalesce lcmd ncmd) (map Call_undo l ++ tail).
Proof.
  intros Ht lcmd ncmd Hin. apply in_app_or in Hin. destruct Hin as [Hin|Hin].
  - apply in_map_iff in Hin. destruct Hin as (c & Hc & _). discriminate Hc.
  - destruct Ht as [->| ->]; [destruct Hin|].
    destruct Hin as [Hc|[]]. discriminate Hc.
Qed.

Lemma no_merge_among_reapplies (l : list Cmd) (tail : list Call) :
  tail = [] \/ tail = [Call_cleanup] ->
  forall lcmd ncmd, ~ In (Call_coalesce lcmd ncmd) (map Call_redo l ++ tail).
Proof.
  intros Ht lcmd ncmd Hin. apply in_app_or in Hin. destruct Hin as [Hin|Hin].
  - apply in_map_iff in Hin. destruct Hin as (c & Hc & _). discriminate Hc.
  - destruct Ht as [->| ->]; [destruct Hin|].
    destruct Hin as [Hc|[]]. discriminate Hc.
Qed.

Lemma undo_calls_shape (levels : Z) (m : Machine) :
  _busy (this m) = false ->
  exists l tail,
    calls (snd (undo levels m)) = calls m ++ map Call_undo l ++ tail /\
    (tail = [] \/ tail = [Call_cleanup]).
Proof.
  intros Hb. pose proof (undo_calls levels m Hb) as Uc. cbv zeta in Uc.
  destruct (undo_loop_calls (rev (undoCommands (this m))) levels
              (set_busy true m)) as (l & Lc & _).
  change (calls (set_busy true m)) with (calls m) in Lc.
  rewrite Lc in Uc.
  destruct (fst (undo_loop (rev (undoCommands (this m))) levels
                   (set_busy true m))).
  - exists l, [Call_cleanup]. rewrite Uc, <- app_assoc. auto.
  - exists l, []. rewrite Uc, app_nil_r. auto.
Qed.

Lemma redo_calls_shape (levels : Z) (m : Machine) :
  _busy (this m) = false ->
  exists l tail,
    calls (snd (redo levels m)) = calls m ++ map Call_redo l ++ tail /\
    (tail = [] \/ tail = [Call_cleanup]).
Proof.
  intros Hb. pose proof (redo_calls levels m Hb) as Rc. cbv zeta in Rc.
  destruct (redo_loop_calls (rev (redoCommands (this m))) levels
              (set_busy true m)) as (l & Lc & _).
  change (calls (set_busy true m)) with (calls m) in Lc.
  rewrite Lc in Rc.
  destruct (fst (redo_loop (rev (redoCommands (this m))) levels
                   (set_busy true m))).
  - exists l, [Call_cleanup]. rewrite Rc, <- app_assoc. auto.
  - exists l, []. rewrite Rc, app_nil_r. auto.
Qed.

Lemma merging_disabled_run (op : Op) (m : Machine) :
  coalescenceWindow (this m) <= 0 ->
  merging_disabled m -> merging_disabled (snd (run op m)).
Proof.
  intros Hw (Hn & He).
  destruct (_busy (this m)) eqn:Hb.
  - destruct (exclusive op) eqn:Hx.
    + destruct (busy_run_unchanged op m Hx Hb) as (e & _ & Hrun).
      rewrite Hrun. cbn [snd]. split; [exact Hn|]. rewrite Hb. discriminate.
    + destruct op as [ctor|levels|levels| | | |id]; try discriminate Hx;
        cbn [run snd].
      * split; [exact Hn|]. cbn. rewrite Hb. discriminate.
      * destruct (interleave_disturbed m (TimerFired id))
          as (_ & _ & Db & _ & _ & _ & _ & _ & Dc & _).
        cbn [interleave] in *. split.
        -- intros lcmd ncmd. rewrite Dc. apply Hn.
        -- rewrite Db, Hb. discriminate.
  - specialize (He eq_refl).
    destruct op as [ctor|levels|levels| | | |id]; cbn [run snd].
    + assert (Hno : can_coalesce (this m) = false
                    \/ undoCommands (this m) = []).
      { destruct (can_coalesce (this m)); [right; auto | left; reflexivity]. }
      destruct (no_incumbent_applies_directly ctor m Hb Hno) as (Hs & Hc).
      split.
      * apply (@never_merged_app m _ _ Hc); [|exact Hn].
        intros lcmd ncmd [Hin|[]]. discriminate Hin.
      * pose proof (execute_outcome ctor m Hb) as O. cbv zeta in O.
        rewrite Hs in O.
        destruct (settled (cmd_execute (fst (ctor (world m)))
                             (snd (ctor (world m))))) as [[| |]|e].
        -- destruct O as (_ & _ & _ & Of). rewrite Of.
           destruct (Z.gtb_spec (coalescenceWindow (this m)) 0);
             [lia|discriminate].
        -- destruct O as (_ & _ & _ & _ & Oraise & _).
           intros _ Ht. destruct (Oraise Ht). lia.
        -- destruct O as (_ & _ & Of). rewrite Of. discriminate.
        -- destruct O as (_ & Ob & _). rewrite Ob. discriminate.
    + destruct (undo_calls_shape levels m Hb) as (l & tail & Hc & Ht).
      split.
      * apply (@never_merged_app m _ _ Hc); [|exact Hn].
        apply no_merge_among_reverses, Ht.
      * pose proof (undo_outcome levels m Hb) as O.
        destruct (fst (undo levels m)); destruct O as (O1 & O2);
          rewrite ?O1, ?O2; discriminate.
    + destruct (redo_calls_shape levels m Hb) as (l & tail & Hc & Ht).
      split.
      * apply (@never_merged_app m _ _ Hc); [|exact Hn].
        apply no_merge_among_reapplies, Ht.
      * pose proof (redo_outcome levels m Hb) as O.
        destruct (fst (redo levels m)); destruct O as (O1 & O2);
          rewrite ?O1, ?O2; discriminate.
    + unfold pop. rewrite Hb. cbn. split; [exact Hn|].
      intros _ Ht. rewrite (He Ht). reflexivity.
    + unfold clear. rewrite Hb. cbn. split; [exact Hn|]. auto.
    + split; [exact Hn|]. cbn. discriminate.
    + destruct (interleave_disturbed m (TimerFired id))
        as (Du & _ & _ & _ & _ & _ & _ & _ & Dc & Df).
      cbn [interleave] in *. split.
      * intros lcmd ncmd. rewrite Dc. apply Hn.
      * intros _ Ht. rewrite Du. apply He, Df, Ht.
Qed.

(** A coalescence window of zero or less disables coalescence: whatever the
    calls and the commands, no command's [coalesce] is ever invoked. *)
Theorem nonpositive_window_never_coalesces
  (o : Options) (w : World) (m : Machine) :
  reachable o w m ->
  coalescenceWindow (this m) <= 0 ->
  forall lcmd ncmd, ~ In (Call_coalesce lcmd ncmd) (calls m).
Proof.
  intros Hr Hw.
  assert (Hfix : forall m', reachable o w m' ->
                            coalescenceWindow (this m')
                            = default (opt_coalescenceWindow o) 3000).
  { intros m' Hr'.
    assert (Hc : configured o m').
    { apply (stable_reachable (configured_stable o) (o := o) (w := w));
        [repeat split | exact Hr']. }
    apply Hc. }
  rewrite (Hfix m Hr) in Hw.
  assert (Hd : merging_disabled m).
  { induction Hr as [|op m Hr IH].
    - split; [intros lcmd ncmd []|]. reflexivity.
    - apply merging_disabled_run; [|exact IH].
      rewrite (Hfix m Hr). exact Hw. }
  apply Hd.
Qed.

(** ** Conservation of commands *)

Lemma drawn_from_all (v r : list Cmd) : drawn_from (v ++ r) v r.
Proof. exists []. rewrite app_nil_r. apply Permutation_refl. Qed.

Lemma drawn_from_perm (l l' v r : list Cmd) :
  Permutation l l' -> drawn_from l v r -> drawn_from l' v r.
Proof.
  intros Hp (d & Hd). exists d. exact (Permutation_trans Hd Hp).
Qed.

Lemma drawn_from_more (c : Cmd) (l v r : list Cmd) :
  drawn_from l v r -> drawn_from (c :: l) v r.
Proof.
  intros (d & Hd). exists (c :: d).
  rewrite app_assoc. apply Permutation_sym, Permutation_cons_app.
  rewrite <- app_assoc. apply Permutation_sym, Hd.
Qed.

Lemma drawn_from_nodup (l v r : list Cmd) :
  drawn_from l v r -> NoDup l -> NoDup (v ++ r).
Proof.
  intros (d & Hd) Hl.
  apply (Permutation_NoDup (Permutation_sym Hd)) in Hl.
  rewrite app_assoc in Hl. exact (NoDup_app_remove_r _ _ Hl).
Qed.

Lemma top_to_other_stack (c : Cmd) (a b : list Cmd) :
  Permutation (a ++ b ++ [c]) ((a ++ [c]) ++ b).
Proof.
  rewrite <- app_assoc. apply Permutation_app_head, Permutation_app_comm.
Qed.

Lemma top_dropped (c : Cmd) (a b : list Cmd) :
  Permutation (c :: a ++ b) ((a ++ [c]) ++ b).
Proof.
  rewrite <- app_assoc. apply Permutation_middle.
Qed.

Lemma undo_loop_conserves (top_first : list Cmd) :
  forall (levels : Z) (m : Machine),
    undoCommands (this m) = rev top_first ->
    drawn_from (rev top_first ++ redoCommands (this m))
      (undoCommands (this (snd (undo_loop top_first levels m))))
      (redoCommands (this (snd (undo_loop top_first levels m)))).
Proof.
  induction top_first as [|command below IH]; intros levels m Hu;
    cbn [undo_loop].
  - cbn [fst snd]. rewrite Hu. apply drawn_from_all.
  - destruct (levels >? 0) eqn:Hl.
    + change (world (set_undoCommands (rev below) m)) with (world m).
      cbn [rev].
      destruct (isNoop command (world m)).
      * specialize (IH levels (set_undoCommands (rev below) m) eq_refl).
        change (redoCommands (this (set_undoCommands (rev below) m)))
          with (redoCommands (this m)) in IH.
        apply (drawn_from_perm (top_dropped command _ _)).
        apply drawn_from_more, IH.
      * destruct (settled (cmd_undo command (world m))) as [[]|e].
        -- match goal with
           | |- context [undo_loop below (levels - 1) ?x] =>
               specialize (IH (levels - 1) x);
               destruct (moved_to_redo command
                           ("Undid "
                            ++ description command
                                 (world (await (cmd_undo command (world m))
                                           (log_call (Call_undo command)
                                              (set_undoCommands (rev below)
                                                 m))))
                            ++ ".")%string
                           (cmd_undo command (world m))
                           (Call_undo command) (rev below) m) as (Mu & Mr)
           end.
           specialize (IH Mu). rewrite Mr in IH.
           apply (drawn_from_perm (top_to_other_stack command _ _)).
           exact IH.
        -- cbn [snd].
           destruct (popped_from_undo (cmd_undo command (world m))
                       (Call_undo command) (rev below) m) as (Pu & Pr).
           rewrite Pu, Pr.
           apply (drawn_from_perm (top_dropped command _ _)).
           apply drawn_from_more, drawn_from_all.
    + cbn [snd]. rewrite Hu. apply drawn_from_all.
Qed.

Lemma redo_loop_conserves (top_first : list Cmd) :
  forall (levels : Z) (m : Machine),
    redoCommands (this m) = rev top_first ->
    drawn_from (undoCommands (this m) ++ rev top_first)
      (undoCommands (this (snd (redo_loop top_first levels m))))
      (redoCommands (this (snd (redo_loop top_first levels m)))).
Proof.
  induction top_first as [|command below IH]; intros levels m Hr;
    cbn [redo_loop].
  - cbn [fst snd]. rewrite Hr. apply drawn_from_all.
  - destruct (levels >? 0) eqn:Hl.
    + change (world (set_redoCommands (rev below) m)) with (world m).
      cbn [rev].
      destruct (settled (cmd_redo command (world m))) as [[]|e].
      * match goal with
        | |- context [redo_loop below (levels - 1) ?x] =>
            specialize (IH (levels - 1) x);
            destruct (moved_to_undo command
                        ("Redid "
                         ++ description command
                              (world (await (cmd_redo command (world m))
                                        (log_call (Call_redo command)
                                           (set_redoCommands (rev below)
                                              m))))
                         ++ ".")%string
                        (cmd_redo command (world m))
                        (Call_redo command) (rev below) m) as (Mu & Mr)
        end.
        specialize (IH Mr). rewrite Mu in IH.
        apply (drawn_from_perm
                 (Permutation_sym (top_to_other_stack command _ _))).
        exact IH.
      * cbn [snd].
        destruct (popped_from_redo (cmd_redo command (world m))
                    (Call_redo command) (rev below) m) as (Pu & Pr).
        rewrite Pu, Pr. exists [command]. apply Permutation_refl.
    + cbn [snd]. rewrite Hr. apply drawn_from_all.
Qed.

(** The undo stack when the coalescence block of [execute] returns: as it
    was, or without its top. *)
Lemma execute_returned_undo (ctor : World -> Cmd * World) (m : Machine) :
  _busy (this m) = false ->
  first_apply ctor m = None ->
  undoCommands (this (snd (execute ctor m))) = undoCommands (this m)
  \/ exists lcmd,
       undoCommands (this m)
       = undoCommands (this (snd (execute ctor m))) ++ [lcmd].
Proof.
  intros Hb. unfold first_apply, execute. rewrite Hb. cbv zeta.
  change (world (set_busy true m)) with (world m).
  destruct (ctor (world m)) as [ncmd w].
  unfold coalescence_block.
  change (can_coalesce (this (set_world w (set_busy true m))))
    with (can_coalesce (this m)).
  change (undoCommands (this (set_world w (set_busy true m))))
    with (undoCommands (this m)).
  destruct (can_coalesce (this m)); [|discriminate].
  destruct (pop_array (undoCommands (this m))) as [[lcmd|] rest] eqn:Hp;
    [|discriminate].
  apply pop_array_some in Hp. unfold push in Hp.
  destruct (coalesce lcmd) as [merge|]; [|discriminate].
  cbv zeta.
  change (world (set_undoCommands rest (set_world w (set_busy true m))))
    with w.
  destruct (merge ncmd w) as [[| |] w']; [discriminate| |]; intros _;
    cbn [snd]; rewrite info_this.
  - left. rewrite Hp. reflexivity.
  - right. exists lcmd. exact Hp.
Qed.

(** Commands are neither duplicated nor invented.  After any call the two
    stacks hold, up to order, a part of what the two stacks held before and
    of the command the call constructed; so when those were distinct, the
    stacked commands are distinct. *)
Theorem commands_are_conserved (op : Op) (m : Machine) :
  drawn_from
    (constructed op m ++ undoCommands (this m) ++ redoCommands (this m))
    (undoCommands (this (snd (run op m))))
    (redoCommands (this (snd (run op m)))) /\
  (NoDup (constructed op m ++ undoCommands (this m) ++ redoCommands (this m))
   -> NoDup (undoCommands (this (snd (run op m)))
             ++ redoCommands (this (snd (run op m))))).
Proof.
  assert (Hd : drawn_from
                 (constructed op m
                  ++ undoCommands (this m) ++ redoCommands (this m))
                 (undoCommands (this (snd (run op m))))
                 (redoCommands (this (snd (run op m))))).
  { destruct (_busy (this m)) eqn:Hb.
    - assert (Hsame : undoCommands (this (snd (run op m)))
                      = undoCommands (this m)
                      /\ redoCommands (this (snd (run op m)))
                         = redoCommands (this m)).
      { destruct (exclusive op) eqn:Hx.
        - destruct (busy_run_unchanged op m Hx Hb) as (e & _ & Hrun).
          rewrite Hrun. split; reflexivity.
        - destruct op as [ctor|levels|levels| | | |id]; try discriminate Hx;
            cbn [run snd].
          + split; reflexivity.
          + destruct (interleave_disturbed m (TimerFired id))
              as (Du & Dr & _). cbn [interleave] in *. split; assumption. }
      destruct Hsame as (-> & ->).
      assert (Hc : constructed op m = []).
      { destruct op; cbn [constructed]; rewrite ?Hb; reflexivity. }
      rewrite Hc. cbn [app]. apply drawn_from_all.
    - destruct op as [ctor|levels|levels| | | |id];
        cbn [run constructed app]; rewrite ?Hb; cbn [app].
      + destruct (first_apply ctor m) as [[ncmd p]|] eqn:Hs.
        * destruct (execute_applied ctor m Hs) as (_ & _ & Hn & _).
          destruct (execute_settled ctor m Hs)
            as (mr & He & Hu & Hr & _).
          rewrite He, Hn.
          destruct (settled p) as [r|e]; cbn [snd].
          -- destruct (rearm_fields
                         (set_busy false (apply_result ncmd r mr)))
               as (Ru & Rr & _).
             rewrite Ru, Rr.
             change (undoCommands
                       (this (set_busy false (apply_result ncmd r mr))))
               with (undoCommands (this (apply_result ncmd r mr))).
             change (redoCommands
                       (this (set_busy false (apply_result ncmd r mr))))
               with (redoCommands (this (apply_result ncmd r mr))).
             destruct (apply_result_fields ncmd r mr) as (_ & _ & _ & _ & A).
             destruct r; destruct A as (Au & Ar & _);
               rewrite Au, Ar, ?Hu, ?Hr.
             ++ exists (redoCommands (this m)). cbn [app].
                apply Permutation_sym, top_dropped.
             ++ apply drawn_from_more, drawn_from_all.
             ++ exists (ncmd :: undoCommands (this m)
                          ++ redoCommands (this m)).
                apply Permutation_refl.
          -- rewrite Hu, Hr. apply drawn_from_more, drawn_from_all.
        * apply drawn_from_more.
          destruct (execute_returned ctor m Hb Hs) as (_ & _ & Rr & _).
          rewrite Rr.
          destruct (execute_returned_undo ctor m Hb Hs) as [Ru|(lcmd & Ru)].
          -- rewrite Ru. apply drawn_from_all.
          -- rewrite Ru.
             apply (drawn_from_perm (top_dropped lcmd _ _)).
             apply drawn_from_more, drawn_from_all.
      + destruct (undo_stacks levels m Hb) as (_ & Su & Sr).
        rewrite Su, Sr.
        pose proof (undo_loop_conserves (rev (undoCommands (this m))) levels
                      (set_busy true m)) as L.
        rewrite rev_involutive in L. apply L. reflexivity.
      + destruct (redo_stacks levels m Hb) as (_ & Su & Sr).
        rewrite Su, Sr.
        pose proof (redo_loop_conserves (rev (redoCommands (this m))) levels
                      (set_busy true m)) as L.
        rewrite rev_involutive in L. apply L. reflexivity.
      + unfold pop. rewrite Hb. cbn [snd].
        change (undoCommands (this (set_undoCommands ?v m))) with v.
        change (redoCommands (this (set_undoCommands ?v m)))
          with (redoCommands (this m)).
        destruct (pop_array (undoCommands (this m))) as [[c|] rest] eqn:Hp.
        * apply pop_array_some in Hp. unfold push in Hp. rewrite Hp.
          cbn [snd].
          apply (drawn_from_perm (top_dropped c _ _)).
          apply drawn_from_more, drawn_from_all.
        * destruct (undoCommands (this m)) as [|c0 l0] eqn:Hu0.
          -- cbn in Hp. inversion Hp. apply drawn_from_all.
          -- exfalso. revert Hp. unfold pop_array.
             destruct (rev (c0 :: l0)) eqn:Hrev; [|discriminate].
             apply (f_equal (@length _)) in Hrev.
             rewrite length_rev in Hrev. discriminate.
      + unfold clear. rewrite Hb. cbn [snd].
        exists (undoCommands (this m) ++ redoCommands (this m)).
        apply Permutation_refl.
      + apply drawn_from_all.
      + destruct (interleave_disturbed m (TimerFired id))
          as (Du & Dr & _). cbn [interleave snd] in *.
        rewrite Du, Dr. apply drawn_from_all. }
  split; [exact Hd|]. apply drawn_from_nodup, Hd.
Qed.

(** ** [clear] *)

(** [clear] on an idle engine forgets every command without invoking any:
    both counts are zero and both descriptions are ["None"], while the
    world, the coalescence flag and the pending timeout are as before.
    Afterwards [execute] goes straight to the first-time-apply of its
    command, whatever the flag, and [undo] and [redo] find nothing to do. *)
Theorem clear_forgets_without_invoking (m : Machine) :
  _busy (this m) = false ->
  let m' := snd (clear m) in
  fst (clear m) = Done /\
  undoCount m' = 0%nat /\ redoCount m' = 0%nat /\
  undoDescription m' = "None"%string /\
  redoDescription m' = "None"%string /\
  calls m' = calls m /\ world m' = world m /\
  can_coalesce (this m') = can_coalesce (this m) /\
  timers m' = timers m /\ timeoutId (this m') = timeoutId (this m) /\
  (forall ctor, applies_directly ctor m') /\
  (forall levels,
     fst (undo levels m') = Done /\
     undoCommands (this (snd (undo levels m'))) = [] /\
     redoCommands (this (snd (undo levels m'))) = [] /\
     calls (snd (undo levels m')) = calls m ++ [Call_cleanup]) /\
  (forall levels,
     fst (redo levels m') = Done /\
     undoCommands (this (snd (redo levels m'))) = [] /\
     redoCommands (this (snd (redo levels m'))) = [] /\
     calls (snd (redo levels m')) = calls m ++ [Call_cleanup]).
Proof.
  intros Hb m'. subst m'. unfold clear. rewrite Hb. cbn [fst snd].
  set (m' := set_redoCommands [] (set_undoCommands [] m)).
  assert (Hb' : _busy (this m') = false) by exact Hb.
  do 10 (split; [reflexivity|]).
  split; [|split].
  - intros ctor. apply no_incumbent_applies_directly; [exact Hb'|].
    right. reflexivity.
  - intros levels.
    destruct (undo_stacks levels m' Hb') as (Sf & Su & Sr).
    pose proof (undo_calls levels m' Hb') as Uc. cbv zeta in Uc, Sf, Su, Sr.
    change (undoCommands (this m')) with (@nil Cmd) in *.
    cbn [rev undo_loop fst snd] in *.
    rewrite Sf, Su, Sr, Uc. repeat split.
  - intros levels.
    destruct (redo_stacks levels m' Hb') as (Sf & Su & Sr).
    pose proof (redo_calls levels m' Hb') as Rc. cbv zeta in Rc, Sf, Su, Sr.
    change (redoCommands (this m')) with (@nil Cmd) in *.
    cbn [rev redo_loop fst snd] in *.
    rewrite Sf, Su, Sr, Rc. repeat split.
Qed.

(** ** What a verbose engine prints *)

Lemma info_console (msg : string) (m : Machine) :
  verbose (this m) = true -> console (info msg m) = console m ++ [msg].
Proof. intros Hv. unfold info. rewrite Hv. reflexivity. Qed.

Lemma rearm_console (m : Machine) : console (rearm m) = console m.
Proof.
  unfold rearm.
  destruct (timeoutId (this m)) as [id|];
    fields; destruct (coalescenceWindow (this m) >? 0); reflexivity.
Qed.

Lemma after_loop_console (r : Completion * Machine) :
  console (snd (after_loop r)) = console (snd r).
Proof. destruct r as [[|e] m]; reflexivity. Qed.

Lemma awaited_console (A : Type) (p : Promise World A) (call : Call)
  (m : Machine) :
  console (await p (log_call call m)) = console m /\
  verbose (this (await p (log_call call m))) = verbose (this m) /\
  world (await p (log_call call m)) = world_after p.
Proof.
  destruct (await_fields p (log_call call m))
    as (_ & _ & _ & _ & _ & Av & Aw & Ac & _).
  rewrite Av, Ac, Aw. repeat split.
Qed.

Lemma apply_result_console (ncmd : Cmd) (r : CommandResult) (m : Machine) :
  verbose (this m) = true ->
  exists line,
    console (apply_result ncmd r m) = console m ++ [line] /\
    (r = ADD ->
     line = ("Added " ++ description ncmd (world m)
             ++ " to undo stack.")%string).
Proof.
  intros Hv. destruct r; unfold apply_result; cbv zeta; eexists;
    (split; [rewrite <- (info_console _ m Hv); reflexivity|]).
  - intros _. reflexivity.
  - discriminate.
  - discriminate.
Qed.

Lemma coalescence_block_console (ncmd : Cmd) (m : Machine) :
  verbose (this m) = true ->
  match fst (coalescence_block ncmd m) with
  | Proceed => console (snd (coalescence_block ncmd m)) = console m
  | Return =>
      exists line, console (snd (coalescence_block ncmd m))
                   = console m ++ [line]
  end.
Proof.
  intros Hv. unfold coalescence_block.
  destruct (can_coalesce (this m)); [|reflexivity].
  destruct (pop_array (undoCommands (this m))) as [[lcmd|] rest];
    [|reflexivity].
  destruct (coalesce lcmd) as [merge|]; [|reflexivity].
  cbv zeta.
  destruct (merge ncmd (world (set_undoCommands rest m))) as [[| |] w];
    cbn [fst snd].
  - reflexivity.
  - eexists. rewrite info_console; [reflexivity|exact Hv].
  - eexists. rewrite info_console; [reflexivity|exact Hv].
Qed.

Lemma execute_console (ctor : World -> Cmd * World) (m : Machine) :
  _busy (this m) = false ->
  verbose (this m) = true ->
  match fst (execute ctor m) with
  | Done =>
      exists line, console (snd (execute ctor m)) = console m ++ [line]
  | Failed _ => console (snd (execute ctor m)) = console m
  end.
Proof.
  intros Hb Hv. unfold execute. rewrite Hb. cbv zeta.
  change (world (set_busy true m)) with (world m).
  destruct (ctor (world m)) as [ncmd w].
  pose proof (coalescence_block_console ncmd
                (set_world w (set_busy true m)) Hv) as B.
  pose proof (coalescence_block_fields ncmd
                (set_world w (set_busy true m))) as F.
  destruct (coalescence_block ncmd (set_world w (set_busy true m)))
    as [[|] m2]; cbn [fst snd] in *; [|exact B].
  destruct F as (_ & _ & _ & _ & (_ & _ & Fv) & _).
  change (verbose (this (set_world w (set_busy true m))))
    with (verbose (this m)) in Fv.
  change (console (set_world w (set_busy true m))) with (console m) in B.
  destruct (awaited_console (cmd_execute ncmd (world m2))
              (Call_execute ncmd) m2) as (Ac & Av & _).
  destruct (settled (cmd_execute ncmd (world m2))) as [r|e]; cbn [fst snd].
  - rewrite rearm_console.
    change (console (set_busy false ?x)) with (console x).
    destruct (apply_result_console ncmd r
                (await (cmd_execute ncmd (world m2))
                   (log_call (Call_execute ncmd) m2)))
      as (line & Hl & _); [congruence|].
    exists line. rewrite Hl. congruence.
  - congruence.
Qed.

Lemma undo_loop_console (top_first : list Cmd) :
  forall (levels : Z) (m : Machine),
    verbose (this m) = true ->
    (length (console (snd (undo_loop top_first levels m)))
     + length (redoCommands (this m))
     = length (console m)
       + length (redoCommands (this (snd (undo_loop top_first levels m)))))
    %nat.
Proof.
  induction top_first as [|command below IH]; intros levels m Hv;
    cbn [undo_loop].
  - cbn [snd]. lia.
  - destruct (levels >? 0) eqn:Hl; [|cbn [snd]; lia].
    change (world (set_undoCommands (rev below) m)) with (world m).
    destruct (isNoop command (world m)).
    + exact (IH levels (set_undoCommands (rev below) m) Hv).
    + destruct (awaited_console (cmd_undo command (world m))
                  (Call_undo command) (set_undoCommands (rev below) m))
        as (Ac & Av & _).
      change (console (set_undoCommands (rev below) m))
        with (console m) in Ac.
      change (verbose (this (set_undoCommands (rev below) m)))
        with (verbose (this m)) in Av.
      destruct (settled (cmd_undo command (world m))) as [[]|e].
      * match goal with
        | |- context [undo_loop below (levels - 1) (push_redo _ (info ?msg ?x))] =>
            specialize (IH (levels - 1) (push_redo command (info msg x)));
            destruct (moved_to_redo command msg
                        (cmd_undo command (world m))
                        (Call_undo command) (rev below) m) as (_ & Mr);
            pose proof (info_console msg x) as Ic;
            pose proof (info_this msg x) as It
        end.
        rewrite Mr in IH.
        change (console (push_redo command ?y)) with (console y) in IH.
        rewrite Ic, Ac in IH by congruence.
        rewrite !length_app in IH. cbn [length] in IH.
        assert (Hv' : verbose (this m) = true) by exact Hv.
        match type of IH with
        | ?a -> _ => assert (Ha : a)
        end.
        { unfold push_redo, set_redoCommands. cbn [this set_this verbose
            h_set_redoCommands]. rewrite It. congruence. }
        specialize (IH Ha). lia.
      * cbn [snd].
        destruct (popped_from_undo (cmd_undo command (world m))
                    (Call_undo command) (rev below) m) as (_ & Pr).
        rewrite Pr, Ac. lia.
Qed.

Lemma redo_loop_console (top_first : list Cmd) :
  forall (levels : Z) (m : Machine),
    verbose (this m) = true ->
    (length (console (snd (redo_loop top_first levels m)))
     + length (undoCommands (this m))
     = length (console m)
       + length (undoCommands (this (snd (redo_loop top_first levels m)))))
    %nat.
Proof.
  induction top_first as [|command below IH]; intros levels m Hv;
    cbn [redo_loop].
  - cbn [snd]. lia.
  - destruct (levels >? 0) eqn:Hl; [|cbn [snd]; lia].
    change (world (set_redoCommands (rev below) m)) with (world m).
    destruct (awaited_console (cmd_redo command (world m))
                (Call_redo command) (set_redoCommands (rev below) m))
      as (Ac & Av & _).
    change (console (set_redoCommands (rev below) m))
      with (console m) in Ac.
    change (verbose (this (set_redoCommands (rev below) m)))
      with (verbose (this m)) in Av.
    destruct (settled (cmd_redo command (world m))) as [[]|e].
    + match goal with
      | |- context [redo_loop below (levels - 1) (push_undo _ (info ?msg ?x))] =>
          specialize (IH (levels - 1) (push_undo command (info msg x)));
          destruct (moved_to_undo command msg
                      (cmd_redo command (world m))
                      (Call_redo command) (rev below) m) as (Mu & _);
          pose proof (info_console msg x) as Ic;
          pose proof (info_this msg x) as It
      end.
      rewrite Mu in IH.
      change (console (push_undo command ?y)) with (console y) in IH.
      rewrite Ic, Ac in IH by congruence.
      rewrite !length_app in IH. cbn [length] in IH.
      match type of IH with
      | ?a -> _ => assert (Ha : a)
      end.
      { unfold push_undo, set_undoCommands. cbn [this set_this verbose
          h_set_undoCommands]. rewrite It. congruence. }
      specialize (IH Ha). lia.
    + cbn [snd].
      destruct (popped_from_redo (cmd_redo command (world m))
                  (Call_redo command) (rev below) m) as (Pu & _).
      rewrite Pu, Ac. lia.
Qed.

(** A verbose engine prints one line per step.  On an idle engine with
    [verbose] set, a call of [execute] that completes prints exactly one
    line, whichever way it went, and one that fails prints none; the line
    for a command that asked to be added is the one of the source, with the
    description read once the first-time-apply has settled.  [undo] prints
    as many lines as commands it moves to the redo stack, and [redo] as many
    as it moves to the undo stack: a command skipped as a no-op, or whose
    operation rejects, is not reported. *)
Theorem verbose_prints_one_line_per_step (m : Machine) :
  _busy (this m) = false ->
  verbose (this m) = true ->
  (forall ctor,
     match fst (execute ctor m) with
     | Done =>
         exists line, console (snd (execute ctor m)) = console m ++ [line]
     | Failed _ => console (snd (execute ctor m)) = console m
     end) /\
  (forall ctor ncmd p,
     first_apply ctor m = Some (ncmd, p) ->
     settled p = Resolved ADD ->
     console (snd (execute ctor m))
     = console m ++ [("Added " ++ description ncmd (world_after p)
                      ++ " to undo stack.")%string]) /\
  (forall levels,
     (length (console (snd (undo levels m)))
      + length (redoCommands (this m))
      = length (console m)
        + length (redoCommands (this (snd (undo levels m)))))%nat) /\
  (forall levels,
     (length (console (snd (redo levels m)))
      + length (undoCommands (this m))
      = length (console m)
        + length (undoCommands (this (snd (redo levels m)))))%nat).
Proof.
  intros Hb Hv. split; [|split; [|split]].
  - intros ctor. exact (execute_console ctor m Hb Hv).
  - intros ctor ncmd p Hs Hadd.
    destruct (execute_applied ctor m Hs) as (m2 & _ & _ & Hblock & Hp & He).
    rewrite He, Hadd. cbn [snd].
    pose proof (coalescence_block_console ncmd
                  (set_world (snd (ctor (world m))) (set_busy true m)) Hv)
      as B.
    pose proof (coalescence_block_fields ncmd
                  (set_world (snd (ctor (world m))) (set_busy true m))) as F.
    rewrite Hblock in B, F. cbn [fst snd] in B, F.
    destruct F as (_ & _ & _ & _ & (_ & _ & Fv) & _).
    destruct (awaited_console p (Call_execute ncmd) m2) as (Ac & Av & Aw).
    rewrite rearm_console.
    change (console (set_busy false ?x)) with (console x).
    destruct (apply_result_console ncmd ADD
                (await p (log_call (Call_execute ncmd) m2)))
      as (line & Hl & Hline).
    { rewrite Av, Fv. exact Hv. }
    rewrite Hl, (Hline eq_refl), Ac, Aw, B. reflexivity.
  - intros levels. rewrite (undo_unfold levels m Hb), after_loop_console.
    pose proof (undo_loop_console (rev (undoCommands (this m))) levels
                  (set_busy true m) Hv) as L.
    destruct (undo_stacks levels m Hb) as (_ & _ & Sr).
    rewrite <- (undo_unfold levels m Hb), Sr. exact L.
  - intros levels. rewrite (redo_unfold levels m Hb), after_loop_console.
    pose proof (redo_loop_console (rev (redoCommands (this m))) levels
                  (set_busy true m) Hv) as L.
    destruct (redo_stacks levels m Hb) as (_ & Su & _).
    rewrite <- (redo_unfold levels m Hb), Su. exact L.
Qed.

(** ** A busy engine *)

Lemma busy_run_disturbed (op : Op) (m : Machine) :
  _busy (this m) = true -> disturbed m (snd (run op m)).
Proof.
  intros Hb. destruct (exclusive op) eqn:Hx.
  - destruct (busy_run_unchanged op m Hx Hb) as (e & _ & Hrun).
    rewrite Hrun. apply disturbed_refl.
  - destruct op as [ctor|levels|levels| | | |id]; try discriminate Hx;
      cbn [run snd].
    + exact (interleave_disturbed m BarrierCalled).
    + exact (interleave_disturbed m (TimerFired id)).
Qed.

Lemma busy_run_all_disturbed (ops : list Op) :
  forall m, _busy (this m) = true -> disturbed m (run_all ops m).
Proof.
  induction ops as [|op ops IH]; intros m Hb.
  - apply disturbed_refl.
  - change (run_all (op :: ops) m) with (run_all ops (snd (run op m))).
    pose proof (busy_run_disturbed op m Hb) as D.
    apply (disturbed_trans D). apply IH.
    destruct D as (_ & _ & Db & _). rewrite Db. exact Hb.
Qed.

(** A busy engine never recovers: no call releases a busy flag that it did
    not set.  Whatever calls follow, the engine is still busy, its stacks,
    the world, the console and the command operations invoked are as they
    were, and the next call of [execute], [undo], [redo], [pop] or [clear]
    fails with a concurrency error. *)
Theorem busy_engine_never_recovers (ops : list Op) (m : Machine) :
  _busy (this m) = true ->
  let m' := run_all ops m in
  _busy (this m') = true /\
  undoCommands (this m') = undoCommands (this m) /\
  redoCommands (this m') = redoCommands (this m) /\
  world m' = world m /\ console m' = console m /\ calls m' = calls m /\
  (forall op, exclusive op = true ->
     exists error,
       In error concurrency_violations /\ run op m' = (Failed error, m')).
Proof.
  intros Hb m'. subst m'.
  destruct (busy_run_all_disturbed ops m Hb)
    as (Du & Dr & Db & _ & _ & _ & Dw & Dc & Dk & _).
  rewrite Db in *.
  split; [exact Hb|]. split; [exact Du|]. split; [exact Dr|].
  split; [exact Dw|]. split; [exact Dc|]. split; [exact Dk|].
  intros op Hx. apply busy_run_unchanged; [exact Hx|].
  rewrite Db. exact Hb.
Qed.

(** ** A fractional [levels] *)

Lemma is_positive_ceiling (levels : Q) :
  is_positive levels = (Qceiling levels >? 0).
Proof.
  unfold is_positive.
  destruct (Qle_bool levels 0) eqn:Hle; cbn [negb]; symmetry.
  - apply Qle_bool_iff in Hle. apply Qceiling_resp_le in Hle.
    change (Qceiling 0) with 0 in Hle.
    destruct (Z.gtb_spec (Qceiling levels) 0); [lia|reflexivity].
  - apply Z.gtb_lt.
    destruct (Z_lt_le_dec 0 (Qceiling levels)) as [Hpos|Hneg]; [exact Hpos|].
    exfalso. assert (Hq : (levels <= 0)%Q).
    { apply Qle_trans with (inject_Z (Qceiling levels)).
      - apply Qle_ceiling.
      - change 0%Q with (inject_Z 0). rewrite <- Zle_Qle. exact Hneg. }
    apply Qle_bool_iff in Hq. congruence.
Qed.

Lemma ceiling_pred (levels : Q) :
  Qceiling (levels - 1) = Qceiling levels - 1.
Proof.
  destruct levels as [n d]. unfold Qceiling, Qfloor, Qminus, Qplus, Qopp.
  cbn [Qnum Qden].
  replace (- (n * 1 + - (1) * Z.pos d)) with (- n + 1 * Z.pos d) by ring.
  replace (Z.pos (d * 1)) with (Z.pos d) by (rewrite Pos.mul_1_r; reflexivity).
  rewrite Z.div_add by discriminate. ring.
Qed.

Lemma undo_loop_number_ceiling (top_first : list Cmd) :
  forall (levels : Q) (m : Machine),
    undo_loop_number top_first levels m
    = undo_loop top_first (Qceiling levels) m.
Proof.
  induction top_first as [|command below IH]; intros levels m;
    cbn [undo_loop_number undo_loop]; [reflexivity|].
  rewrite is_positive_ceiling.
  destruct (Qceiling levels >? 0); [|reflexivity].
  cbv zeta. rewrite !IH, ceiling_pred. reflexivity.
Qed.

Lemma redo_loop_number_ceiling (top_first : list Cmd) :
  forall (levels : Q) (m : Machine),
    redo_loop_number top_first levels m
    = redo_loop top_first (Qceiling levels) m.
Proof.
  induction top_first as [|command below IH]; intros levels m;
    cbn [redo_loop_number redo_loop]; [reflexivity|].
  rewrite is_positive_ceiling.
  destruct (Qceiling levels >? 0); [|reflexivity].
  cbv zeta. rewrite !IH, ceiling_pred. reflexivity.
Qed.

(** The loops only test [levels > 0] and decrement, so a fractional
    [levels] counts as the next integer above: [undo(levels)] and
    [redo(levels)] on any number are the calls with the ceiling of
    [levels], and on an integer the calls with that integer. *)
Theorem fractional_levels_round_up (levels : Q) (m : Machine) :
  undo_number levels m = undo (Qceiling levels) m /\
  redo_number levels m = redo (Qceiling levels) m /\
  (forall z : Z,
      undo_number (inject_Z z) m = undo z m /\
      redo_number (inject_Z z) m = redo z m).
Proof.
  assert (Hu : forall q, undo_number q m = undo (Qceiling q) m).
  { intros q. unfold undo_number, undo.
    rewrite undo_loop_number_ceiling. reflexivity. }
  assert (Hr : forall q, redo_number q m = redo (Qceiling q) m).
  { intros q. unfold redo_number, redo.
    rewrite redo_loop_number_ceiling. reflexivity. }
  split; [apply Hu|]. split; [apply Hr|].
  intros z. rewrite Hu, Hr, Qceiling_Z. split; reflexivity.
Qed.

End Properties.

(** * The engine on scripted commands *)

Import Scripted.

Lemma reachable_fresh (ops : list Op) (o : Options) :
  reachable o 0 (run_all ops (fresh o)).
Proof. apply reachable_run_all, reachable_boot. Qed.

Lemma plain_exact_inverses (name : string) (d : Z) :
  exact_inverses (plain name d).
Proof. intros w. simpl. repeat split; lia. Qed.

Lemma plain_never_noop (name : string) (d : Z) : never_noop (plain name d).
Proof. intros w. reflexivity. Qed.

Lemma hollow_exact_inverses (name : string) : exact_inverses (hollow name).
Proof. intros w. simpl. repeat split; lia. Qed.

(** ** The busy flag *)

(** C1.  The busy flag is not released on every exit path.  After
    [typing] absorbs [ins_b] ([COALESCED]) and after [retype] cancels with it
    ([UNDONE]) the call of [execute] completes with the flag still set, and
    the next call is refused; the flag also stays set when a reverse or a
    first-time-apply rejects. *)
Theorem busy_flag_left_set :
  (_busy (this after_typing) = false /\
   fst (execute (make ins_b) after_typing) = Done /\
   _busy (this (snd (execute (make ins_b) after_typing))) = true /\
   fst (undo 1 (snd (execute (make ins_b) after_typing)))
   = Failed "Cannot undo during another operation.") /\
  (_busy (this after_retype) = false /\
   fst (execute (make ins_b) after_retype) = Done /\
   _busy (this (snd (execute (make ins_b) after_retype))) = true /\
   fst (execute (make ins_c) (snd (execute (make ins_b) after_retype)))
   = Failed "Cannot execute command during another operation.") /\
  (_busy (this after_locked_b) = false /\
   fst (undo 2 after_locked_b) = Failed "cannot reverse" /\
   _busy (this (snd (undo 2 after_locked_b))) = true) /\
  (_busy (this (fresh defaults)) = false /\
   fst (execute (make (broken "K")) (fresh defaults)) = Failed "cannot apply" /\
   _busy (this (snd (execute (make (broken "K")) (fresh defaults)))) = true).
Proof. vm_compute. repeat split. Qed.

(** ** The coalescence flag *)

(** C2, as stated, fails: a freshly constructed engine has its coalescence
    flag set. *)
Lemma fresh_engine_is_eligible :
  can_coalesce (new_CommandHistory (Cmd := Script) defaults) = true /\
  can_coalesce (this (fresh defaults)) = true.
Proof. split; reflexivity. Qed.

Lemma flag_starts_true_raised_only_by_ADD_witness :
  can_coalesce (this (fresh defaults)) = true /\
  (can_coalesce (this after_a_b_undo) = false /\
   can_coalesce (this (snd (run (OpExecute (make ins_c)) after_a_b_undo)))
   = true) /\
  exists ctor ncmd p,
    OpExecute (make ins_c) = OpExecute ctor /\
    first_apply ctor after_a_b_undo = Some (ncmd, p) /\
    settled p = Resolved ADD /\
    fst (run (OpExecute (make ins_c)) after_a_b_undo) = Done.
Proof.
  destruct (@flag_starts_true_raised_only_by_ADD Z Script _) as (Hinit & Hraise).
  split; [exact (Hinit defaults 0)|].
  split; [split; vm_compute; reflexivity|].
  apply Hraise; vm_compute; reflexivity.
Defined.

(** C9, as stated, fails: [undo(2)] reverses [ins_b], then is rejected by
    [locked]; the redo stack holds [ins_b] and the flag is still set. *)
Lemma eligible_engine_with_redo :
  reachable defaults 0 after_rejected_undo /\
  can_coalesce (this after_rejected_undo) = true /\
  redoCommands (this after_rejected_undo) = [ins_b].
Proof.
  split; [|split; vm_compute; reflexivity].
  exact (reachable_fresh
           [OpExecute (make locked); OpExecute (make ins_b); OpUndo 2]
           defaults).
Qed.

Lemma eligible_engine_has_no_redo_witness :
  (reachable defaults 0 after_a /\
   _busy (this after_a) = false /\
   can_coalesce (this after_a) = true) /\
  redoCommands (this after_a) = [].
Proof.
  assert (Hr : reachable defaults 0 after_a).
  { exact (reachable_fresh [OpExecute (make ins_a)] defaults). }
  split; [split; [exact Hr | split; vm_compute; reflexivity]|].
  destruct (@eligible_engine_has_no_redo Z Script _) as (_ & _ & Hall).
  apply (Hall defaults 0 after_a Hr); vm_compute; reflexivity.
Defined.

Lemma eligible_idle_engine_has_no_redo_witness :
  (reachable defaults 0 after_a_b /\
   _busy (this after_a_b) = false /\
   can_coalesce (this after_a_b) = true) /\
  redoCommands (this after_a_b) = [].
Proof.
  assert (Hr : reachable defaults 0 after_a_b).
  { exact (reachable_fresh
             [OpExecute (make ins_a); OpExecute (make ins_b)] defaults). }
  split; [split; [exact Hr | split; vm_compute; reflexivity]|].
  apply (eligible_idle_engine_has_no_redo Hr); vm_compute; reflexivity.
Defined.

(** ** Calls on a busy engine *)

Lemma busy_call_fails_unchanged_witness :
  (exclusive (World := Z) (Cmd := Script) (OpUndo 1) = true /\
   _busy (this after_typing_b) = true) /\
  exists error,
    In error concurrency_violations /\
    run (OpUndo 1) after_typing_b = (Failed error, after_typing_b) /\
    undoCommands (this (snd (run (OpUndo 1) after_typing_b)))
    = undoCommands (this after_typing_b) /\
    redoCommands (this (snd (run (OpUndo 1) after_typing_b)))
    = redoCommands (this after_typing_b) /\
    undoCount (snd (run (OpUndo 1) after_typing_b)) = undoCount after_typing_b /\
    redoCount (snd (run (OpUndo 1) after_typing_b)) = redoCount after_typing_b /\
    can_coalesce (this (snd (run (OpUndo 1) after_typing_b)))
    = can_coalesce (this after_typing_b).
Proof.
  split; [split; vm_compute; reflexivity|].
  apply (busy_call_fails_unchanged (OpUndo 1) after_typing_b);
    vm_compute; reflexivity.
Defined.

(** ** [pop] *)

Lemma pop_frame_witness :
  (_busy (this after_a_b_undo) = false /\
   _busy (this (fresh defaults)) = false /\
   undoCommands (this (fresh defaults)) = []) /\
  (fst (pop after_a_b_undo) = Done /\
   redoCommands (this (snd (pop after_a_b_undo))) = [ins_b] /\
   can_coalesce (this (snd (pop after_a_b_undo))) = false /\
   _busy (this (snd (pop after_a_b_undo))) = false) /\
  pop (fresh defaults) = (Done, fresh defaults).
Proof.
  assert (Hidle : _busy (this after_a_b_undo) = false)
    by (vm_compute; reflexivity).
  split; [split; [exact Hidle | split; reflexivity]|].
  split.
  - destruct (pop_frame after_a_b_undo Hidle) as (Hd & Hr & Hf & Hb & _).
    split; [exact Hd|]. split; [rewrite Hr; vm_compute; reflexivity|].
    split; [rewrite Hf; vm_compute; reflexivity|].
    rewrite Hb; exact Hidle.
  - destruct (pop_frame (fresh defaults) eq_refl) as (_ & _ & _ & _ & He).
    exact (He eq_refl).
Defined.

(** ** [execute] *)

Lemma execute_UNDONE_drops_both_witness :
  (_busy (this after_retype) = false /\
   can_coalesce (this after_retype) = true /\
   undoCommands (this after_retype) = [] ++ [retype] /\
   make ins_b (world after_retype) = (ins_b, 1) /\
   coalesce retype = Some (fun (_ : Script) (w : Z) => (UNDONE, w)) /\
   NoDup (undoCommands (this after_retype)
          ++ redoCommands (this after_retype)) /\
   ~ In ins_b (undoCommands (this after_retype)
               ++ redoCommands (this after_retype))) /\
  fst (execute (make ins_b) after_retype) = Done /\
  undoCommands (this (snd (execute (make ins_b) after_retype))) = [] /\
  redoCommands (this (snd (execute (make ins_b) after_retype)))
  = redoCommands (this after_retype) /\
  calls (snd (execute (make ins_b) after_retype))
  = calls after_retype ++ [Call_coalesce retype ins_b] /\
  world (snd (execute (make ins_b) after_retype)) = 1 /\
  timers (snd (execute (make ins_b) after_retype)) = timers after_retype /\
  timeoutId (this (snd (execute (make ins_b) after_retype)))
  = timeoutId (this after_retype) /\
  ~ In retype (undoCommands (this (snd (execute (make ins_b) after_retype)))
               ++ redoCommands
                    (this (snd (execute (make ins_b) after_retype)))) /\
  ~ In ins_b (undoCommands (this (snd (execute (make ins_b) after_retype)))
              ++ redoCommands
                   (this (snd (execute (make ins_b) after_retype)))).
Proof.
  assert (Hnodup : NoDup (undoCommands (this after_retype)
                          ++ redoCommands (this after_retype))).
  { vm_compute. constructor; [intros [] | constructor]. }
  assert (Hnew : ~ In ins_b (undoCommands (this after_retype)
                             ++ redoCommands (this after_retype))).
  { vm_compute. intros [Heq|[]]. discriminate Heq. }
  split.
  - do 5 (split; [vm_compute; reflexivity|]). split; assumption.
  - destruct (execute_UNDONE_drops_both (make ins_b) after_retype [] retype
                (ncmd := ins_b) (w1 := 1) (w2 := 1)
                (merge := fun (_ : Script) (w : Z) => (UNDONE, w)))
      as (Hd & Hu & Hr & Hcalls & Hw & Ht & Hid & Hold & Hfresh);
      try (vm_compute; reflexivity).
    do 7 (split; [assumption|]).
    split; [exact (Hold Hnodup) | exact (Hfresh Hnew)].
Defined.

Lemma execute_ADD_wipes_redo_NOOP_keeps_it_witness :
  (first_apply (make ins_c) after_a_b_undo
   = Some (ins_c, cmd_execute ins_c 1) /\
   settled (cmd_execute ins_c 1) = Resolved ADD /\
   first_apply (make nothing) after_a_b_undo
   = Some (nothing, cmd_execute nothing 1) /\
   settled (cmd_execute nothing 1) = Resolved NOOP /\
   redoCommands (this after_a_b_undo) = [ins_b]) /\
  (fst (execute (make ins_c) after_a_b_undo) = Done /\
   undoCommands (this (snd (execute (make ins_c) after_a_b_undo)))
   = undoCommands (this after_a_b_undo) ++ [ins_c] /\
   redoCommands (this (snd (execute (make ins_c) after_a_b_undo))) = []) /\
  (fst (execute (make nothing) after_a_b_undo) = Done /\
   undoCommands (this (snd (execute (make nothing) after_a_b_undo)))
   = undoCommands (this after_a_b_undo) /\
   redoCommands (this (snd (execute (make nothing) after_a_b_undo)))
   = redoCommands (this after_a_b_undo)).
Proof.
  assert (Hc : first_apply (make ins_c) after_a_b_undo
               = Some (ins_c, cmd_execute ins_c 1))
    by (vm_compute; reflexivity).
  assert (Hn : first_apply (make nothing) after_a_b_undo
               = Some (nothing, cmd_execute nothing 1))
    by (vm_compute; reflexivity).
  split; [repeat split; try assumption; vm_compute; reflexivity|].
  split.
  - exact (proj1 (execute_ADD_wipes_redo_NOOP_keeps_it
                    (make ins_c) after_a_b_undo Hc) eq_refl).
  - exact (proj2 (execute_ADD_wipes_redo_NOOP_keeps_it
                    (make nothing) after_a_b_undo Hn) eq_refl).
Defined.

(** C8, as stated, fails: with a window of zero a [NOOP] execute on a fresh
    engine lowers the flag; with the default window it is lowered when the
    timer expires while the first-time-apply is pending. *)
Lemma execute_NOOP_lowers_flag :
  (first_apply (make nothing) (fresh (window 0))
   = Some (nothing, cmd_execute nothing 0) /\
   settled (cmd_execute nothing 0) = Resolved NOOP /\
   can_coalesce (this (fresh (window 0))) = true /\
   can_coalesce (this (snd (execute (make nothing) (fresh (window 0)))))
   = false) /\
  (first_apply (make nothing_late) after_a
   = Some (nothing_late, cmd_execute nothing_late 1) /\
   settled (cmd_execute nothing_late 1) = Resolved NOOP /\
   coalescenceWindow (this after_a) = 3000 /\
   can_coalesce (this after_a) = true /\
   can_coalesce (this (snd (execute (make nothing_late) after_a))) = false).
Proof. split; repeat split; vm_compute; reflexivity. Qed.

Lemma execute_NOOP_frame_witness :
  (first_apply (make nothing) after_a = Some (nothing, cmd_execute nothing 1) /\
   settled (cmd_execute nothing 1) = Resolved NOOP /\
   0 < coalescenceWindow (this after_a) /\
   meanwhile (cmd_execute nothing 1) = [] /\
   first_apply (make nothing) (fresh (window 0))
   = Some (nothing, cmd_execute nothing 0) /\
   settled (cmd_execute nothing 0) = Resolved NOOP /\
   coalescenceWindow (this (fresh (window 0))) <= 0) /\
  (fst (execute (make nothing) after_a) = Done /\
   undoCommands (this (snd (execute (make nothing) after_a)))
   = undoCommands (this after_a) /\
   redoCommands (this (snd (execute (make nothing) after_a)))
   = redoCommands (this after_a) /\
   can_coalesce (this (snd (execute (make nothing) after_a)))
   = can_coalesce (this after_a)) /\
  can_coalesce (this (snd (execute (make nothing) (fresh (window 0))))) = false.
Proof.
  assert (Ha : first_apply (make nothing) after_a
               = Some (nothing, cmd_execute nothing 1))
    by (vm_compute; reflexivity).
  assert (Hz : first_apply (make nothing) (fresh (window 0))
               = Some (nothing, cmd_execute nothing 0))
    by (vm_compute; reflexivity).
  assert (Hpos : 0 < coalescenceWindow (this after_a))
    by (vm_compute; reflexivity).
  assert (Hnonpos : coalescenceWindow (this (fresh (window 0))) <= 0)
    by (vm_compute; discriminate).
  split; [repeat split; try assumption; vm_compute; reflexivity|].
  split.
  - destruct (execute_NOOP_frame (make nothing) after_a Ha eq_refl)
      as (Hd & Hu & Hr & Hquiet & _).
    split; [exact Hd|]. split; [exact Hu|]. split; [exact Hr|].
    exact (Hquiet Hpos eq_refl).
  - destruct (execute_NOOP_frame (make nothing) (fresh (window 0)) Hz eq_refl)
      as (_ & _ & _ & _ & _ & Hlow).
    exact (Hlow Hnonpos).
Defined.

(** ** [undo] and [redo] *)

(** C4, as stated, fails.  With a no-op on the undo stack, [undo(1)] drops
    it on its way to [ins_a] and [redo(1)] brings back [ins_a] alone.  With
    an empty undo stack and [ins_a] on the redo stack, [undo(1)] moves
    nothing and [redo(1)] moves [ins_a].  In both cases every command's
    reverse and reapply are exact inverses. *)
Lemma undo_then_redo_changes_stacks :
  ((forall c, In c (undoCommands (this after_a_blank)) -> exact_inverses c) /\
   _busy (this after_a_blank) = false /\
   undoCommands (this after_a_blank) = [ins_a; blank] /\
   fst (undo 1 after_a_blank) = Done /\
   fst (redo 1 (snd (undo 1 after_a_blank))) = Done /\
   undoCommands (this (snd (redo 1 (snd (undo 1 after_a_blank))))) = [ins_a]) /\
  ((forall c, In c (undoCommands (this after_a_undo)
                    ++ redoCommands (this after_a_undo)) ->
              exact_inverses c /\ never_noop c) /\
   _busy (this after_a_undo) = false /\
   undoCommands (this after_a_undo) = [] /\
   redoCommands (this after_a_undo) = [ins_a] /\
   fst (undo 1 after_a_undo) = Done /\
   fst (redo 1 (snd (undo 1 after_a_undo))) = Done /\
   undoCommands (this (snd (redo 1 (snd (undo 1 after_a_undo))))) = [ins_a] /\
   redoCommands (this (snd (redo 1 (snd (undo 1 after_a_undo))))) = []).
Proof.
  split; split; try (repeat split; vm_compute; reflexivity).
  - intros c Hc. vm_compute in Hc. destruct Hc as [<-|[<-|[]]].
    + exact (plain_exact_inverses "A" 1).
    + exact (hollow_exact_inverses "N").
  - intros c Hc. vm_compute in Hc. destruct Hc as [<-|[]].
    split; [exact (plain_exact_inverses "A" 1)
           | exact (plain_never_noop "A" 1)].
Qed.

Lemma undo_then_redo_restores_stacks_witness :
  (_busy (this after_a_b) = false /\
   (forall c, In c (undoCommands (this after_a_b)) ->
              exact_inverses c /\ never_noop c) /\
   (2 <= Z.of_nat (length (undoCommands (this after_a_b)))
    \/ redoCommands (this after_a_b) = [])) /\
  fst (undo 2 after_a_b) = Done /\
  fst (redo 2 (snd (undo 2 after_a_b))) = Done /\
  undoCommands (this (snd (redo 2 (snd (undo 2 after_a_b)))))
  = undoCommands (this after_a_b) /\
  redoCommands (this (snd (redo 2 (snd (undo 2 after_a_b)))))
  = redoCommands (this after_a_b).
Proof.
  assert (Hidle : _busy (this after_a_b) = false) by (vm_compute; reflexivity).
  assert (Hok : forall c, In c (undoCommands (this after_a_b)) ->
                          exact_inverses c /\ never_noop c).
  { intros c Hc. vm_compute in Hc. destruct Hc as [<-|[<-|[]]].
    - split; [exact (plain_exact_inverses "A" 1)
             | exact (plain_never_noop "A" 1)].
    - split; [exact (plain_exact_inverses "B" 2)
             | exact (plain_never_noop "B" 2)]. }
  assert (Hroom : 2 <= Z.of_nat (length (undoCommands (this after_a_b)))
                  \/ redoCommands (this after_a_b) = []).
  { right. vm_compute. reflexivity. }
  split; [split; [exact Hidle | split; [exact Hok | exact Hroom]]|].
  exact (undo_then_redo_restores_stacks after_a_b Hidle Hok Hroom).
Defined.

(** C5, as stated, fails on a fractional [levels]: [undo(1.5)] passes the
    test [levels > 0] twice, and reverses and moves two commands. *)
Lemma undo_of_one_and_a_half_moves_two :
  (3 # 2 < 2)%Q /\
  _busy (this after_a_b) = false /\
  fst (undo_number (3 # 2) after_a_b) = Done /\
  redoCommands (this (snd (undo_number (3 # 2) after_a_b)))
  = redoCommands (this after_a_b) ++ [ins_b; ins_a] /\
  calls (snd (undo_number (3 # 2) after_a_b))
  = calls after_a_b ++ [Call_undo ins_b; Call_undo ins_a; Call_cleanup].
Proof.
  split; [reflexivity|]. repeat split; vm_compute; reflexivity.
Qed.

Lemma undo_skips_noops_redo_does_not_witness :
  (_busy (this after_a_blank) = false /\
   fst (undo 1 after_a_blank) = Done /\
   undoCommands (this after_a_blank) = [ins_a; blank] /\
   isNoop blank (world after_a_blank) = true) /\
  (exists popped moved,
     undoCommands (this after_a_blank)
     = undoCommands (this (snd (undo 1 after_a_blank))) ++ rev popped /\
     popped_by_undo (world after_a_blank) (Z.to_nat 1) popped moved /\
     redoCommands (this (snd (undo 1 after_a_blank)))
     = redoCommands (this after_a_blank) ++ moved /\
     calls (snd (undo 1 after_a_blank))
     = calls after_a_blank ++ map Call_undo moved ++ [Call_cleanup] /\
     (undoCommands (this (snd (undo 1 after_a_blank))) = []
      \/ length moved = Z.to_nat 1)) /\
  (_busy (this blank_undone) = false /\
   fst (redo 1 blank_undone) = Done /\
   redoCommands (this blank_undone) = [ins_a; blank] /\
   isNoop blank (world blank_undone) = true) /\
  (exists moved,
     redoCommands (this blank_undone)
     = redoCommands (this (snd (redo 1 blank_undone))) ++ rev moved /\
     length moved
     = Nat.min (Z.to_nat 1) (length (redoCommands (this blank_undone))) /\
     undoCommands (this (snd (redo 1 blank_undone)))
     = undoCommands (this blank_undone) ++ moved /\
     calls (snd (redo 1 blank_undone))
     = calls blank_undone ++ map Call_redo moved ++ [Call_cleanup]).
Proof.
  split; [do 3 (split; [vm_compute; reflexivity|]); vm_compute; reflexivity|].
  split.
  { destruct (@undo_skips_noops_redo_does_not Z Script _ 1 after_a_blank)
      as (Hd & _); [vm_compute; reflexivity|].
    apply Hd. vm_compute; reflexivity. }
  split; [do 3 (split; [vm_compute; reflexivity|]); vm_compute; reflexivity|].
  destruct (@undo_skips_noops_redo_does_not Z Script _ 1 blank_undone)
    as (_ & _ & Hr); [vm_compute; reflexivity|].
  apply Hr. vm_compute; reflexivity.
Defined.

(** ** Further properties *)

Lemma execute_CLEAR_empties_stacks_witness :
  (first_apply (make wipe) after_a_b_undo = Some (wipe, cmd_execute wipe 1) /\
   settled (cmd_execute wipe 1) = Resolved CLEAR /\
   undoCount after_a_b_undo = 1%nat /\
   redoCount after_a_b_undo = 1%nat) /\
  undoCount (snd (execute (make wipe) after_a_b_undo)) = 0%nat /\
  redoCount (snd (execute (make wipe) after_a_b_undo)) = 0%nat.
Proof.
  assert (Hs : first_apply (make wipe) after_a_b_undo
               = Some (wipe, cmd_execute wipe 1))
    by (vm_compute; reflexivity).
  split; [split; [exact Hs | repeat split; vm_compute; reflexivity]|].
  destruct (execute_CLEAR_empties_stacks _ after_a_b_undo Hs eq_refl)
    as (_ & _ & _ & Hu & Hr & _).
  split; assumption.
Defined.

Lemma execute_COALESCED_keeps_incumbent_witness :
  (_busy (this after_typing) = false /\
   can_coalesce (this after_typing) = true /\
   undoCommands (this after_typing) = [] ++ [typing] /\
   make ins_b (world after_typing) = (ins_b, 1) /\
   coalesce typing = Some (fun (_ : Script) (w : Z) => (COALESCED, w))) /\
  fst (execute (make ins_b) after_typing) = Done /\
  undoCommands (this (snd (execute (make ins_b) after_typing)))
  = undoCommands (this after_typing) /\
  redoCommands (this (snd (execute (make ins_b) after_typing)))
  = redoCommands (this after_typing) /\
  calls (snd (execute (make ins_b) after_typing))
  = calls after_typing ++ [Call_coalesce typing ins_b] /\
  world (snd (execute (make ins_b) after_typing)) = 1.
Proof.
  split; [do 4 (split; [vm_compute; reflexivity|]); vm_compute; reflexivity|].
  apply (execute_COALESCED_keeps_incumbent (make ins_b) after_typing []
           typing (ncmd := ins_b) (w1 := 1) (w2 := 1)
           (merge := fun (_ : Script) (w : Z) => (COALESCED, w)));
    vm_compute; reflexivity.
Defined.


Lemma getters_agree_witness :
  undoCommands (this after_a_blank) = [] ++ ins_a :: [blank] /\
  (undoCount after_a_blank <= length (undoCommands (this after_a_blank)))%nat /\
  undoDescription after_a_blank = "A"%string /\
  (0 < undoCount after_a_blank)%nat.
Proof.
  destruct (getters_agree after_a_blank) as (Hle & _ & Hd & _).
  split; [vm_compute; reflexivity|]. split; [exact Hle|].
  apply (Hd [] ins_a [blank]).
  - vm_compute; reflexivity.
  - reflexivity.
  - intros a [<-|[]]. reflexivity.
Defined.

Lemma redo_moves_top_commands_witness :
  (_busy (this after_a_b_undone) = false /\
   fst (redo 1 after_a_b_undone) = Done /\
   redoCommands (this after_a_b_undone) = [ins_b; ins_a]) /\
  redoCommands (this (snd (redo 1 after_a_b_undone))) = [ins_b] /\
  undoCommands (this (snd (redo 1 after_a_b_undone))) = [ins_a] /\
  redoCount (snd (redo 1 after_a_b_undone)) = 1%nat.
Proof.
  split; [split; [|split]; vm_compute; reflexivity|].
  destruct (@redo_moves_top_commands Z Script _ 1 after_a_b_undone)
    as (Hr & Hu & Hc & _); [vm_compute; reflexivity ..|].
  rewrite Hr, Hu, Hc. split; [|split]; vm_compute; reflexivity.
Defined.

Lemma undo_stops_when_done_or_empty_witness :
  (_busy (this after_a_blank) = false /\
   fst (undo 5 after_a_blank) = Done) /\
  exists (k : nat) (moved : list Script),
    (k <= length (undoCommands (this after_a_blank)))%nat /\
    undoCommands (this (snd (undo 5 after_a_blank)))
    = firstn (length (undoCommands (this after_a_blank)) - k)
        (undoCommands (this after_a_blank)) /\
    redoCommands (this (snd (undo 5 after_a_blank)))
    = redoCommands (this after_a_blank) ++ moved /\
    incl moved (skipn (length (undoCommands (this after_a_blank)) - k)
                  (undoCommands (this after_a_blank))) /\
    (length moved <= k)%nat /\
    (undoCommands (this (snd (undo 5 after_a_blank))) = []
     \/ length moved = Z.to_nat 5).
Proof.
  split; [split; vm_compute; reflexivity|].
  apply (@undo_stops_when_done_or_empty Z Script _ 5 after_a_blank);
    vm_compute; reflexivity.
Defined.

Lemma stack_sizes_across_undo_and_redo_witness :
  (_busy (this after_locked_b) = false /\
   fst (undo 2 after_locked_b) = Failed "cannot reverse") /\
  (length (undoCommands (this (snd (undo 2 after_locked_b))))
   + length (redoCommands (this (snd (undo 2 after_locked_b))))
   < length (undoCommands (this after_locked_b))
     + length (redoCommands (this after_locked_b)))%nat /\
  _busy (this (snd (undo 2 after_locked_b))) = true.
Proof.
  split; [split; vm_compute; reflexivity|].
  destruct (@stack_sizes_across_undo_and_redo Z Script _ 2 after_locked_b)
    as (_ & _ & _ & Hf); [vm_compute; reflexivity|].
  apply (Hf "cannot reverse"%string). vm_compute; reflexivity.
Defined.

Lemma barrier_stops_coalescence_witness :
  (_busy (this after_typing) = false /\
   can_coalesce (this after_typing) = true /\
   undoCommands (this after_typing) = [typing] /\
   timers after_typing = [1%nat]) /\
  applies_directly (make ins_b) (coalescenceBarrier after_typing) /\
  applies_directly (make ins_b) (timer_expires 1 after_typing) /\
  applies_directly (make ins_b) (snd (undo 0 after_typing)).
Proof.
  split; [do 3 (split; [vm_compute; reflexivity|]); vm_compute; reflexivity|].
  destruct (@barrier_stops_coalescence Z Script _ (make ins_b) after_typing)
    as ((_ & _ & Hbar) & Htimer & Hundo & _); [vm_compute; reflexivity|].
  split; [exact Hbar|]. split.
  - apply Htimer. vm_compute. left. reflexivity.
  - apply Hundo. vm_compute; reflexivity.
Defined.

Lemma execute_IMMISCIBLE_stacks_above_witness :
  (_busy (this after_aloof) = false /\
   can_coalesce (this after_aloof) = true /\
   undoCommands (this after_aloof) = [] ++ [aloof] /\
   make ins_b (world after_aloof) = (ins_b, 1) /\
   coalesce aloof = Some (fun (_ : Script) (w : Z) => (IMMISCIBLE, w)) /\
   settled (cmd_execute ins_b 1) = Resolved ADD) /\
  first_apply (make ins_b) after_aloof = Some (ins_b, cmd_execute ins_b 1) /\
  fst (execute (make ins_b) after_aloof) = Done /\
  undoCommands (this (snd (execute (make ins_b) after_aloof)))
  = [] ++ [aloof; ins_b] /\
  redoCommands (this (snd (execute (make ins_b) after_aloof))) = [].
Proof.
  split; [do 5 (split; [vm_compute; reflexivity|]); vm_compute; reflexivity|].
  destruct (@execute_IMMISCIBLE_stacks_above Z Script _ (make ins_b)
              after_aloof [] aloof ins_b 1 1) as (Hs & Hadd).
  - vm_compute; reflexivity.
  - vm_compute; reflexivity.
  - vm_compute; reflexivity.
  - vm_compute; reflexivity.
  - right. exists (fun (_ : Script) (w : Z) => (IMMISCIBLE, w)).
    split; vm_compute; reflexivity.
  - split; [exact Hs|]. apply Hadd. vm_compute; reflexivity.
Defined.

Lemma rejected_apply_keeps_stacks_witness :
  (first_apply (make faulty) after_a = Some (faulty, cmd_execute faulty 1) /\
   settled (cmd_execute faulty 1) = Rejected "cannot apply") /\
  fst (execute (make faulty) after_a) = Failed "cannot apply" /\
  undoCommands (this (snd (execute (make faulty) after_a)))
  = undoCommands (this after_a) /\
  redoCommands (this (snd (execute (make faulty) after_a)))
  = redoCommands (this after_a).
Proof.
  assert (Hs : first_apply (make faulty) after_a
               = Some (faulty, cmd_execute faulty 1))
    by (vm_compute; reflexivity).
  split; [split; [exact Hs | vm_compute; reflexivity]|].
  destruct (rejected_apply_keeps_stacks (make faulty) after_a Hs
              (e := "cannot apply"%string))
    as (Hf & Hu & Hr & _); [vm_compute; reflexivity|].
  split; [exact Hf|]. split; [exact Hu|exact Hr].
Defined.

Lemma undo_and_redo_invoke_what_they_move_witness :
  (_busy (this after_a_b) = false /\ fst (undo 1 after_a_b) = Done) /\
  (exists moved,
     redoCommands (this (snd (undo 1 after_a_b)))
     = redoCommands (this after_a_b) ++ moved /\
     calls (snd (undo 1 after_a_b))
     = calls after_a_b ++ map Call_undo moved ++ [Call_cleanup] /\
     world (snd (undo 1 after_a_b))
     = cleanup (this after_a_b) (reverse_all (world after_a_b) moved)) /\
  (_busy (this after_locked_b) = false /\
   fst (undo 2 after_locked_b) = Failed "cannot reverse") /\
  (exists moved c,
     redoCommands (this (snd (undo 2 after_locked_b)))
     = redoCommands (this after_locked_b) ++ moved /\
     calls (snd (undo 2 after_locked_b))
     = calls after_locked_b ++ map Call_undo (moved ++ [c]) /\
     In c (undoCommands (this after_locked_b)) /\
     settled (cmd_undo c (reverse_all (world after_locked_b) moved))
     = Rejected "cannot reverse" /\
     world (snd (undo 2 after_locked_b))
     = world_after (cmd_undo c (reverse_all (world after_locked_b) moved))).
Proof.
  split; [split; vm_compute; reflexivity|]. split.
  { destruct (@undo_and_redo_invoke_what_they_move Z Script _ 1 after_a_b)
      as (Hd & _); [vm_compute; reflexivity|].
    apply Hd. vm_compute; reflexivity. }
  split; [split; vm_compute; reflexivity|].
  destruct (@undo_and_redo_invoke_what_they_move Z Script _ 2 after_locked_b)
    as (_ & Hf & _); [vm_compute; reflexivity|].
  apply (Hf "cannot reverse"%string). vm_compute; reflexivity.
Defined.

Lemma at_most_one_timer_pending_witness :
  reachable defaults 0 after_a_b /\
  timers after_a_b = scheduled after_a_b /\
  (length (timers after_a_b) <= 1)%nat.
Proof.
  assert (Hr : reachable defaults 0 after_a_b) by apply reachable_fresh.
  split; [exact Hr|].
  destruct (at_most_one_timer_pending Hr) as (Ht & Hl & _).
  split; [exact Ht|exact Hl].
Defined.

Lemma options_are_fixed_and_quiet_is_silent_witness :
  (reachable silent 0 silent_a_b_undo /\ opt_verbose silent = Some false) /\
  configured silent silent_a_b_undo /\
  console silent_a_b_undo = [].
Proof.
  assert (Hr : reachable silent 0 silent_a_b_undo) by apply reachable_fresh.
  split; [split; [exact Hr|reflexivity]|].
  destruct (options_are_fixed_and_quiet_is_silent Hr) as (Hc & Hq).
  split; [exact Hc|]. apply Hq. reflexivity.
Defined.

Lemma nonpositive_window_never_coalesces_witness :
  (reachable (window 0) 0 unwindowed_typing_b /\
   coalescenceWindow (this unwindowed_typing_b) <= 0 /\
   In (Call_coalesce typing ins_b) (calls after_typing_b)) /\
  (In (Call_coalesce typing ins_b) (calls unwindowed_typing_b) -> False).
Proof.
  assert (Hr : reachable (window 0) 0 unwindowed_typing_b)
    by apply reachable_fresh.
  split.
  - split; [exact Hr|]. split; [vm_compute; discriminate|].
    vm_compute. right. left. reflexivity.
  - apply (nonpositive_window_never_coalesces Hr).
    vm_compute; discriminate.
Defined.

Lemma commands_are_conserved_witness :
  NoDup (constructed (OpExecute (make ins_c)) after_a_b
         ++ undoCommands (this after_a_b) ++ redoCommands (this after_a_b)) /\
  NoDup (undoCommands (this (snd (run (OpExecute (make ins_c)) after_a_b)))
         ++ redoCommands
              (this (snd (run (OpExecute (make ins_c)) after_a_b)))).
Proof.
  assert (Hn : NoDup (constructed (OpExecute (make ins_c)) after_a_b
                      ++ undoCommands (this after_a_b)
                      ++ redoCommands (this after_a_b))).
  { vm_compute. repeat constructor; simpl; intuition discriminate. }
  split; [exact Hn|].
  destruct (@commands_are_conserved Z Script _ (OpExecute (make ins_c))
              after_a_b) as (_ & Hd).
  exact (Hd Hn).
Defined.

Lemma clear_forgets_without_invoking_witness :
  (_busy (this after_typing) = false /\
   can_coalesce (this after_typing) = true /\
   undoCount after_typing = 1%nat) /\
  undoCount (snd (clear after_typing)) = 0%nat /\
  undoDescription (snd (clear after_typing)) = "None"%string /\
  can_coalesce (this (snd (clear after_typing))) = true /\
  applies_directly (make ins_b) (snd (clear after_typing)).
Proof.
  split; [split; [|split]; vm_compute; reflexivity|].
  destruct (@clear_forgets_without_invoking Z Script _ after_typing)
    as (_ & Hc & _ & Hd & _ & _ & _ & Hf & _ & _ & Ha & _);
    [vm_compute; reflexivity|].
  split; [exact Hc|]. split; [exact Hd|]. split; [|apply Ha].
  rewrite Hf. vm_compute; reflexivity.
Defined.

Lemma verbose_prints_one_line_per_step_witness :
  (_busy (this after_a) = false /\
   verbose (this after_a) = true /\
   first_apply (make ins_b) after_a = Some (ins_b, cmd_execute ins_b 1) /\
   settled (cmd_execute ins_b 1) = Resolved ADD) /\
  console (snd (execute (make ins_b) after_a))
  = console after_a ++ ["Added B to undo stack."%string].
Proof.
  assert (Hs : first_apply (make ins_b) after_a
               = Some (ins_b, cmd_execute ins_b 1))
    by (vm_compute; reflexivity).
  split; [do 2 (split; [vm_compute; reflexivity|]);
          split; [exact Hs|vm_compute; reflexivity]|].
  destruct (@verbose_prints_one_line_per_step Z Script _ after_a)
    as (_ & Hadd & _); [vm_compute; reflexivity ..|].
  exact (Hadd (make ins_b) ins_b (cmd_execute ins_b 1) Hs eq_refl).
Defined.

Lemma busy_engine_never_recovers_witness :
  _busy (this after_typing_b) = true /\
  _busy (this (run_all [OpUndo 1; OpCoalescenceBarrier;
                        OpExecute (make ins_c)] after_typing_b)) = true /\
  undoCommands (this (run_all [OpUndo 1; OpCoalescenceBarrier;
                               OpExecute (make ins_c)] after_typing_b))
  = undoCommands (this after_typing_b).
Proof.
  assert (Hb : _busy (this after_typing_b) = true)
    by (vm_compute; reflexivity).
  split; [exact Hb|].
  destruct (busy_engine_never_recovers
              [OpUndo 1; OpCoalescenceBarrier; OpExecute (make ins_c)]
              after_typing_b Hb) as (Hb' & Hu & _).
  split; [exact Hb'|exact Hu].
Defined.

Lemma fractional_levels_round_up_witness :
  Qceiling (3 # 2) = 2 /\
  undo_number (3 # 2) after_a_b = undo (Qceiling (3 # 2)) after_a_b /\
  redo_number (3 # 2) after_a_b_undo
  = redo (Qceiling (3 # 2)) after_a_b_undo.
Proof.
  split; [reflexivity|].
  destruct (@fractional_levels_round_up Z Script _ (3 # 2) after_a_b)
    as (Hu & _).
  destruct (@fractional_levels_round_up Z Script _ (3 # 2) after_a_b_undo)
    as (_ & Hr & _).
  split; [exact Hu|exact Hr].
Defined.
